(** * The project-to-consultant matching engine of [src/projects.ts]

  A shallow embedding of the matching engine (keyword extraction,
  expertise and experience scoring, ranking) and of the match lifecycle
  operations that run against the D1 database, followed by the
  properties the specification states about them (Part II) and by
  further properties of the code, the read operations included
  (Part III).

  Conventions of the embedding.
  - A JavaScript string is a [string]: each [ascii] is one UTF-16 code
    unit below 256 (the Latin-1 range), so the case mapping and the
    character classes [\w] and [\s] are the ECMAScript ones on that range.
  - A JavaScript number that the code computes with is a binary64
    [float] (the kernel's primitive floats), with the IEEE-754 operations
    of the source.  Array lengths and loop counters are [nat], years of
    experience are [Z]; both are converted where the source mixes them
    with fractional numbers.
  - The database is a record of tables, each a list of rows in insertion
    order; the primary keys of the schema are enforced on insertion.
  - An [async] function that reads and writes the database and may throw
    is a function from the database to the new database and a result. *)

From Stdlib Require Import List String Ascii Bool Arith ZArith Lia.
From Stdlib Require Import Sorted Permutation.
From Stdlib Require Import Floats Uint63.
Import ListNotations.

Set Warnings "-inexact-float".


(* ================================================================== *)
(** * Part I: the embedding *)
(* ================================================================== *)

(** ** JavaScript strings *)

Module JsString.

Local Open Scope nat_scope.

(** Code unit of a character. *)
Definition code (c : ascii) : nat := nat_of_ascii c.

(** [\s] of ECMAScript regular expressions, restricted to code units
    below 256: TAB, LF, VT, FF, CR, SPACE and NO-BREAK SPACE. *)
Definition isSpace (c : ascii) : bool :=
  let n := code c in
  ((9 <=? n) && (n <=? 13)) || (n =? 32) || (n =? 160).

(** [\w] of ECMAScript regular expressions: [A-Za-z0-9_]. *)
Definition isWord (c : ascii) : bool :=
  let n := code c in
  ((48 <=? n) && (n <=? 57)) || ((65 <=? n) && (n <=? 90))
  || (n =? 95) || ((97 <=? n) && (n <=? 122)).


(** Case mapping of one code unit: [A-Z] and the Latin-1 capitals
    U+00C0..U+00DE (except the multiplication sign U+00D7) move up by 32. *)
Definition lowerChar (c : ascii) : ascii :=
  let n := code c in
  if (65 <=? n) && (n <=? 90) then ascii_of_nat (n + 32)
  else if (192 <=? n) && (n <=? 222) && negb (n =? 215)
       then ascii_of_nat (n + 32)
       else c.

(** [s.toLowerCase()] *)
Fixpoint toLowerCase (s : string) : string :=
  match s with
  | EmptyString => EmptyString
  | String c r => String (lowerChar c) (toLowerCase r)
  end.

(** [s.replace(/[^\w\s]/g, '')]: every character that is neither a word
    character nor white space is removed. *)
Fixpoint stripNonWord (s : string) : string :=
  match s with
  | EmptyString => EmptyString
  | String c r =>
      if isWord c || isSpace c then String c (stripNonWord r)
      else stripNonWord r
  end.

(** [s.split(/\s+/)].  [tok] is the piece read so far and [inRun] tells
    that the previous character was white space.  A separator is a maximal
    run of white space; as in JavaScript a leading or trailing separator
    leaves an empty piece, and the empty string splits into one empty
    piece. *)
Fixpoint splitLoop (s : string) (tok : string) (inRun : bool) : list string :=
  match s with
  | EmptyString => [tok]
  | String c r =>
      if isSpace c then
        if inRun then splitLoop r tok true
        else tok :: splitLoop r EmptyString true
      else splitLoop r (tok ++ String c EmptyString) false
  end.

Definition splitSpaces (s : string) : list string :=
  splitLoop s EmptyString false.

(** [s.includes(t)]: [t] occurs in [s] as a contiguous substring. *)
Fixpoint includes (s t : string) : bool :=
  String.prefix t s
  || match s with
     | EmptyString => false
     | String _ r => includes r t
     end.

(** Membership in a [Set] of strings (SameValueZero on strings is
    equality of strings). *)
Definition setHas (seen : list string) (w : string) : bool :=
  existsb (String.eqb w) seen.

(** [[...new Set(words)]]: the elements in the order of their first
    insertion. *)
Definition setAdd (seen : list string) (w : string) : list string :=
  if setHas seen w then seen else seen ++ [w].

Definition spreadSet (words : list string) : list string :=
  fold_left setAdd words [].

(** All characters of a string satisfy a test. *)
Fixpoint allChars (p : ascii -> bool) (s : string) : bool :=
  match s with
  | EmptyString => true
  | String c r => p c && allChars p r
  end.

End JsString.

(** ** JavaScript numbers *)

Module JsNumber.

Local Open Scope float_scope.

(** The number that holds a count or an array length. *)
Definition ofNat (n : nat) : float :=
  PrimFloat.of_uint63 (Uint63.of_Z (Z.of_nat n)).

(** The number that holds a non-negative integer below 2^63. *)
Definition ofZ (z : Z) : float :=
  if (z <? 0)%Z then - PrimFloat.of_uint63 (Uint63.of_Z (- z))
  else PrimFloat.of_uint63 (Uint63.of_Z z).

(** [Math.round x]: the integer nearest to [x], a tie going to the
    larger one; infinities and NaN are returned as they are, and a result
    of zero keeps the sign of [x].  A finite number [m * 2^e] with
    [0 <= e] is an integer already; otherwise it is below 2^53 in
    magnitude and the result is [floor (x + 1/2)], computed exactly. *)
Definition Math_round (x : float) : float :=
  match Prim2SF x with
  | S754_finite s m e =>
      if (0 <=? e)%Z then x
      else
        let k := (- e)%Z in
        let n := ((2 * (if s then Z.neg m else Z.pos m) + 2 ^ k)
                    / 2 ^ (k + 1))%Z in
        if (n =? 0)%Z then (if s then neg_zero else zero) else ofZ n
  | _ => x
  end.

(** Finite or infinite, but a number. *)
Definition notNaN (x : float) : Prop := Prim2SF x <> S754_nan.

End JsNumber.

(** ** The data model ([Project], [ProjectMatch]) and the consultant rows *)

Module ProjectStatus.
Inductive t := open | in_progress | completed | cancelled.

Definition eqb (a b : t) : bool :=
  match a, b with
  | open, open | in_progress, in_progress
  | completed, completed | cancelled, cancelled => true
  | _, _ => false
  end.
End ProjectStatus.

Module MatchStatus.
Inductive t := pending | accepted | rejected | completed.

Definition eqb (a b : t) : bool :=
  match a, b with
  | pending, pending | accepted, accepted
  | rejected, rejected | completed, completed => true
  | _, _ => false
  end.
End MatchStatus.

Module Project.
Record t := mk {
  id : string;
  sme_id : string;
  title : string;
  description : string;
  requirements : string;
  budget : option float;
  deadline : option string;
  status : ProjectStatus.t;
  created_at : string;
  updated_at : string
}.
End Project.

Module ProjectMatch.
Record t := mk {
  id : string;
  project_id : string;
  consultant_id : string;
  match_score : float;
  status : MatchStatus.t;
  proposal : option string;
  price : option float;
  created_at : string;
  updated_at : string
}.
End ProjectMatch.

(** A row of [consultant_profiles] after [JSON.parse] of its list-valued
  columns; only the columns the matching engine reads are kept. *)
Module ConsultantProfile.
Record t := mk {
  id : string;
  expertise : list string;
  experience_years : Z
}.
End ConsultantProfile.

(** [Omit<Project, 'id' | 'sme_id' | 'status' | 'created_at' | 'updated_at'>] *)
Module ProjectData.
Record t := mk {
  title : string;
  description : string;
  requirements : string;
  budget : option float;
  deadline : option string
}.
End ProjectData.

(** [Partial<Omit<Project, 'id' | 'sme_id' | 'created_at' | 'updated_at'>>]:
  [None] is a field that is [undefined]. *)
Module ProjectPatch.
Record t := mk {
  title : option string;
  description : option string;
  requirements : option string;
  budget : option (option float);
  deadline : option (option string);
  status : option ProjectStatus.t
}.
End ProjectPatch.

(** The status argument of [updateMatchStatus]:
  ['accepted' | 'rejected' | 'completed']. *)
Module NewStatus.
Inductive t := accepted | rejected | completed.

Definition toStatus (s : t) : MatchStatus.t :=
  match s with
  | accepted => MatchStatus.accepted
  | rejected => MatchStatus.rejected
  | completed => MatchStatus.completed
  end.
End NewStatus.

(** ** The matching engine: pure helpers of [src/projects.ts] *)

Module Matching.
Import JsString JsNumber.

(** [extractKeywords] *)
Definition extractKeywords (text : string) : list string :=
  let words :=
    filter (fun word => 3 <? String.length word)
           (splitSpaces (stripNonWord (toLowerCase text))) in
  spreadSet words.

(** Inner loop of [calculateExpertiseMatch]: does some tag contain the
    keyword or lie within it?  The loop stops at the first such tag. *)
Fixpoint someTagMatches (lowerExpertise : list string) (keyword : string)
  : bool :=
  match lowerExpertise with
  | [] => false
  | exp :: rest =>
      if includes exp keyword || includes keyword exp then true
      else someTagMatches rest keyword
  end.

(** Outer loop of [calculateExpertiseMatch]: [matches] after the
    keywords have been visited, starting from the given count. *)
Fixpoint countMatches (lowerExpertise projectKeywords : list string)
         (matches : nat) : nat :=
  match projectKeywords with
  | [] => matches
  | keyword :: rest =>
      countMatches lowerExpertise rest
        (if someTagMatches lowerExpertise keyword then S matches
         else matches)
  end.

(** [calculateExpertiseMatch] *)
Definition calculateExpertiseMatch (expertise projectKeywords : list string)
  : float :=
  let lowerExpertise := map toLowerCase expertise in
  let matches := countMatches lowerExpertise projectKeywords 0 in
  if 0 <? List.length projectKeywords
  then (ofNat matches / ofNat (List.length projectKeywords))%float
  else 0%float.

(** [calculateExperienceScore] *)
Definition calculateExperienceScore (experienceYears : Z) : float :=
  if (experienceYears >=? 15)%Z then 1.0%float
  else if (experienceYears >=? 10)%Z then 0.9%float
  else if (experienceYears >=? 7)%Z then 0.8%float
  else if (experienceYears >=? 5)%Z then 0.7%float
  else if (experienceYears >=? 3)%Z then 0.6%float
  else if (experienceYears >=? 1)%Z then 0.5%float
  else 0.3%float.

(** An element of the array [matches] of [generateProjectMatches]. *)
Module Candidate.
Record t := mk { consultant_id : string; match_score : float }.
End Candidate.

(** The weighted score of one consultant (before rounding). *)
Definition matchScore (projectKeywords : list string)
           (consultant : ConsultantProfile.t) : float :=
  let expertiseMatch :=
    calculateExpertiseMatch (ConsultantProfile.expertise consultant)
                            projectKeywords in
  let experienceScore :=
    calculateExperienceScore (ConsultantProfile.experience_years consultant) in
  (expertiseMatch * 0.6 + experienceScore * 0.4)%float.

(** [Math.round(matchScore * 100) / 100] *)
Definition round2 (matchScore : float) : float :=
  (Math_round (matchScore * 100) / 100)%float.

(** The scoring loop of [generateProjectMatches]: the array [matches]
    once every consultant has been visited. *)
Fixpoint scoreConsultants (projectKeywords : list string)
         (consultants : list ConsultantProfile.t) : list Candidate.t :=
  match consultants with
  | [] => []
  | consultant :: rest =>
      let score := matchScore projectKeywords consultant in
      if (0.3 <=? score)%float
      then Candidate.mk (ConsultantProfile.id consultant) (round2 score)
             :: scoreConsultants projectKeywords rest
      else scoreConsultants projectKeywords rest
  end.

(** The comparator [(a, b) => b.match_score - a.match_score]. *)
Definition byScoreDesc (a b : Candidate.t) : float :=
  (Candidate.match_score b - Candidate.match_score a)%float.

(** [Array.prototype.sort(cmp)], a stable sort: [a] is placed after [b]
    only when [cmp a b > 0]. *)
Fixpoint sortInsert {A} (cmp : A -> A -> float) (a : A) (sorted : list A)
  : list A :=
  match sorted with
  | [] => [a]
  | b :: rest =>
      if (0 <? cmp a b)%float then b :: sortInsert cmp a rest
      else a :: b :: rest
  end.

Fixpoint sort {A} (cmp : A -> A -> float) (l : list A) : list A :=
  match l with
  | [] => []
  | a :: rest => sortInsert cmp a (sort cmp rest)
  end.

(** [matches.slice(0, 10)] after the sort: the array [topMatches]. *)
Definition topMatches (projectKeywords : list string)
           (consultants : list ConsultantProfile.t) : list Candidate.t :=
  firstn 10 (sort byScoreDesc (scoreConsultants projectKeywords consultants)).

(** The text the keywords of a project are extracted from. *)
Definition projectText (project : Project.t) : string :=
  (Project.title project ++ " " ++ Project.description project ++ " "
     ++ Project.requirements project)%string.

End Matching.

(** ** The database and the [async] functions that use it *)

Module D1.

(** The tables of the schema the project module reads and writes. *)
Record D1Database := mkDb {
  projects : list Project.t;
  project_matches : list ProjectMatch.t;
  consultant_profiles : list ConsultantProfile.t
}.

(** What an [async] function settles to: a value, or a thrown [Error]
    with its message. *)
Inductive result (A : Type) :=
| Ok (value : A)
| Thrown (message : string).
Arguments Ok {A} value.
Arguments Thrown {A} message.

(** An [async] function body: it runs against the database, leaves a
    database behind (also when it throws: statements that ran before the
    throw stay in effect, there is no transaction) and settles. *)
Definition Async (A : Type) : Type := D1Database -> D1Database * result A.

Definition ret {A} (a : A) : Async A := fun db => (db, Ok a).

Definition throw {A} (message : string) : Async A :=
  fun db => (db, Thrown message).

Definition bind {A B} (m : Async A) (k : A -> Async B) : Async B :=
  fun db =>
    match m db with
    | (db', Ok a) => k a db'
    | (db', Thrown message) => (db', Thrown message)
    end.

(** A [SELECT]: the database is read and left as it is. *)
Definition select {A} (q : D1Database -> A) : Async A :=
  fun db => (db, Ok (q db)).

(** An [UPDATE] or [DELETE]: it cannot fail. *)
Definition run (f : D1Database -> D1Database) : Async unit :=
  fun db => (f db, Ok tt).

(** [.first()] of a query: the first row, or [null]. *)
Definition first {A} (rows : list A) : option A := hd_error rows.

Definition setProjects (f : list Project.t -> list Project.t)
           (db : D1Database) : D1Database :=
  mkDb (f (projects db)) (project_matches db) (consultant_profiles db).

Definition setMatches (f : list ProjectMatch.t -> list ProjectMatch.t)
           (db : D1Database) : D1Database :=
  mkDb (projects db) (f (project_matches db)) (consultant_profiles db).

(** [UPDATE table SET ... WHERE cond]: every row that satisfies [cond]
    is replaced by its update. *)
Definition updateWhere {A} (cond : A -> bool) (set : A -> A) (rows : list A)
  : list A :=
  map (fun row => if cond row then set row else row) rows.

(** [DELETE FROM table WHERE cond] *)
Definition deleteWhere {A} (cond : A -> bool) (rows : list A) : list A :=
  filter (fun row => negb (cond row)) rows.

(** [INSERT INTO projects]: [id] is the primary key. *)
Definition insertProject (row : Project.t) : Async unit :=
  fun db =>
    if existsb (fun p => (Project.id p =? Project.id row)%string) (projects db)
    then (db, Thrown "UNIQUE constraint failed: projects.id")
    else (setProjects (fun rows => rows ++ [row]) db, Ok tt).

(** [INSERT INTO project_matches]: [id] is the primary key. *)
Definition insertMatch (row : ProjectMatch.t) : Async unit :=
  fun db =>
    if existsb (fun m => (ProjectMatch.id m =? ProjectMatch.id row)%string)
               (project_matches db)
    then (db, Thrown "UNIQUE constraint failed: project_matches.id")
    else (setMatches (fun rows => rows ++ [row]) db, Ok tt).

End D1.

Declare Scope async_scope.
Delimit Scope async_scope with async.
Notation "x <- m ;; k" := (D1.bind m (fun x => k))
(at level 61, m at next level, right associativity) : async_scope.
Notation "m ;; k" := (D1.bind m (fun _ => k))
(at level 61, right associativity) : async_scope.

(** What an operation takes from outside the database: the successive
  results of [nanoid()] and of [new Date().toISOString()] during the
  call, numbered from 0. *)
Module Env.
Record t := mk {
  nanoid : nat -> string;
  now : nat -> string
}.
End Env.

(** ** The operations of [src/projects.ts] *)

Module Projects.
Import D1 Matching.
Local Open Scope string_scope.
Local Open Scope async_scope.

(** The row [generateProjectMatches] inserts for one retained entry. *)
Definition matchRow (matchId : string) (project : Project.t)
           (m : Candidate.t) (now : string) : ProjectMatch.t :=
  ProjectMatch.mk matchId (Project.id project) (Candidate.consultant_id m)
                  (Candidate.match_score m) MatchStatus.pending None None
                  now now.

(** The insertion loop of [generateProjectMatches]; [i] is the number of
    [nanoid()] calls made so far. *)
Fixpoint insertMatches (env : Env.t) (project : Project.t) (now : string)
         (i : nat) (top : list Candidate.t) : Async unit :=
  match top with
  | [] => ret tt
  | m :: rest =>
      insertMatch (matchRow (Env.nanoid env i) project m now) ;;
      insertMatches env project now (S i) rest
  end.

(** [generateProjectMatches]; the project id and the first time stamp
    were drawn by the caller, so the ids start at 1 and the time stamp
    is number 1. *)
Definition generateProjectMatches (env : Env.t) (project : Project.t)
  : Async unit :=
  consultants <- select consultant_profiles ;;
  let projectKeywords := extractKeywords (projectText project) in
  let top := topMatches projectKeywords consultants in
  let now := Env.now env 1 in
  insertMatches env project now 1 top.

(** [createProject] *)
Definition createProject (env : Env.t) (smeId : string)
           (projectData : ProjectData.t) : Async Project.t :=
  let projectId := Env.nanoid env 0 in
  let now := Env.now env 0 in
  insertProject
    (Project.mk projectId smeId
                (ProjectData.title projectData)
                (ProjectData.description projectData)
                (ProjectData.requirements projectData)
                (ProjectData.budget projectData)
                (ProjectData.deadline projectData)
                ProjectStatus.open now now) ;;
  project <- select (fun db =>
    first (filter (fun p => Project.id p =? projectId) (projects db))) ;;
  match project with
  | None => throw "Failed to create project"
  | Some project =>
      generateProjectMatches env project ;;
      ret project
  end.

Definition orElse {A} (o : option A) (a : A) : A :=
  match o with Some x => x | None => a end.

(** The [SET] clause [updateProject] assembles: a field that is not
    [undefined] is written, [updated_at] always is. *)
Definition applyPatch (projectData : ProjectPatch.t) (now : string)
           (p : Project.t) : Project.t :=
  Project.mk (Project.id p) (Project.sme_id p)
    (orElse (ProjectPatch.title projectData) (Project.title p))
    (orElse (ProjectPatch.description projectData) (Project.description p))
    (orElse (ProjectPatch.requirements projectData) (Project.requirements p))
    (orElse (ProjectPatch.budget projectData) (Project.budget p))
    (orElse (ProjectPatch.deadline projectData) (Project.deadline p))
    (orElse (ProjectPatch.status projectData) (Project.status p))
    (Project.created_at p) now.

(** [updateProject] *)
Definition updateProject (env : Env.t) (projectId smeId : string)
           (projectData : ProjectPatch.t) : Async Project.t :=
  existingProject <- select (fun db =>
    first (filter (fun p => (Project.id p =? projectId)
                            && (Project.sme_id p =? smeId)) (projects db))) ;;
  match existingProject with
  | None =>
      throw "Project not found or you do not have permission to update it"
  | Some _ =>
      let now := Env.now env 0 in
      run (setProjects
             (updateWhere (fun p => Project.id p =? projectId)
                          (applyPatch projectData now))) ;;
      updatedProject <- select (fun db =>
        first (filter (fun p => Project.id p =? projectId) (projects db))) ;;
      match updatedProject with
      | None => throw "Failed to update project"
      | Some updatedProject => ret updatedProject
      end
  end.

(** [deleteProject] *)
Definition deleteProject (projectId smeId : string) : Async bool :=
  existingProject <- select (fun db =>
    first (filter (fun p => (Project.id p =? projectId)
                            && (Project.sme_id p =? smeId)) (projects db))) ;;
  match existingProject with
  | None =>
      throw "Project not found or you do not have permission to delete it"
  | Some _ =>
      run (setMatches
             (deleteWhere (fun m => ProjectMatch.project_id m =? projectId))) ;;
      run (setProjects (deleteWhere (fun p => Project.id p =? projectId))) ;;
      ret true
  end.

Definition setProposal (proposal : string) (price : float) (now : string)
           (m : ProjectMatch.t) : ProjectMatch.t :=
  ProjectMatch.mk (ProjectMatch.id m) (ProjectMatch.project_id m)
                  (ProjectMatch.consultant_id m) (ProjectMatch.match_score m)
                  (ProjectMatch.status m) (Some proposal) (Some price)
                  (ProjectMatch.created_at m) now.

(** [submitProposal] *)
Definition submitProposal (env : Env.t) (matchId consultantId : string)
           (proposal : string) (price : float) : Async ProjectMatch.t :=
  existingMatch <- select (fun db =>
    first (filter (fun m => (ProjectMatch.id m =? matchId)
                            && (ProjectMatch.consultant_id m =? consultantId))
                  (project_matches db))) ;;
  match existingMatch with
  | None =>
      throw "Match not found or you do not have permission to submit a proposal"
  | Some existingMatch =>
      if negb (MatchStatus.eqb (ProjectMatch.status existingMatch)
                               MatchStatus.pending)
      then throw "Cannot submit proposal for a match that is not pending"
      else
        let now := Env.now env 0 in
        run (setMatches
               (updateWhere (fun m => ProjectMatch.id m =? matchId)
                            (setProposal proposal price now))) ;;
        updatedMatch <- select (fun db =>
          first (filter (fun m => ProjectMatch.id m =? matchId)
                        (project_matches db))) ;;
        match updatedMatch with
        | None => throw "Failed to update match"
        | Some updatedMatch => ret updatedMatch
        end
  end.

Definition setMatchStatus (status : MatchStatus.t) (now : string)
           (m : ProjectMatch.t) : ProjectMatch.t :=
  ProjectMatch.mk (ProjectMatch.id m) (ProjectMatch.project_id m)
                  (ProjectMatch.consultant_id m) (ProjectMatch.match_score m)
                  status (ProjectMatch.proposal m) (ProjectMatch.price m)
                  (ProjectMatch.created_at m) now.

Definition setProjectStatus (status : ProjectStatus.t) (now : string)
           (p : Project.t) : Project.t :=
  Project.mk (Project.id p) (Project.sme_id p) (Project.title p)
             (Project.description p) (Project.requirements p)
             (Project.budget p) (Project.deadline p) status
             (Project.created_at p) now.

(** The join of [updateMatchStatus]: the match has a parent project that
    belongs to the SME. *)
Definition ownedBy (db : D1Database) (smeId : string) (m : ProjectMatch.t)
  : bool :=
  existsb (fun p => (ProjectMatch.project_id m =? Project.id p)
                    && (Project.sme_id p =? smeId)) (projects db).

(** [updateMatchStatus] *)
Definition updateMatchStatus (env : Env.t) (matchId smeId : string)
           (status : NewStatus.t) : Async ProjectMatch.t :=
  existingMatch <- select (fun db =>
    first (filter (fun m => (ProjectMatch.id m =? matchId)
                            && ownedBy db smeId m) (project_matches db))) ;;
  match existingMatch with
  | None =>
      throw "Match not found or you do not have permission to update it"
  | Some existingMatch =>
      let now := Env.now env 0 in
      run (setMatches
             (updateWhere (fun m => ProjectMatch.id m =? matchId)
                          (setMatchStatus (NewStatus.toStatus status) now))) ;;
      match status with
      | NewStatus.accepted =>
          run (setProjects
                 (updateWhere
                    (fun p => Project.id p
                              =? ProjectMatch.project_id existingMatch)
                    (setProjectStatus ProjectStatus.in_progress now))) ;;
          run (setMatches
                 (updateWhere
                    (fun m => (ProjectMatch.project_id m
                               =? ProjectMatch.project_id existingMatch)
                              && negb (ProjectMatch.id m =? matchId)
                              && MatchStatus.eqb (ProjectMatch.status m)
                                                 MatchStatus.pending)
                    (setMatchStatus MatchStatus.rejected now)))
      | _ => ret tt
      end ;;
      match status with
      | NewStatus.completed =>
          run (setProjects
                 (updateWhere
                    (fun p => Project.id p
                              =? ProjectMatch.project_id existingMatch)
                    (setProjectStatus ProjectStatus.completed now)))
      | _ => ret tt
      end ;;
      updatedMatch <- select (fun db =>
        first (filter (fun m => ProjectMatch.id m =? matchId)
                      (project_matches db))) ;;
      match updatedMatch with
      | None => throw "Failed to update match"
      | Some updatedMatch => ret updatedMatch
      end
  end.

(** *** The core operations as requests, and the states they reach *)

Inductive Op :=
| CreateProject (env : Env.t) (smeId : string) (projectData : ProjectData.t)
| SubmitProposal (env : Env.t) (matchId consultantId proposal : string)
                 (price : float)
| UpdateMatchStatus (env : Env.t) (matchId smeId : string)
                    (status : NewStatus.t)
| UpdateProject (env : Env.t) (projectId smeId : string)
                (projectData : ProjectPatch.t)
| DeleteProject (projectId smeId : string).

(** The database an operation leaves behind, whether it settled with a
    value or threw. *)
Definition exec (op : Op) (db : D1Database) : D1Database :=
  match op with
  | CreateProject env smeId projectData =>
      fst (createProject env smeId projectData db)
  | SubmitProposal env matchId consultantId proposal price =>
      fst (submitProposal env matchId consultantId proposal price db)
  | UpdateMatchStatus env matchId smeId status =>
      fst (updateMatchStatus env matchId smeId status db)
  | UpdateProject env projectId smeId projectData =>
      fst (updateProject env projectId smeId projectData db)
  | DeleteProject projectId smeId =>
      fst (deleteProject projectId smeId db)
  end.

(** A database with its consultant pool and no project yet. *)
Definition initial (pool : list ConsultantProfile.t) : D1Database :=
  mkDb [] [] pool.

(** The states reachable from an initial database by the core
    operations. *)
Inductive reachable : D1Database -> Prop :=
| reach_initial pool : reachable (initial pool)
| reach_step op db : reachable db -> reachable (exec op db).

(** The matches of a project, and those among them in a given status. *)
Definition matchesOf (db : D1Database) (projectId : string)
  : list ProjectMatch.t :=
  filter (fun m => ProjectMatch.project_id m =? projectId)
         (project_matches db).

Definition withStatus (status : MatchStatus.t) (l : list ProjectMatch.t)
  : list ProjectMatch.t :=
  filter (fun m => MatchStatus.eqb (ProjectMatch.status m) status) l.

Definition acceptedCount (db : D1Database) (projectId : string) : nat :=
  List.length (withStatus MatchStatus.accepted (matchesOf db projectId)).

(** The status of the project with the given id, if there is one. *)
Definition projectStatus (db : D1Database) (projectId : string)
  : option ProjectStatus.t :=
  option_map Project.status
    (first (filter (fun p => Project.id p =? projectId) (projects db))).

Definition findMatch (db : D1Database) (matchId : string)
  : option ProjectMatch.t :=
  first (filter (fun m => ProjectMatch.id m =? matchId) (project_matches db)).

End Projects.

(** ** Notions the properties are stated with *)

Module Spec.
Import JsString JsNumber Matching.

(** [t] occurs in [s] as a contiguous substring. *)
Definition Substring (t s : string) : Prop :=
  exists before after, s = (before ++ t ++ after)%string.

(** The first and the last character of a string. *)
Definition firstChar (s : string) : option ascii :=
  match s with
  | EmptyString => None
  | String c _ => Some c
  end.

Fixpoint lastChar (s : string) : option ascii :=
  match s with
  | EmptyString => None
  | String c EmptyString => Some c
  | String _ r => lastChar r
  end.

(** Where a piece may begin or end: at an end of the text, or next to a
    white-space character. *)
Definition boundary (neighbour : option ascii) : Prop :=
  match neighbour with
  | None => True
  | Some c => isSpace c = true
  end.

(** [w] is a token of [s]: a maximal run of characters that are not
    white space. *)
Definition Token (w s : string) : Prop :=
  w <> EmptyString
  /\ allChars (fun c => negb (isSpace c)) w = true
  /\ exists before after,
      s = (before ++ w ++ after)%string
      /\ boundary (lastChar before) /\ boundary (firstChar after).

(** A keyword is matched by a list of expertise tags: it lies within some
    lowercased tag, or some lowercased tag lies within it. *)
Definition Matched (expertise : list string) (keyword : string) : Prop :=
  exists tag, In tag expertise
              /\ (Substring keyword (toLowerCase tag)
                  \/ Substring (toLowerCase tag) keyword).

(** The same as a test, for counting. *)
Definition matched (expertise : list string) (keyword : string) : bool :=
  existsb (fun tag => includes (toLowerCase tag) keyword
                      || includes keyword (toLowerCase tag)) expertise.

(** A positive number or plus infinity, on the specification side of
    the floats: what [0 < x] tests. *)
Definition posSF (x : spec_float) : bool :=
  match x with
  | S754_finite false _ _ | S754_infinity false => true
  | _ => false
  end.

(** Entries in descending order of score: the later one is not above
    the earlier one. *)
Definition descending (a b : Candidate.t) : Prop :=
  (Candidate.match_score b <=? Candidate.match_score a)%float = true.

Definition rowsDescending (a b : ProjectMatch.t) : Prop :=
  (ProjectMatch.match_score b <=? ProjectMatch.match_score a)%float = true.

(** The rows the insertion loop of [generateProjectMatches] sets out to
    insert, the first with the [i]-th id. *)
Fixpoint matchRows (env : Env.t) (project : Project.t) (now : string)
         (i : nat) (top : list Candidate.t) : list ProjectMatch.t :=
  match top with
  | [] => []
  | m :: rest =>
      Projects.matchRow (Env.nanoid env i) project m now
        :: matchRows env project now (S i) rest
  end.

(** What [updateMatchStatus] writes once it has found the match
    [matchId] in project [projectId]: the row of a match after the call,
    and the database after the call. *)
Definition rowAfter (now matchId projectId : string) (status : NewStatus.t)
           (m : ProjectMatch.t) : ProjectMatch.t :=
  if (ProjectMatch.id m =? matchId)%string
  then Projects.setMatchStatus (NewStatus.toStatus status) now m
  else
    match status with
    | NewStatus.accepted =>
        if (ProjectMatch.project_id m =? projectId)%string
           && MatchStatus.eqb (ProjectMatch.status m) MatchStatus.pending
        then Projects.setMatchStatus MatchStatus.rejected now m
        else m
    | _ => m
    end.

Definition projectAfter (now projectId : string) (status : NewStatus.t)
           (p : Project.t) : Project.t :=
  match status with
  | NewStatus.accepted =>
      if (Project.id p =? projectId)%string
      then Projects.setProjectStatus ProjectStatus.in_progress now p else p
  | NewStatus.completed =>
      if (Project.id p =? projectId)%string
      then Projects.setProjectStatus ProjectStatus.completed now p else p
  | NewStatus.rejected => p
  end.

Definition statusWritten (now matchId projectId : string)
           (status : NewStatus.t) (db : D1.D1Database) : D1.D1Database :=
  D1.mkDb (map (projectAfter now projectId status) (D1.projects db))
          (map (rowAfter now matchId projectId status) (D1.project_matches db))
          (D1.consultant_profiles db).

(** Consistency of the stored matches: ids are unique, every match has
    its parent project, and no project holds a [pending] match beside an
    [accepted] one. *)
Definition uniqueIds (db : D1.D1Database) : Prop :=
  NoDup (map ProjectMatch.id (D1.project_matches db)).

Definition parentsExist (db : D1.D1Database) : Prop :=
  forall m, In m (D1.project_matches db) ->
            In (ProjectMatch.project_id m) (map Project.id (D1.projects db)).

Definition noPendingBesideAccepted (db : D1.D1Database) : Prop :=
  forall m1 m2,
    In m1 (D1.project_matches db) -> In m2 (D1.project_matches db) ->
    ProjectMatch.project_id m1 = ProjectMatch.project_id m2 ->
    ProjectMatch.status m1 = MatchStatus.pending ->
    ProjectMatch.status m2 <> MatchStatus.accepted.

Definition consistent (db : D1.D1Database) : Prop :=
  uniqueIds db /\ parentsExist db /\ noPendingBesideAccepted db.

(** Any two accepted matches of one project are the same match. *)
Definition oneAccepted (db : D1.D1Database) : Prop :=
  forall m1 m2,
    In m1 (D1.project_matches db) -> In m2 (D1.project_matches db) ->
    ProjectMatch.project_id m1 = ProjectMatch.project_id m2 ->
    ProjectMatch.status m1 = MatchStatus.accepted ->
    ProjectMatch.status m2 = MatchStatus.accepted ->
    m1 = m2.

(** The discipline of section 4.5 for the transition to [accepted],
    which the code does not enforce: the match is [pending]. *)
Definition acceptsPendingOnly (op : Projects.Op) (db : D1.D1Database) : Prop :=
  match op with
  | Projects.UpdateMatchStatus _ matchId _ NewStatus.accepted =>
      forall m, In m (D1.project_matches db) ->
                ProjectMatch.id m = matchId ->
                ProjectMatch.status m = MatchStatus.pending
  | _ => True
  end.

(** The states reachable when every request to accept observes it. *)
Inductive reachableAcceptingPending : D1.D1Database -> Prop :=
| accepting_initial pool : reachableAcceptingPending (Projects.initial pool)
| accepting_step op db :
    reachableAcceptingPending db -> acceptsPendingOnly op db ->
    reachableAcceptingPending (Projects.exec op db).

(** The siblings of match [matchId] in project [projectId] that are
    accepted. *)
Definition acceptedSiblings (db : D1.D1Database) (projectId matchId : string)
  : list ProjectMatch.t :=
  filter (fun m => (ProjectMatch.project_id m =? projectId)%string
                   && negb (ProjectMatch.id m =? matchId)%string
                   && MatchStatus.eqb (ProjectMatch.status m)
                                      MatchStatus.accepted)
         (D1.project_matches db).

(** [projectStatus] on the table of projects. *)
Definition statusIn (ps : list Project.t) (projectId : string)
  : option ProjectStatus.t :=
  option_map Project.status
    (D1.first (filter (fun p => (Project.id p =? projectId)%string) ps)).

(** An entry whose score is a number. *)
Definition scored (m : Candidate.t) : Prop :=
  notNaN (Candidate.match_score m).

(** An entry comes from a consultant of the pool whose weighted score
    reached the threshold, and carries that score rounded. *)
Definition scoredFrom (projectKeywords : list string)
           (consultants : list ConsultantProfile.t) (m : Candidate.t) : Prop :=
  exists consultant,
    In consultant consultants
    /\ Candidate.consultant_id m = ConsultantProfile.id consultant
    /\ (0.3 <=? matchScore projectKeywords consultant)%float = true
    /\ Candidate.match_score m
       = round2 (matchScore projectKeywords consultant).

(** What every row of the insertion loop looks like. *)
Definition freshRow (project : Project.t) (projectKeywords : list string)
           (consultants : list ConsultantProfile.t) (row : ProjectMatch.t)
  : Prop :=
  ProjectMatch.project_id row = Project.id project
  /\ ProjectMatch.status row = MatchStatus.pending
  /\ ProjectMatch.proposal row = None
  /\ ProjectMatch.price row = None
  /\ exists consultant,
      In consultant consultants
      /\ ProjectMatch.consultant_id row = ConsultantProfile.id consultant
      /\ (0.3 <=? calculateExpertiseMatch
                    (ConsultantProfile.expertise consultant) projectKeywords
                  * 0.6
                  + calculateExperienceScore
                      (ConsultantProfile.experience_years consultant)
                    * 0.4)%float = true
      /\ ProjectMatch.match_score row
         = round2 (calculateExpertiseMatch
                     (ConsultantProfile.expertise consultant) projectKeywords
                   * 0.6
                   + calculateExperienceScore
                       (ConsultantProfile.experience_years consultant)
                     * 0.4)%float.

End Spec.

(** ** A scenario: one project, two consultants *)

Module Scenario.
Import D1 Projects.
Local Open Scope string_scope.

(** Two consultants; the text of the project names the expertise of the
    first one, and both have the experience to pass the threshold. *)
Definition pool : list ConsultantProfile.t :=
  [ConsultantProfile.mk "c1" ["Energy"] 12;
   ConsultantProfile.mk "c2" [] 8].

(** At creation [nanoid()] returns ["P"], then ["A"], then ["B"]. *)
Definition envCreate : Env.t :=
  Env.mk (fun i => match i with 0 => "P" | 1 => "A" | _ => "B" end)
         (fun _ => "2024-01-01T00:00:00.000Z").

Definition envLater : Env.t :=
  Env.mk (fun _ => "Z") (fun _ => "2024-01-02T00:00:00.000Z").

Definition audit : ProjectData.t :=
  ProjectData.mk "Audit" "energy audit" "report" None None.

(** A project whose text has no word of more than 3 characters. *)
Definition terse : Project.t :=
  Project.mk "Q" "sme" "ESG" "now" "a b" None None ProjectStatus.open
             "2024-01-01T00:00:00.000Z" "2024-01-01T00:00:00.000Z".

(** The project is created: matches ["A"] (consultant c1) and ["B"]
    (consultant c2) are pending. *)
Definition created : D1Database :=
  exec (CreateProject envCreate "sme" audit) (initial pool).

(** The owner accepts ["A"]: ["B"] is rejected by the cascade. *)
Definition acceptedA : D1Database :=
  exec (UpdateMatchStatus envLater "A" "sme" NewStatus.accepted) created.

(** The owner then accepts ["B"] as well. *)
Definition acceptedBoth : D1Database :=
  exec (UpdateMatchStatus envLater "B" "sme" NewStatus.accepted) acceptedA.

(** The row of match ["A"] once it is accepted. *)
Definition rowAccepted : ProjectMatch.t :=
  ProjectMatch.mk "A" "P" "c1" 0.56%float MatchStatus.accepted None None
                  "2024-01-01T00:00:00.000Z" "2024-01-02T00:00:00.000Z".

(** The owner cancels the project through [updateProject]. *)
Definition cancel : ProjectPatch.t :=
  ProjectPatch.mk None None None None None (Some ProjectStatus.cancelled).

End Scenario.


(** ** The read operations of [src/projects.ts] *)

(** The clauses of [SELECT] the read operations use.  A table is scanned
  in insertion order. *)
Module Sql.

(** [ORDER BY]: [precedes a b] tells that the key of [a] sorts strictly
    before the key of [b].  A row is placed after the rows that strictly
    precede it; rows with equal keys stay in the order of the scan (SQLite
    leaves that order open; no property below depends on it, except that
    the same query gives the same order each time). *)
Fixpoint orderInsert {A} (precedes : A -> A -> bool) (a : A) (sorted : list A)
  : list A :=
  match sorted with
  | [] => [a]
  | b :: rest =>
      if precedes b a then b :: orderInsert precedes a rest
      else a :: b :: rest
  end.

Fixpoint orderBy {A} (precedes : A -> A -> bool) (rows : list A) : list A :=
  match rows with
  | [] => []
  | a :: rest => orderInsert precedes a (orderBy precedes rest)
  end.


End Sql.

Module Queries.
Import D1 Projects Sql.
Local Open Scope string_scope.
Local Open Scope async_scope.

(** [getProject] *)
Definition getProject (projectId : string) : Async Project.t :=
  project <- select (fun db =>
    first (filter (fun p => Project.id p =? projectId) (projects db))) ;;
  match project with
  | None => throw "Project not found"
  | Some project => ret project
  end.

(** [ORDER BY match_score DESC] *)
Definition byMatchScoreDesc (a b : ProjectMatch.t) : bool :=
  (ProjectMatch.match_score b <? ProjectMatch.match_score a)%float.

(** [getProjectMatches] *)
Definition getProjectMatches (projectId smeId : string)
  : Async (list ProjectMatch.t) :=
  existingProject <- select (fun db =>
    first (filter (fun p => (Project.id p =? projectId)
                            && (Project.sme_id p =? smeId)) (projects db))) ;;
  match existingProject with
  | None =>
      throw "Project not found or you do not have permission to access it"
  | Some _ =>
      select (fun db =>
        orderBy byMatchScoreDesc
                (filter (fun m => ProjectMatch.project_id m =? projectId)
                        (project_matches db)))
  end.





(** What [listProjects] resolves to. *)
Module ProjectPage.
Record t := mk { projects : list Project.t; total : nat }.
End ProjectPage.


End Queries.

(** ** Further notions the properties are stated with *)

Module Notions.
Import JsNumber Matching D1 Projects Queries.

(** The row [createProject] inserts into [projects]. *)
Definition newProject (env : Env.t) (smeId : string)
           (projectData : ProjectData.t) : Project.t :=
  Project.mk (Env.nanoid env 0) smeId
             (ProjectData.title projectData)
             (ProjectData.description projectData)
             (ProjectData.requirements projectData)
             (ProjectData.budget projectData)
             (ProjectData.deadline projectData)
             ProjectStatus.open (Env.now env 0) (Env.now env 0).

(** The ranking [createProject] computes for its project. *)
Definition ranking (env : Env.t) (smeId : string)
           (projectData : ProjectData.t) (db : D1Database)
  : list Candidate.t :=
  topMatches (extractKeywords (projectText (newProject env smeId projectData)))
             (consultant_profiles db).

(** The ids [nanoid()] returns for the matches of a ranking of [k]
    entries. *)
Definition matchIds (env : Env.t) (i k : nat) : list string :=
  map (Env.nanoid env) (seq i k).

(** None of the ids is that of a stored match, and no two are the same. *)
Definition freshIds (ids : list string) (db : D1Database) : Prop :=
  NoDup ids
  /\ forall id, In id ids -> ~ In id (map ProjectMatch.id (project_matches db)).

(** The columns of a match that identify it and carry its score. *)
Definition sameIdentity (m m' : ProjectMatch.t) : Prop :=
  ProjectMatch.id m' = ProjectMatch.id m
  /\ ProjectMatch.project_id m' = ProjectMatch.project_id m
  /\ ProjectMatch.consultant_id m' = ProjectMatch.consultant_id m
  /\ ProjectMatch.match_score m' = ProjectMatch.match_score m
  /\ ProjectMatch.created_at m' = ProjectMatch.created_at m.

(** The ids of the stored projects are pairwise distinct. *)
Definition uniqueProjectIds (db : D1Database) : Prop :=
  NoDup (map Project.id (projects db)).

(** Every stored score is a number. *)
Definition scoresAreNumbers (db : D1Database) : Prop :=
  Forall (fun m => notNaN (ProjectMatch.match_score m)) (project_matches db).




End Notions.

(** ** More scenarios *)

Module Cases.
Import D1 Projects Scenario.
Local Open Scope string_scope.



(** The row of the match ["B"] as the creation stores it, and once it is
    rejected; the row of ["A"] with a proposal. *)
Definition rowB : ProjectMatch.t :=
  ProjectMatch.mk "B" "P" "c2" 0.32%float MatchStatus.pending None None
                  "2024-01-01T00:00:00.000Z" "2024-01-01T00:00:00.000Z".

Definition rowRejected : ProjectMatch.t :=
  ProjectMatch.mk "B" "P" "c2" 0.32%float MatchStatus.rejected None None
                  "2024-01-01T00:00:00.000Z" "2024-01-02T00:00:00.000Z".


(** A consultant whose one tag is the one keyword. *)
Definition specialist : ConsultantProfile.t :=
  ConsultantProfile.mk "c1" ["Energy"] 12.

(** A consultant without expertise tags. *)
Definition generalist : ConsultantProfile.t :=
  ConsultantProfile.mk "c2" [] 8.

End Cases.
(* ================================================================== *)
(** * Part II: properties *)
(* ================================================================== *)

(** ** Binary64 arithmetic: signs and order *)

(** Facts about the specification of the floating-point operations
  ([SpecFloat]), for the precision and exponent range of binary64. *)
Module SpecFloatFacts.
Import Spec.
Local Open Scope Z_scope.

Lemma digits2_size (p : positive) : digits2_pos p = Pos.size p.
Proof. induction p; simpl; congruence. Qed.

Lemma digits2_bounds (p : positive) :
  2 ^ (Z.pos (digits2_pos p) - 1) <= Z.pos p < 2 ^ Z.pos (digits2_pos p).
Proof.
  rewrite digits2_size. split.
  - pose proof (Pos.size_le p) as H.
    apply Pos2Z.pos_le_pos in H. rewrite Pos2Z.inj_pow in H.
    replace (Z.pos (Pos.size p)) with (Z.succ (Z.pos (Pos.size p) - 1)) in H by lia.
    rewrite Z.pow_succ_r in H by lia. lia.
  - pose proof (Pos.size_gt p) as H.
    apply Pos2Z.pos_lt_pos in H. now rewrite Pos2Z.inj_pow in H.
Qed.

Lemma shr_record_of_loc_m (m : Z) (l : location) :
  shr_m (shr_record_of_loc m l) = m.
Proof. destruct l as [|[]]; reflexivity. Qed.

Lemma shr_1_m (mrs : shr_record) :
  0 <= shr_m mrs -> shr_m (shr_1 mrs) = shr_m mrs / 2.
Proof.
  destruct mrs as [m r s]. simpl. intros Hm.
  destruct m as [|[p|p|]|p]; simpl; try lia;
    try (Z.div_mod_to_equations; lia).
Qed.

Lemma pow2_xO (p : positive) : 2 ^ Z.pos p~0 = 2 ^ Z.pos p * 2 ^ Z.pos p.
Proof. rewrite <- Z.pow_add_r by lia. f_equal. lia. Qed.

Lemma pow2_xI (p : positive) : 2 ^ Z.pos p~1 = 2 * (2 ^ Z.pos p * 2 ^ Z.pos p).
Proof.
  rewrite <- Z.pow_add_r, <- Z.pow_succ_r by lia. f_equal. lia.
Qed.

Lemma pow2_pos (n : Z) : 0 <= n -> 0 < 2 ^ n.
Proof. intros. apply Z.pow_pos_nonneg; lia. Qed.

Lemma iter_shr_1_m (p : positive) (mrs : shr_record) :
  0 <= shr_m mrs ->
  shr_m (iter_pos shr_1 p mrs) = shr_m mrs / 2 ^ Z.pos p.
Proof.
  revert mrs. induction p as [p IH|p IH|]; intros mrs Hm; simpl iter_pos.
  - assert (Hp : 0 < 2 ^ Z.pos p) by (apply pow2_pos; lia).
    assert (H1 : 0 <= shr_m (shr_1 mrs))
      by (rewrite shr_1_m by exact Hm; apply Z.div_pos; lia).
    assert (H2 : 0 <= shr_m (iter_pos shr_1 p (shr_1 mrs)))
      by (rewrite IH by exact H1; apply Z.div_pos; assumption).
    rewrite IH by exact H2. rewrite IH by exact H1. rewrite shr_1_m by exact Hm.
    rewrite !Z.div_div by lia.
    now rewrite pow2_xI, Z.mul_assoc.
  - assert (Hp : 0 < 2 ^ Z.pos p) by (apply pow2_pos; lia).
    assert (H2 : 0 <= shr_m (iter_pos shr_1 p mrs))
      by (rewrite IH by exact Hm; apply Z.div_pos; assumption).
    rewrite IH by exact H2. rewrite IH by exact Hm.
    rewrite !Z.div_div by lia.
    now rewrite pow2_xO.
  - now rewrite shr_1_m.
Qed.

(** Shifting a mantissa to its canonical exponent. *)
Lemma shr_fexp_nonneg (m e : Z) (l : location) :
  0 <= m -> 0 <= shr_m (fst (shr_fexp prec emax m e l)).
Proof.
  intros Hm. unfold shr_fexp, shr.
  destruct (fexp prec emax (Zdigits2 m + e) - e) as [|p|p]; simpl;
    rewrite ?iter_shr_1_m; rewrite ?shr_record_of_loc_m; try lia.
  apply Z.div_pos; [lia | apply pow2_pos; lia].
Qed.

Lemma shr_fexp_pos (m e : Z) (l : location) :
  0 < m -> SpecFloat.emin prec emax <= e ->
  0 < shr_m (fst (shr_fexp prec emax m e l))
  /\ SpecFloat.emin prec emax <= snd (shr_fexp prec emax m e l).
Proof.
  intros Hm He. unfold shr_fexp, shr.
  destruct (fexp prec emax (Zdigits2 m + e) - e) as [|p|p] eqn:Hn; simpl;
    rewrite ?shr_record_of_loc_m; try lia.
  rewrite iter_shr_1_m by (rewrite shr_record_of_loc_m; lia).
  rewrite shr_record_of_loc_m. split; [|lia].
  destruct m as [|q|q]; try lia. simpl Zdigits2 in Hn.
  pose proof (digits2_bounds q) as [Hlo _].
  apply Z.div_str_pos. split; [apply pow2_pos; lia|].
  apply Z.le_trans with (2 := Hlo).
  apply Z.pow_le_mono_r; [lia|].
  unfold fexp, SpecFloat.emin, prec, emax in *. lia.
Qed.

Lemma round_nearest_even_pos (m : Z) (l : location) :
  0 < m -> 0 < round_nearest_even m l.
Proof.
  intros Hm. destruct l as [|[]]; simpl; try destruct (Z.even m); lia.
Qed.

Lemma round_nearest_even_nonneg (m : Z) (l : location) :
  0 <= m -> 0 <= round_nearest_even m l.
Proof.
  intros Hm. destruct l as [|[]]; simpl; try destruct (Z.even m); lia.
Qed.

(** Rounding keeps the sign: a positive mantissa above the least exponent
    rounds to a positive number, a negative one never does, and a
    mantissa that is not negative never rounds to NaN. *)
Lemma binary_round_aux_pos (m e : Z) (l : location) :
  0 < m -> SpecFloat.emin prec emax <= e ->
  posSF (binary_round_aux prec emax false m e l) = true.
Proof.
  intros Hm He. unfold binary_round_aux.
  pose proof (shr_fexp_pos m e l Hm He) as [H1 H1'].
  destruct (shr_fexp prec emax m e l) as [mrs' e']. simpl in H1, H1'.
  pose proof (shr_fexp_pos _ e' loc_Exact
                (round_nearest_even_pos _ (loc_of_shr_record mrs') H1) H1')
    as [H2 _].
  destruct (shr_fexp prec emax _ e' loc_Exact) as [mrs'' e'']. simpl in H2.
  destruct (shr_m mrs''); try lia.
  now destruct (e'' <=? emax - prec).
Qed.

Lemma binary_round_aux_neg (m e : Z) (l : location) :
  posSF (binary_round_aux prec emax true m e l) = false.
Proof.
  unfold binary_round_aux.
  destruct (shr_fexp prec emax m e l) as [mrs' e'].
  destruct (shr_fexp prec emax _ e' loc_Exact) as [mrs'' e''].
  destruct (shr_m mrs''); try reflexivity.
  now destruct (e'' <=? emax - prec).
Qed.

Lemma binary_round_aux_notNaN (s : bool) (m e : Z) (l : location) :
  0 <= m -> binary_round_aux prec emax s m e l <> S754_nan.
Proof.
  intros Hm. unfold binary_round_aux.
  pose proof (shr_fexp_nonneg m e l Hm) as H1.
  destruct (shr_fexp prec emax m e l) as [mrs' e']. simpl in H1.
  pose proof (shr_fexp_nonneg _ e' loc_Exact
                (round_nearest_even_nonneg _ (loc_of_shr_record mrs') H1))
    as H2.
  destruct (shr_fexp prec emax _ e' loc_Exact) as [mrs'' e'']. simpl in H2.
  destruct (shr_m mrs''); try lia; try discriminate.
  now destruct (e'' <=? emax - prec).
Qed.

Lemma shl_align_value (m : positive) (e e' : Z) :
  e' <= e ->
  Z.pos (fst (shl_align m e e')) = Z.pos m * 2 ^ (e - e').
Proof.
  intros Hle. unfold shl_align.
  destruct (e' - e) as [|d|d] eqn:Hd; cbn [fst]; try lia.
  - replace (e - e') with 0 by lia. rewrite Z.pow_0_r. lia.
  - replace (e - e') with (Z.pos d) by lia.
    clear. induction d using Pos.peano_ind.
    + cbn [Pos.iter]. rewrite Z.pow_1_r. lia.
    + rewrite Pos.iter_succ, Pos2Z.inj_succ, Z.pow_succ_r by lia.
      rewrite Pos2Z.inj_xO, IHd. lia.
Qed.

Lemma binary_round_pos (m : positive) (e : Z) :
  SpecFloat.emin prec emax <= e ->
  posSF (binary_round prec emax false m e) = true.
Proof.
  intros He. unfold binary_round.
  destruct (shl_align m e _) as [mz ez] eqn:Hs.
  apply binary_round_aux_pos; [lia|].
  unfold shl_align in Hs.
  destruct (fexp prec emax (Z.pos (digits2_pos m) + e) - e) eqn:Hd;
    injection Hs as _ <-; try lia.
  unfold fexp, SpecFloat.emin, prec, emax in *. lia.
Qed.

Lemma binary_round_neg (m : positive) (e : Z) :
  posSF (binary_round prec emax true m e) = false.
Proof.
  unfold binary_round. destruct (shl_align m e _) as [mz ez].
  apply binary_round_aux_neg.
Qed.

Lemma binary_round_notNaN (s : bool) (m : positive) (e : Z) :
  binary_round prec emax s m e <> S754_nan.
Proof.
  unfold binary_round. destruct (shl_align m e _) as [mz ez].
  apply binary_round_aux_notNaN. lia.
Qed.

(** The sign of a normalized integer multiple of a power of two. *)
Lemma binary_normalize_pos (m e : Z) :
  SpecFloat.emin prec emax <= e ->
  posSF (binary_normalize prec emax m e false) = true <-> 0 < m.
Proof.
  intros He. destruct m as [|p|p]; simpl.
  - split; [discriminate | lia].
  - rewrite binary_round_pos by exact He. split; [lia | reflexivity].
  - rewrite binary_round_neg. split; [discriminate | lia].
Qed.

Lemma binary_normalize_notNaN (m e : Z) (s : bool) :
  binary_normalize prec emax m e s <> S754_nan.
Proof.
  destruct m; simpl; try discriminate; apply binary_round_notNaN.
Qed.


(** What validity says about a finite number. *)
Lemma bounded_range (m : positive) (e : Z) :
  bounded prec emax m e = true ->
  SpecFloat.emin prec emax <= e
  /\ Z.pos m < 2 ^ 53
  /\ (SpecFloat.emin prec emax < e -> 2 ^ 52 <= Z.pos m).
Proof.
  unfold bounded, canonical_mantissa. intros H.
  apply andb_true_iff in H as [H _]. apply Z.eqb_eq in H.
  pose proof (digits2_bounds m) as [Hlo Hhi].
  unfold fexp, SpecFloat.emin, prec, emax in *.
  split; [lia|]. split.
  - apply Z.lt_le_trans with (1 := Hhi).
    apply Z.pow_le_mono_r; lia.
  - intros He.
    replace (Z.pos (digits2_pos m) - 1) with 52 in Hlo by lia.
    exact Hlo.
Qed.

(** The order of two valid finite numbers, read off the difference of
    their mantissas once aligned to the smaller exponent. *)
Lemma finite_order (sx sy : bool) (mx my : positive) (ex ey : Z) :
  bounded prec emax mx ex = true ->
  bounded prec emax my ey = true ->
  let ez := Z.min ey ex in
  cond_Zopp sy (Z.pos (fst (shl_align my ey ez)))
  - cond_Zopp sx (Z.pos (fst (shl_align mx ex ez))) <= 0 ->
  SFleb (S754_finite sy my ey) (S754_finite sx mx ex) = true.
Proof.
  intros Hx Hy ez.
  rewrite !shl_align_value by (unfold ez; lia).
  intros H.
  apply bounded_range in Hx as [Hex [Hmx Hnx]].
  apply bounded_range in Hy as [Hey [Hmy Hny]].
  change (2 ^ 53) with 9007199254740992 in *.
  change (2 ^ 52) with 4503599627370496 in *.
  unfold SFleb, SFcompare.
  destruct (Z.compare_spec ey ex) as [He|He|He].
  - subst ey. replace (ex - ez) with 0 in H by (unfold ez; lia).
    rewrite Z.pow_0_r, !Z.mul_1_r in H.
    change (Pos.compare_cont Eq my mx) with (Pos.compare my mx).
    destruct sy, sx; unfold cond_Zopp in H; trivial;
      destruct (Pos.compare_spec my mx); simpl; trivial; lia.
  - replace (ey - ez) with 0 in H by (unfold ez; lia).
    rewrite Z.pow_0_r, Z.mul_1_r in H.
    assert (Hp : 2 ^ 1 <= 2 ^ (ex - ez))
      by (apply Z.pow_le_mono_r; unfold ez; lia).
    rewrite Z.pow_1_r in Hp.
    specialize (Hnx ltac:(lia)).
    assert (Hq : 4503599627370496 * 2 <= Z.pos mx * 2 ^ (ex - ez))
      by (apply Z.mul_le_mono_nonneg; lia).
    destruct sy, sx; unfold cond_Zopp in H; trivial; lia.
  - replace (ex - ez) with 0 in H by (unfold ez; lia).
    rewrite Z.pow_0_r, Z.mul_1_r in H.
    assert (Hp : 2 ^ 1 <= 2 ^ (ey - ez))
      by (apply Z.pow_le_mono_r; unfold ez; lia).
    rewrite Z.pow_1_r in Hp.
    specialize (Hny ltac:(lia)).
    assert (Hq : 4503599627370496 * 2 <= Z.pos my * 2 ^ (ey - ez))
      by (apply Z.mul_le_mono_nonneg; lia).
    destruct sy, sx; unfold cond_Zopp in H; trivial; lia.
Qed.

Lemma SFltb_zero (x : spec_float) :
  SFltb (S754_zero false) x = posSF x.
Proof. destruct x as [[]|[]| |[] m e]; reflexivity. Qed.

Lemma finite_emin (s : bool) (m : positive) (e : Z) :
  valid_binary (S754_finite s m e) = true -> SpecFloat.emin prec emax <= e.
Proof. intros H. apply bounded_range in H as [H _]. exact H. Qed.

(** When [y - x] is not positive, [y <= x]. *)
Lemma SFsub_not_pos (x y : spec_float) :
  valid_binary x = true -> valid_binary y = true ->
  x <> S754_nan -> y <> S754_nan ->
  posSF (SFsub prec emax y x) = false -> SFleb y x = true.
Proof.
  intros Vx Vy Nx Ny.
  destruct y as [sy|sy| |sy my ey], x as [sx|sx| |sx mx ex];
    try (exfalso; apply Nx; reflexivity);
    try (exfalso; apply Ny; reflexivity);
    lazymatch goal with
    | |- context [SFsub _ _ (S754_finite _ _ _) (S754_finite _ _ _)] => idtac
    | _ => destruct sx, sy; cbn; trivial; discriminate
    end.
  unfold SFsub. intros H.
  apply finite_order; trivial.
  pose proof (finite_emin _ _ _ Vx). pose proof (finite_emin _ _ _ Vy).
  match type of H with
  | posSF (binary_normalize _ _ ?d ?e _) = false =>
      destruct (Z.leb_spec d 0) as [Hd|Hd]; [exact Hd|];
      apply (binary_normalize_pos d e) in Hd; [congruence | lia]
  end.
Qed.

(** When [y - x] is positive, [x <= y]. *)
Lemma SFsub_pos (x y : spec_float) :
  valid_binary x = true -> valid_binary y = true ->
  posSF (SFsub prec emax y x) = true -> SFleb x y = true.
Proof.
  intros Vx Vy.
  destruct y as [sy|sy| |sy my ey], x as [sx|sx| |sx mx ex];
    lazymatch goal with
    | |- context [SFsub _ _ (S754_finite _ _ _) (S754_finite _ _ _)] => idtac
    | _ => try destruct sx; try destruct sy; cbn; trivial; discriminate
    end.
  unfold SFsub. intros H.
  pose proof (finite_emin _ _ _ Vx). pose proof (finite_emin _ _ _ Vy).
  apply binary_normalize_pos in H; [|lia].
  apply finite_order; trivial.
  rewrite (Z.min_comm ex ey). lia.
Qed.

End SpecFloatFacts.


(** The same for the primitive floats, through the axioms that tie each
  primitive operation to its specification. *)
Module FloatFacts.
Import JsNumber Matching Spec SpecFloatFacts.
Local Open Scope float_scope.

Lemma ltb_zero_sub (x y : float) :
  (0 <? y - x) = posSF (SFsub prec emax (Prim2SF y) (Prim2SF x)).
Proof.
  rewrite FloatAxioms.ltb_spec, FloatAxioms.sub_spec.
  change (Prim2SF 0) with (S754_zero false). apply SFltb_zero.
Qed.

(** The comparator of a descending sort: when [y - x] is not positive,
    [y <= x]; when it is positive, [x <= y]. *)
Lemma sub_not_pos_leb (x y : float) :
  notNaN x -> notNaN y -> (0 <? y - x) = false -> (y <=? x) = true.
Proof.
  unfold notNaN. intros Nx Ny H.
  rewrite ltb_zero_sub in H. rewrite FloatAxioms.leb_spec.
  apply SFsub_not_pos; trivial; apply Prim2SF_valid.
Qed.

Lemma sub_pos_leb (x y : float) :
  (0 <? y - x) = true -> (x <=? y) = true.
Proof.
  intros H. rewrite ltb_zero_sub in H. rewrite FloatAxioms.leb_spec.
  apply SFsub_pos; trivial; apply Prim2SF_valid.
Qed.

Lemma leb_notNaN_r (x y : float) : (x <=? y) = true -> notNaN y.
Proof.
  unfold notNaN. rewrite FloatAxioms.leb_spec. intros H Hy. rewrite Hy in H.
  unfold SFleb in H. destruct (Prim2SF x); discriminate.
Qed.

Lemma SFmul_notNaN (x : spec_float) (m : positive) (e : Z) :
  x <> S754_nan -> SFmul prec emax x (S754_finite false m e) <> S754_nan.
Proof.
  intros Hx. destruct x as [s|s| |s mx ex]; try discriminate.
  - now elim Hx.
  - unfold SFmul. apply binary_round_aux_notNaN. lia.
Qed.

Lemma SFdiv_notNaN (x : spec_float) (m : positive) (e : Z) :
  x <> S754_nan -> SFdiv prec emax x (S754_finite false m e) <> S754_nan.
Proof.
  intros Hx. destruct x as [s|s| |s mx ex]; try discriminate.
  - now elim Hx.
  - unfold SFdiv, SFdiv_core_binary.
    match goal with
    | |- context [Z.div_eucl ?a ?b] =>
        pose proof (Z.div_pos a b) as Hq; unfold Z.div in Hq;
        destruct (Z.div_eucl a b) as [q r]
    end.
    apply binary_round_aux_notNaN. apply Hq; [|lia].
    match goal with
    | |- (0 <= match ?s with _ => _ end)%Z =>
        destruct s; try lia
    end.
    apply Z.shiftl_nonneg. lia.
Qed.

Lemma ofZ_notNaN (z : Z) : notNaN (ofZ z).
Proof.
  unfold notNaN, ofZ. destruct (z <? 0)%Z.
  - rewrite FloatAxioms.opp_spec, FloatAxioms.of_uint63_spec.
    pose proof (binary_normalize_notNaN (to_Z (of_Z (- z))) 0 false) as H.
    destruct (binary_normalize prec emax _ 0 false); try discriminate.
    now elim H.
  - rewrite FloatAxioms.of_uint63_spec. apply binary_normalize_notNaN.
Qed.

Lemma Math_round_notNaN (x : float) : notNaN x -> notNaN (Math_round x).
Proof.
  unfold notNaN at 1. intros Hx. unfold Math_round.
  destruct (Prim2SF x) as [s|s| |s m e] eqn:E; unfold notNaN;
    try (rewrite E; discriminate).
  - now elim Hx.
  - destruct (0 <=? e)%Z; [rewrite E; discriminate|].
    match goal with |- context [(?n =? 0)%Z] => destruct (n =? 0)%Z end.
    + destruct s; vm_compute; discriminate.
    + apply ofZ_notNaN.
Qed.

(** A score that passed the threshold is rounded to a number. *)
Lemma round2_notNaN (score : float) :
  (0.3 <=? score) = true -> notNaN (round2 score).
Proof.
  intros H. apply leb_notNaN_r in H.
  unfold round2, notNaN. rewrite FloatAxioms.div_spec.
  change (Prim2SF 100) with (S754_finite false 7036874417766400 (-46)).
  apply SFdiv_notNaN. apply Math_round_notNaN.
  unfold notNaN. rewrite FloatAxioms.mul_spec.
  change (Prim2SF 100) with (S754_finite false 7036874417766400 (-46)).
  apply SFmul_notNaN. exact H.
Qed.
End FloatFacts.

(** ** The experience score *)

Module ExperienceFacts.
Import JsNumber Matching Spec.
Local Open Scope Z_scope.

(** The seven values the experience score can take. *)
Lemma calculateExperienceScore_cases (y : Z) :
  (y < 1 /\ calculateExperienceScore y = 0.3%float)
  \/ (1 <= y <= 2 /\ calculateExperienceScore y = 0.5%float)
  \/ (3 <= y <= 4 /\ calculateExperienceScore y = 0.6%float)
  \/ (5 <= y <= 6 /\ calculateExperienceScore y = 0.7%float)
  \/ (7 <= y <= 9 /\ calculateExperienceScore y = 0.8%float)
  \/ (10 <= y <= 14 /\ calculateExperienceScore y = 0.9%float)
  \/ (15 <= y /\ calculateExperienceScore y = 1.0%float).
Proof.
  unfold calculateExperienceScore.
  rewrite !Z.geb_leb.
  repeat match goal with
         | |- context [(?a <=? ?b)%Z] => destruct (Z.leb_spec a b)
         end;
    intuition lia.
Qed.

(** Case analysis over the brackets of the score of [y], the score
    replaced by its value in each. *)
Ltac score_cases y :=
  destruct (calculateExperienceScore_cases y)
    as [[? ->]|[[? ->]|[[? ->]|[[? ->]|[[? ->]|[[? ->]|[? ->]]]]]]].

(** C8: over the non-negative integer years the experience score is
    monotonically non-decreasing, lies in [0.3, 1.0], is 0.3 at 0 and
    1.0 at 20, and follows the step table (>= 15: 1.0, 10-14: 0.9,
    7-9: 0.8, 5-6: 0.7, 3-4: 0.6, 1-2: 0.5, 0: 0.3). *)
Theorem experienceScore_monotone_bounded (y1 y2 : Z) :
  0 <= y1 -> y1 <= y2 ->
  (calculateExperienceScore y1 <=? calculateExperienceScore y2)%float = true
  /\ (0.3 <=? calculateExperienceScore y1)%float = true
  /\ (calculateExperienceScore y1 <=? 1.0)%float = true
  /\ calculateExperienceScore 0 = 0.3%float
  /\ calculateExperienceScore 20 = 1.0%float
  /\ (15 <= y1 -> calculateExperienceScore y1 = 1.0%float)
  /\ (10 <= y1 <= 14 -> calculateExperienceScore y1 = 0.9%float)
  /\ (7 <= y1 <= 9 -> calculateExperienceScore y1 = 0.8%float)
  /\ (5 <= y1 <= 6 -> calculateExperienceScore y1 = 0.7%float)
  /\ (3 <= y1 <= 4 -> calculateExperienceScore y1 = 0.6%float)
  /\ (1 <= y1 <= 2 -> calculateExperienceScore y1 = 0.5%float)
  /\ (y1 = 0 -> calculateExperienceScore y1 = 0.3%float).
Proof.
  intros H0 Hle.
  split; [score_cases y1; score_cases y2; solve [reflexivity | lia]|].
  split; [score_cases y1; reflexivity|].
  split; [score_cases y1; reflexivity|].
  split; [reflexivity|]. split; [reflexivity|].
  score_cases y1; repeat split; intros; solve [reflexivity | lia].
Qed.

Lemma experienceScore_monotone_bounded_witness :
  (calculateExperienceScore 4 <=? calculateExperienceScore 12)%float = true
  /\ (0.3 <=? calculateExperienceScore 4)%float = true
  /\ (calculateExperienceScore 4 <=? 1.0)%float = true.
Proof.
  pose proof (experienceScore_monotone_bounded 4 12
                ltac:(lia) ltac:(lia)) as [H1 [H2 [H3 _]]].
  auto.
Defined.

End ExperienceFacts.

(** ** Strings: substrings, case mapping, splitting, sets *)

Module JsStringFacts.
Import JsString Spec.
Local Open Scope string_scope.

Lemma prefix_app (t s : string) :
  String.prefix t s = true <-> exists rest, s = t ++ rest.
Proof.
  revert s; induction t as [|c t IH]; intros s.
  - destruct s; simpl; split; eauto.
  - destruct s as [|d s]; simpl.
    + split; [discriminate | intros [rest H]; discriminate].
    + destruct (Ascii.ascii_dec c d) as [->|Hcd].
      * rewrite IH. split; intros [rest H]; exists rest.
        -- now rewrite H.
        -- now injection H.
      * split; [discriminate|].
        intros [rest H]. injection H as H1 H2. congruence.
Qed.

(** [includes] decides the substring relation. *)
Lemma includes_Substring (s t : string) :
  includes s t = true <-> Substring t s.
Proof.
  unfold Substring.
  induction s as [|c s IH].
  - cbn [includes]. rewrite orb_false_r, prefix_app. split.
    + intros [rest H]. exists "", rest. exact H.
    + intros [before [after H]].
      destruct before; [|discriminate]. simpl in H. eauto.
  - cbn [includes]. rewrite orb_true_iff, prefix_app, IH. split.
    + intros [[rest H]|[before [after H]]].
      * exists "", rest. exact H.
      * exists (String c before), after. simpl. now rewrite H.
    + intros [before [after H]]. destruct before as [|d before].
      * left. exists after. exact H.
      * right. simpl in H. injection H as _ H. eauto.
Qed.

Lemma includes_empty (s : string) : includes s "" = true.
Proof. apply includes_Substring. exists "", s. reflexivity. Qed.


Lemma allChars_app (p : ascii -> bool) (s t : string) :
  allChars p (s ++ t) = allChars p s && allChars p t.
Proof.
  induction s as [|c s IH]; simpl; [reflexivity|].
  now rewrite IH, andb_assoc.
Qed.



Lemma append_nil_r (s : string) : s ++ "" = s.
Proof. induction s as [|c s IH]; simpl; congruence. Qed.

Lemma append_assoc (a b c : string) : (a ++ b) ++ c = a ++ b ++ c.
Proof. induction a as [|x a IH]; simpl; congruence. Qed.

(** Two ways of cutting one string: one cut comes first. *)
Lemma append_eq_append (a b c d : string) :
  a ++ b = c ++ d ->
  exists l, (a = c ++ l /\ d = l ++ b) \/ (c = a ++ l /\ b = l ++ d).
Proof.
  revert c. induction a as [|x a IH]; intros c H.
  - exists c. right. auto.
  - destruct c as [|y c].
    + exists (String x a). left. auto.
    + simpl in H. injection H as -> H.
      destruct (IH c H) as [l [[-> ->]|[-> ->]]]; exists l; auto.
Qed.

Lemma lastChar_append (a b : string) :
  lastChar (a ++ b)
  = match b with EmptyString => lastChar a | _ => lastChar b end.
Proof.
  induction a as [|x a IH].
  - now destruct b.
  - destruct b as [|y b]; [now rewrite append_nil_r|].
    cbn [append lastChar]. rewrite IH.
    now destruct a.
Qed.

Lemma no_space_last (s : string) :
  allChars (fun c => negb (isSpace c)) s = true ->
  boundary (lastChar s) -> s = "".
Proof.
  induction s as [|c s IH]; [reflexivity|].
  cbn [allChars]. intros H Hb. apply andb_true_iff in H as [Hc Hs].
  destruct s as [|d s].
  - simpl in Hb. rewrite Hb in Hc. discriminate.
  - specialize (IH Hs Hb). discriminate.
Qed.

Lemma no_space_first (s : string) :
  allChars (fun c => negb (isSpace c)) s = true ->
  boundary (firstChar s) -> s = "".
Proof.
  destruct s as [|c s]; [reflexivity|].
  cbn [allChars firstChar boundary]. intros H Hb.
  apply andb_true_iff in H as [Hc _]. rewrite Hb in Hc. discriminate.
Qed.

(** A token of a text without white space is the text itself. *)
Lemma Token_no_space (w tok : string) :
  allChars (fun c => negb (isSpace c)) tok = true ->
  Token w tok <-> w <> "" /\ w = tok.
Proof.
  intros Htok. split.
  - intros [Hw [_ [before [after [Heq [Hb Ha]]]]]]. split; [exact Hw|].
    rewrite Heq, !allChars_app in Htok.
    apply andb_true_iff in Htok as [H1 H2].
    apply andb_true_iff in H2 as [_ H2].
    rewrite Heq, (no_space_last before H1 Hb), (no_space_first after H2 Ha).
    simpl. now rewrite append_nil_r.
  - intros [Hw ->]. split; [exact Hw|]. split; [exact Htok|].
    exists "", "". simpl. now rewrite append_nil_r.
Qed.

(** The tokens of a text that goes on with a white-space character after
    [tok]: [tok] itself, and the tokens of what follows. *)
Lemma Token_space (w tok r : string) (c : ascii) :
  allChars (fun c => negb (isSpace c)) tok = true ->
  isSpace c = true ->
  Token w (tok ++ String c r) <-> (w <> "" /\ w = tok) \/ Token w r.
Proof.
  intros Htok Hc. split.
  - intros [Hw [Hns [before [after [Heq [Hb Ha]]]]]].
    apply append_eq_append in Heq as [l [[Ht Hr]|[Hbf Hr]]].
    + (* the cut before [w] lies within [tok] *)
      rewrite Ht, allChars_app in Htok.
      apply andb_true_iff in Htok as [H1 H2].
      pose proof (no_space_last before H1 Hb) as ->. simpl in Ht. subst l.
      apply append_eq_append in Hr as [l [[Hw' Hr]|[Ht Hr]]].
      * destruct l as [|d l].
        -- left. rewrite append_nil_r in Hw'. auto.
        -- exfalso. simpl in Hr. injection Hr as -> _.
           rewrite Hw', allChars_app in Hns. simpl in Hns.
           rewrite Hc in Hns. simpl in Hns.
           now rewrite andb_false_r in Hns.
      * destruct l as [|d l].
        -- left. rewrite append_nil_r in Ht. auto.
        -- exfalso. rewrite Hr in Ha. simpl in Ha.
           rewrite Ht, allChars_app in H2. simpl in H2.
           rewrite Ha in H2. simpl in H2. now rewrite andb_false_r in H2.
    + (* the cut before [w] lies beyond [tok] *)
      destruct l as [|d l].
      * exfalso. simpl in Hr. destruct w as [|e w]; [now elim Hw|].
        simpl in Hr. injection Hr as <- _. simpl in Hns.
        rewrite Hc in Hns. discriminate.
      * right. simpl in Hr. injection Hr as <- Hr.
        split; [exact Hw|]. split; [exact Hns|].
        exists l, after. split; [exact Hr|]. split; [|exact Ha].
        rewrite Hbf, lastChar_append in Hb.
        destruct l as [|e l]; [exact I|]. exact Hb.
  - intros [[Hw ->]|[Hw [Hns [before [after [Heq [Hb Ha]]]]]]].
    + split; [exact Hw|]. split; [exact Htok|].
      exists "", (String c r). simpl. auto.
    + split; [exact Hw|]. split; [exact Hns|].
      exists (tok ++ String c before), after.
      split; [now rewrite Heq, append_assoc|]. split; [|exact Ha].
      rewrite lastChar_append.
      destruct before as [|e before]; [exact Hc | exact Hb].
Qed.

(** The pieces of a split that are not empty are the tokens of the
    text. *)
Lemma splitLoop_Token (s tok : string) (inRun : bool) (w : string) :
  allChars (fun c => negb (isSpace c)) tok = true ->
  (inRun = true -> tok = "") ->
  w <> "" ->
  In w (splitLoop s tok inRun) <-> Token w (tok ++ s).
Proof.
  revert tok inRun. induction s as [|c s IH]; intros tok inRun Htok Hrun Hw.
  - rewrite append_nil_r, (Token_no_space w tok Htok). simpl.
    split; [intros [<-|[]]; auto | intros [_ ->]; auto].
  - cbn [splitLoop]. destruct (isSpace c) eqn:Hc.
    + rewrite (Token_space w tok s c Htok Hc).
      assert (Hrest : In w (splitLoop s "" true) <-> Token w s)
        by (now apply (IH "" true)).
      destruct inRun.
      * rewrite (Hrun eq_refl), Hrest. intuition congruence.
      * simpl. rewrite Hrest. intuition congruence.
    + assert (Htok' : allChars (fun c => negb (isSpace c))
                               (tok ++ String c "") = true)
        by (rewrite allChars_app, Htok; simpl; now rewrite Hc).
      rewrite (IH (tok ++ String c "") false Htok' ltac:(discriminate) Hw).
      now rewrite append_assoc.
Qed.

Lemma splitSpaces_Token (s w : string) :
  w <> "" -> In w (splitSpaces s) <-> Token w s.
Proof.
  intros Hw. unfold splitSpaces.
  now rewrite (splitLoop_Token s "" false w eq_refl ltac:(discriminate) Hw).
Qed.

Lemma setHas_In (seen : list string) (w : string) :
  setHas seen w = true <-> In w seen.
Proof.
  unfold setHas. rewrite existsb_exists. split.
  - intros [x [Hx He]]. apply String.eqb_eq in He. now subst.
  - intros H. exists w. split; [exact H | apply String.eqb_refl].
Qed.

(** Spreading a [Set] keeps every element once. *)
Lemma fold_setAdd (words seen : list string) :
  NoDup seen ->
  NoDup (fold_left setAdd words seen)
  /\ forall w, In w (fold_left setAdd words seen) <-> In w seen \/ In w words.
Proof.
  revert seen; induction words as [|x words IH]; intros seen Hnd; simpl.
  - split; [exact Hnd | intuition].
  - unfold setAdd at 2 4. destruct (setHas seen x) eqn:Hx.
    + destruct (IH seen Hnd) as [H1 H2]. split; [exact H1|].
      intros w. rewrite H2. apply setHas_In in Hx.
      intuition (subst; auto).
    + assert (Hnd' : NoDup (seen ++ [x])).
      { apply NoDup_app; [exact Hnd | repeat constructor; intros [] |].
        intros a Ha [->|[]].
        apply setHas_In in Ha. congruence. }
      destruct (IH _ Hnd') as [H1 H2]. split; [exact H1|].
      intros w. rewrite H2, in_app_iff. simpl. intuition.
Qed.


Lemma spreadSet_In (words : list string) (w : string) :
  In w (spreadSet words) <-> In w words.
Proof.
  unfold spreadSet.
  destruct (fold_setAdd words [] (NoDup_nil _)) as [_ H].
  rewrite H. simpl. intuition.
Qed.

End JsStringFacts.

(** ** The keyword extractor *)

Module KeywordFacts.
Import JsString Matching Spec JsStringFacts.
Local Open Scope string_scope.

Lemma extractKeywords_In (text w : string) :
  In w (extractKeywords text)
  <-> In w (splitSpaces (stripNonWord (toLowerCase text)))
      /\ 4 <= String.length w.
Proof.
  unfold extractKeywords. rewrite spreadSet_In, filter_In.
  rewrite Nat.ltb_lt. intuition.
Qed.


End KeywordFacts.

(** ** The expertise matcher *)

Module ExpertiseFacts.
Import JsString JsNumber Matching Spec JsStringFacts.

(** The inner loop, with its [break], finds out whether some tag
    matches. *)
Lemma someTagMatches_matched (expertise : list string) (keyword : string) :
  someTagMatches (map toLowerCase expertise) keyword = matched expertise keyword.
Proof.
  unfold matched.
  induction expertise as [|tag rest IH]; simpl; [reflexivity|].
  rewrite IH.
  now destruct (includes (toLowerCase tag) keyword
                || includes keyword (toLowerCase tag)).
Qed.

Lemma matched_Matched (expertise : list string) (keyword : string) :
  matched expertise keyword = true <-> Matched expertise keyword.
Proof.
  unfold matched, Matched. rewrite existsb_exists.
  split; intros [tag [Hin H]]; exists tag; (split; [exact Hin|]).
  - apply orb_true_iff in H. now rewrite !includes_Substring in H.
  - apply orb_true_iff. now rewrite !includes_Substring.
Qed.

(** The outer loop adds one for each matched keyword. *)
Lemma countMatches_filter (expertise keywords : list string) (n : nat) :
  countMatches (map toLowerCase expertise) keywords n
  = n + List.length (filter (matched expertise) keywords).
Proof.
  revert n; induction keywords as [|k rest IH]; intros n; simpl.
  - lia.
  - rewrite IH, someTagMatches_matched.
    destruct (matched expertise k); simpl; lia.
Qed.


End ExpertiseFacts.

(** ** The match ranker: scoring loop, sort and truncation *)

Module RankingFacts.
Import JsNumber Matching Spec FloatFacts ExperienceFacts.

(** *** The stable sort *)

Lemma sortInsert_perm {A} (cmp : A -> A -> float) (a : A) (l : list A) :
  Permutation (sortInsert cmp a l) (a :: l).
Proof.
  induction l as [|b l IH]; simpl; [reflexivity|].
  destruct (0 <? cmp a b)%float; [|reflexivity].
  rewrite IH. apply perm_swap.
Qed.

Lemma sort_perm {A} (cmp : A -> A -> float) (l : list A) :
  Permutation (sort cmp l) l.
Proof.
  induction l as [|a l IH]; simpl; [reflexivity|].
  rewrite sortInsert_perm. now constructor.
Qed.

Lemma sortInsert_HdRel (a b : Candidate.t) (l : list Candidate.t) :
  descending b a -> HdRel descending b l ->
  HdRel descending b (sortInsert byScoreDesc a l).
Proof.
  intros Hba Hl. destruct l as [|c l]; simpl.
  - now constructor.
  - destruct (0 <? byScoreDesc a c)%float; constructor; trivial.
    now inversion Hl.
Qed.

Lemma sortInsert_sorted (a : Candidate.t) (l : list Candidate.t) :
  scored a -> Forall scored l ->
  Sorted descending l -> Sorted descending (sortInsert byScoreDesc a l).
Proof.
  intros Ha Hl Hs. induction Hs as [|b l Hs IH Hb]; simpl.
  - repeat constructor.
  - inversion Hl as [|? ? Hbs Hls]; subst.
    unfold byScoreDesc at 1.
    destruct (0 <? Candidate.match_score b - Candidate.match_score a)%float
             eqn:Hcmp.
    + constructor; [now apply IH|].
      apply sortInsert_HdRel; [|exact Hb].
      now apply sub_pos_leb.
    + constructor; [now constructor|]. constructor.
      now apply sub_not_pos_leb.
Qed.

Lemma sort_sorted (l : list Candidate.t) :
  Forall scored l -> Sorted descending (sort byScoreDesc l).
Proof.
  induction l as [|a l IH]; intros Hl; simpl; [constructor|].
  inversion Hl; subst.
  apply sortInsert_sorted; trivial; [|now apply IH].
  now rewrite sort_perm.
Qed.

Lemma Sorted_firstn {A} (R : A -> A -> Prop) (n : nat) (l : list A) :
  Sorted R l -> Sorted R (firstn n l).
Proof.
  revert l; induction n as [|n IH]; intros l Hs; simpl; [constructor|].
  destruct Hs as [|a l Hs Ha]; constructor; [now apply IH|].
  destruct Ha as [|b l Hab]; destruct n; simpl; now constructor.
Qed.

Lemma In_firstn {A} (n : nat) (l : list A) (x : A) :
  In x (firstn n l) -> In x l.
Proof.
  rewrite <- (firstn_skipn n l) at 2. rewrite in_app_iff. now left.
Qed.

(** *** The scoring loop *)

Lemma scoreConsultants_filter (projectKeywords : list string)
      (consultants : list ConsultantProfile.t) :
  scoreConsultants projectKeywords consultants
  = map (fun c => Candidate.mk (ConsultantProfile.id c)
                               (round2 (matchScore projectKeywords c)))
        (filter (fun c => (0.3 <=? matchScore projectKeywords c)%float)
                consultants).
Proof.
  induction consultants as [|c rest IH]; simpl; [reflexivity|].
  destruct (0.3 <=? matchScore projectKeywords c)%float; simpl; now rewrite IH.
Qed.

Lemma scoreConsultants_scoredFrom (projectKeywords : list string)
      (consultants : list ConsultantProfile.t) :
  Forall (scoredFrom projectKeywords consultants)
         (scoreConsultants projectKeywords consultants).
Proof.
  rewrite scoreConsultants_filter. apply Forall_forall. intros m Hm.
  apply in_map_iff in Hm as [c [<- Hc]].
  apply filter_In in Hc as [Hin Hc].
  exists c. auto.
Qed.

Lemma scoredFrom_scored (projectKeywords : list string)
      (consultants : list ConsultantProfile.t) (m : Candidate.t) :
  scoredFrom projectKeywords consultants m -> scored m.
Proof.
  intros [c [_ [_ [Hc Hm]]]]. unfold scored. rewrite Hm.
  now apply round2_notNaN.
Qed.

(** *** The retained entries *)

Lemma topMatches_In (projectKeywords : list string)
      (consultants : list ConsultantProfile.t) (m : Candidate.t) :
  In m (topMatches projectKeywords consultants) ->
  In m (scoreConsultants projectKeywords consultants).
Proof.
  unfold topMatches. intros H. apply In_firstn in H.
  now apply (Permutation_in _ (sort_perm _ _)) in H.
Qed.

Lemma topMatches_length (projectKeywords : list string)
      (consultants : list ConsultantProfile.t) :
  List.length (topMatches projectKeywords consultants) <= 10.
Proof. apply firstn_le_length. Qed.

Lemma topMatches_scoredFrom (projectKeywords : list string)
      (consultants : list ConsultantProfile.t) :
  Forall (scoredFrom projectKeywords consultants)
         (topMatches projectKeywords consultants).
Proof.
  apply Forall_forall. intros m Hm. apply topMatches_In in Hm.
  pose proof (scoreConsultants_scoredFrom projectKeywords consultants) as H.
  rewrite Forall_forall in H. now apply H.
Qed.

Lemma topMatches_sorted (projectKeywords : list string)
      (consultants : list ConsultantProfile.t) :
  Sorted descending (topMatches projectKeywords consultants).
Proof.
  apply Sorted_firstn, sort_sorted.
  eapply Forall_impl; [|apply scoreConsultants_scoredFrom].
  apply scoredFrom_scored.
Qed.

(** *** No keyword: the experience score alone decides *)

Lemma matchScore_no_keyword (c : ConsultantProfile.t) :
  matchScore [] c
  = (calculateExperienceScore (ConsultantProfile.experience_years c) * 0.4)%float
  /\ (0.3 <=? matchScore [] c)%float
     = (0.8 <=? calculateExperienceScore
                  (ConsultantProfile.experience_years c))%float
  /\ (0.3 <=? matchScore [] c)%float
     = (7 <=? ConsultantProfile.experience_years c)%Z.
Proof.
  unfold matchScore, calculateExpertiseMatch. simpl.
  score_cases (ConsultantProfile.experience_years c);
    (split; [reflexivity|]; split; [reflexivity|]);
    destruct (Z.leb_spec 7 (ConsultantProfile.experience_years c));
    solve [reflexivity | lia].
Qed.

(** C10: for a project whose text yields no keyword, the weighted score
    of a consultant is 0.4 times the experience score, it reaches the
    threshold 0.30 exactly when the experience score is at least 0.8,
    that is exactly when the consultant has at least 7 years of
    experience; so the scoring loop includes exactly the consultants with
    at least 7 years, and when at most 10 of them exist they are the
    retained entries. *)
Theorem no_keyword_inclusion (project : Project.t)
        (consultants : list ConsultantProfile.t) :
  extractKeywords (projectText project) = [] ->
  let projectKeywords := extractKeywords (projectText project) in
  let senior :=
    fun c => (7 <=? ConsultantProfile.experience_years c)%Z in
  (forall c,
      matchScore projectKeywords c
      = (calculateExperienceScore (ConsultantProfile.experience_years c)
         * 0.4)%float
      /\ (0.3 <=? matchScore projectKeywords c)%float
         = (0.8 <=? calculateExperienceScore
                      (ConsultantProfile.experience_years c))%float
      /\ ((0.3 <=? matchScore projectKeywords c)%float = true
          <-> (7 <= ConsultantProfile.experience_years c)%Z))
  /\ scoreConsultants projectKeywords consultants
     = map (fun c => Candidate.mk (ConsultantProfile.id c)
                                  (round2 (matchScore projectKeywords c)))
           (filter senior consultants)
  /\ (List.length (filter senior consultants) <= 10 ->
      forall consultantId,
        In consultantId
           (map Candidate.consultant_id (topMatches projectKeywords consultants))
        <-> exists c, In c consultants
                      /\ ConsultantProfile.id c = consultantId
                      /\ (7 <= ConsultantProfile.experience_years c)%Z).
Proof.
  intros Hk projectKeywords senior. subst projectKeywords. rewrite Hk.
  assert (Hfilter :
            scoreConsultants [] consultants
            = map (fun c => Candidate.mk (ConsultantProfile.id c)
                                         (round2 (matchScore [] c)))
                  (filter senior consultants)).
  { rewrite scoreConsultants_filter. f_equal. apply filter_ext.
    intros c. apply matchScore_no_keyword. }
  split; [|split; [exact Hfilter|]].
  - intros c. destruct (matchScore_no_keyword c) as [H1 [H2 H3]].
    split; [exact H1|]. split; [exact H2|].
    rewrite H3. apply Z.leb_le.
  - intros Hlen consultantId. unfold topMatches.
    rewrite firstn_all2.
    2:{ rewrite (Permutation_length (sort_perm _ _)), Hfilter.
        now rewrite length_map. }
    rewrite in_map_iff. split.
    + intros [m [<- Hm]].
      apply (Permutation_in _ (sort_perm _ _)) in Hm.
      rewrite Hfilter in Hm. apply in_map_iff in Hm as [c [<- Hc]].
      apply filter_In in Hc as [Hin Hc]. apply Z.leb_le in Hc.
      exists c. auto.
    + intros [c [Hin [<- Hc]]].
      exists (Candidate.mk (ConsultantProfile.id c) (round2 (matchScore [] c))).
      split; [reflexivity|].
      apply (Permutation_in _ (Permutation_sym (sort_perm _ _))).
      rewrite Hfilter. apply in_map_iff. exists c.
      split; [reflexivity|]. apply filter_In. split; [exact Hin|].
      now apply Z.leb_le.
Qed.

End RankingFacts.

(** ** Persisting the ranked matches at project creation *)

Module CreateFacts.
Import JsNumber Matching Spec D1 Projects FloatFacts RankingFacts.

Lemma filter_none {A} (f : A -> bool) (l : list A) :
  existsb f l = false -> filter f l = [].
Proof.
  induction l as [|a l IH]; simpl; [reflexivity|].
  destruct (f a); simpl; [discriminate | exact IH].
Qed.

(** A project inserted under a fresh id is the one a query by that id
    returns. *)
Lemma first_inserted (rows : list Project.t) (row : Project.t) :
  existsb (fun p => (Project.id p =? Project.id row)%string) rows = false ->
  first (filter (fun p => (Project.id p =? Project.id row)%string)
                (rows ++ [row]))
  = Some row.
Proof.
  intros H. rewrite filter_app, (filter_none _ _ H). simpl.
  now rewrite String.eqb_refl.
Qed.

(** The insertion loop appends the rows it was given, in order, up to the
    first id that is taken; it touches no other table. *)
Lemma insertMatches_rows (env : Env.t) (project : Project.t) (now : string)
      (top : list Candidate.t) :
  forall (i : nat) (db : D1Database),
  exists k,
    project_matches (fst (insertMatches env project now i top db))
    = project_matches db ++ firstn k (matchRows env project now i top)
    /\ projects (fst (insertMatches env project now i top db)) = projects db
    /\ consultant_profiles (fst (insertMatches env project now i top db))
       = consultant_profiles db
    /\ (snd (insertMatches env project now i top db) = Ok tt ->
        firstn k (matchRows env project now i top)
        = matchRows env project now i top).
Proof.
  induction top as [|m rest IH]; intros i db; simpl.
  - exists 0. simpl. rewrite app_nil_r. auto.
  - unfold bind, insertMatch.
    destruct (existsb _ (project_matches db)).
    + exists 0. simpl. rewrite app_nil_r.
      repeat split; trivial. discriminate.
    + destruct (IH (S i)
                   (setMatches
                      (fun rows =>
                         rows ++ [matchRow (Env.nanoid env i) project m now])
                      db))
        as [k [H1 [H2 [H3 H4]]]].
      exists (S k). simpl firstn.
      rewrite H1, H2, H3. simpl. rewrite <- app_assoc. simpl.
      repeat split; trivial.
      intros Hok. now rewrite (H4 Hok).
Qed.

Lemma matchRows_length (env : Env.t) (project : Project.t) (now : string)
      (top : list Candidate.t) (i : nat) :
  List.length (matchRows env project now i top) = List.length top.
Proof.
  revert i; induction top as [|m rest IH]; intros i; simpl; congruence.
Qed.

Lemma matchRows_consultants (env : Env.t) (project : Project.t)
      (now : string) (top : list Candidate.t) (i : nat) :
  map ProjectMatch.consultant_id (matchRows env project now i top)
  = map Candidate.consultant_id top.
Proof.
  revert i; induction top as [|m rest IH]; intros i; simpl;
    [reflexivity|]. now rewrite IH.
Qed.

Lemma matchRows_sorted (env : Env.t) (project : Project.t) (now : string)
      (top : list Candidate.t) (i : nat) :
  Sorted descending top ->
  Sorted rowsDescending (matchRows env project now i top).
Proof.
  intros Hs. revert i.
  induction Hs as [|a l Hs IH Ha]; intros i; simpl; constructor.
  - apply IH.
  - destruct Ha as [|b l Hab]; simpl; constructor. exact Hab.
Qed.

Lemma matchRows_fresh (env : Env.t) (project : Project.t) (now : string)
      (projectKeywords : list string)
      (consultants : list ConsultantProfile.t)
      (top : list Candidate.t) (i : nat) :
  Forall (scoredFrom projectKeywords consultants) top ->
  Forall (freshRow project projectKeywords consultants)
         (matchRows env project now i top).
Proof.
  intros H. revert i.
  induction H as [|m rest Hm _ IH]; intros i; simpl; constructor.
  - destruct Hm as [c [Hin [Hid [Hs Hr]]]].
    unfold freshRow, matchRow; simpl. repeat split; trivial.
    exists c. auto.
  - apply IH.
Qed.

Lemma Forall_firstn {A} (P : A -> Prop) (n : nat) (l : list A) :
  Forall P l -> Forall P (firstn n l).
Proof.
  intros H. apply Forall_forall. intros x Hx.
  rewrite Forall_forall in H. apply H. now apply In_firstn in Hx.
Qed.

(** What [generateProjectMatches] leaves in the database. *)
Lemma generateProjectMatches_rows (env : Env.t) (project : Project.t)
      (db : D1Database) :
  let projectKeywords := extractKeywords (projectText project) in
  let ranked := topMatches projectKeywords (consultant_profiles db) in
  exists rows,
    project_matches (fst (generateProjectMatches env project db))
    = project_matches db ++ rows
    /\ projects (fst (generateProjectMatches env project db)) = projects db
    /\ consultant_profiles (fst (generateProjectMatches env project db))
       = consultant_profiles db
    /\ List.length rows <= 10
    /\ Sorted rowsDescending rows
    /\ Forall (freshRow project projectKeywords (consultant_profiles db)) rows
    /\ (snd (generateProjectMatches env project db) = Ok tt ->
        map ProjectMatch.consultant_id rows
        = map Candidate.consultant_id ranked).
Proof.
  intros projectKeywords ranked.
  unfold generateProjectMatches, bind, select.
  destruct (insertMatches_rows env project (Env.now env 1) ranked 1 db)
    as [k [H1 [H2 [H3 H4]]]].
  fold projectKeywords. fold ranked.
  exists (firstn k (matchRows env project (Env.now env 1) 1 ranked)).
  repeat split; trivial.
  - rewrite length_firstn, matchRows_length.
    pose proof (topMatches_length projectKeywords (consultant_profiles db)).
    fold ranked in H. lia.
  - apply Sorted_firstn, matchRows_sorted, topMatches_sorted.
  - apply Forall_firstn, matchRows_fresh, topMatches_scoredFrom.
  - intros Hok. rewrite (H4 Hok). apply matchRows_consultants.
Qed.

(** C5: the list the ranking produces when a project is created has at
    most 10 entries, in descending order of score, each from a consultant
    of the pool whose combined score 0.6 x expertise score + 0.4 x
    experience score is at least 0.30 ([scoredFrom]); the rows persisted
    are at most 10, each carries the combined score (itself at least 0.30)
    rounded to two decimals, status [pending] and neither proposal nor
    price; they are stored in descending order of score; and when the
    creation succeeds they are all the entries of the ranking. *)
Theorem createProject_persists_ranking (env : Env.t) (smeId : string)
        (projectData : ProjectData.t) (db : D1Database) :
  let projectKeywords :=
    extractKeywords (ProjectData.title projectData ++ " "
                     ++ ProjectData.description projectData ++ " "
                     ++ ProjectData.requirements projectData)%string in
  let ranked := topMatches projectKeywords (consultant_profiles db) in
  let after := createProject env smeId projectData db in
  List.length ranked <= 10
  /\ Sorted descending ranked
  /\ Forall (scoredFrom projectKeywords (consultant_profiles db)) ranked
  /\ exists rows,
    project_matches (fst after) = project_matches db ++ rows
    /\ List.length rows <= 10
    /\ Sorted rowsDescending rows
    /\ Forall
         (fun row =>
            ProjectMatch.project_id row = Env.nanoid env 0
            /\ ProjectMatch.status row = MatchStatus.pending
            /\ ProjectMatch.proposal row = None
            /\ ProjectMatch.price row = None
            /\ exists consultant,
                In consultant (consultant_profiles db)
                /\ ProjectMatch.consultant_id row
                   = ConsultantProfile.id consultant
                /\ (0.3 <=? calculateExpertiseMatch
                              (ConsultantProfile.expertise consultant)
                              projectKeywords * 0.6
                            + calculateExperienceScore
                                (ConsultantProfile.experience_years consultant)
                              * 0.4)%float = true
                /\ ProjectMatch.match_score row
                   = round2 (calculateExpertiseMatch
                               (ConsultantProfile.expertise consultant)
                               projectKeywords * 0.6
                             + calculateExperienceScore
                                 (ConsultantProfile.experience_years consultant)
                               * 0.4)%float)
         rows
    /\ (forall project, snd after = Ok project ->
          map ProjectMatch.consultant_id rows
          = map Candidate.consultant_id ranked).
Proof.
  intros projectKeywords ranked after. subst after.
  split; [apply topMatches_length|].
  split; [apply topMatches_sorted|].
  split; [apply topMatches_scoredFrom|].
  unfold createProject, bind, insertProject.
  set (row := Project.mk (Env.nanoid env 0) smeId _ _ _ _ _ _ _ _).
  change (Env.nanoid env 0) with (Project.id row).
  destruct (existsb _ (projects db)) eqn:Hfresh.
  - exists []. cbn [fst snd]. rewrite app_nil_r.
    split; [reflexivity|]. split; [simpl; lia|].
    split; [constructor|]. split; [constructor|].
    intros project; discriminate.
  - set (db1 := setProjects _ db). unfold select.
    change (projects db1) with (projects db ++ [row]).
    rewrite (first_inserted _ _ Hfresh).
    destruct (generateProjectMatches_rows env row db1)
      as [rows [H1 [_ [_ [Hlen [Hsorted [Hfresh' Hall]]]]]]].
    exists rows.
    destruct (generateProjectMatches env row db1) as [db2 [[]|msg]];
      cbn [fst snd ret] in *; (split; [exact H1|]); (split; [exact Hlen|]);
      (split; [exact Hsorted|]);
      (split; [exact Hfresh' | intros project; try discriminate]).
    intros _. now apply Hall.
Qed.

End CreateFacts.

(** ** Rows and queries *)

Module TableFacts.
Import D1.


Lemma updateWhere_map {A B} (key : A -> B) (cond : A -> bool) (set : A -> A)
      (rows : list A) :
  (forall x, key (set x) = key x) ->
  map key (updateWhere cond set rows) = map key rows.
Proof.
  intros Hkey. unfold updateWhere. rewrite map_map. apply map_ext.
  intros x. now destruct (cond x).
Qed.


Lemma first_In {A} (rows : list A) (x : A) : first rows = Some x -> In x rows.
Proof. destruct rows; simpl; [discriminate|]. intros [= ->]. now left. Qed.

Lemma first_filter {A} (q : A -> bool) (rows : list A) (x : A) :
  first (filter q rows) = Some x -> In x rows /\ q x = true.
Proof. intros H. apply first_In in H. now apply filter_In in H. Qed.

Lemma first_filter_none {A} (q : A -> bool) (rows : list A) :
  first (filter q rows) = None -> forall x, In x rows -> q x = false.
Proof.
  intros H x Hx. destruct (q x) eqn:Hq; [|reflexivity].
  assert (Hin : In x (filter q rows)) by (apply filter_In; auto).
  destruct (filter q rows); [destruct Hin | discriminate].
Qed.

(** Under a key that repeats in no row, a query by key returns the row
    that holds the key. *)
Lemma filter_key {A} (key : A -> string) (rows : list A) (x : A) :
  NoDup (map key rows) -> In x rows ->
  filter (fun y => (key y =? key x)%string) rows = [x].
Proof.
  induction rows as [|y rows IH]; intros Hnd Hin; [destruct Hin|].
  simpl in Hnd. inversion Hnd as [|? ? Hy Hnd']; subst. simpl.
  destruct Hin as [->|Hin].
  - rewrite String.eqb_refl. f_equal.
    apply CreateFacts.filter_none. apply not_true_is_false.
    intros H. apply existsb_exists in H as [z [Hz Hk]].
    apply String.eqb_eq in Hk. apply Hy. rewrite <- Hk. now apply in_map.
  - destruct (String.eqb_spec (key y) (key x)) as [Hk|Hk].
    + exfalso. apply Hy. rewrite Hk. now apply in_map.
    + now apply IH.
Qed.

Lemma key_unique {A} (key : A -> string) (rows : list A) (x y : A) :
  NoDup (map key rows) -> In x rows -> In y rows -> key x = key y -> x = y.
Proof.
  intros Hnd Hx Hy Hk.
  pose proof (filter_key key rows y Hnd Hy) as H.
  assert (Hin : In x (filter (fun z => (key z =? key y)%string) rows)).
  { apply filter_In. split; [exact Hx|]. now apply String.eqb_eq. }
  rewrite H in Hin. destruct Hin as [<-|[]]. reflexivity.
Qed.

End TableFacts.

(** ** Submitting a proposal *)

Module ProposalFacts.
Import D1 Projects TableFacts.


(** The three ways [submitProposal] can go. *)
Lemma submitProposal_not_found (env : Env.t)
      (matchId consultantId proposal : string) (price : float)
      (db : D1Database) :
  first (filter (fun m => (ProjectMatch.id m =? matchId)%string
                          && (ProjectMatch.consultant_id m =? consultantId)%string)
                (project_matches db)) = None ->
  submitProposal env matchId consultantId proposal price db
  = (db, Thrown "Match not found or you do not have permission to submit a proposal").
Proof. intros H. unfold submitProposal, bind, select. now rewrite H. Qed.

Lemma submitProposal_not_pending (env : Env.t)
      (matchId consultantId proposal : string) (price : float)
      (db : D1Database) (m : ProjectMatch.t) :
  first (filter (fun m => (ProjectMatch.id m =? matchId)%string
                          && (ProjectMatch.consultant_id m =? consultantId)%string)
                (project_matches db)) = Some m ->
  MatchStatus.eqb (ProjectMatch.status m) MatchStatus.pending = false ->
  submitProposal env matchId consultantId proposal price db
  = (db, Thrown "Cannot submit proposal for a match that is not pending").
Proof.
  intros H Hst. unfold submitProposal, bind, select. now rewrite H, Hst.
Qed.



End ProposalFacts.

(** ** Changing the status of a match *)

Module StatusFacts.
Import D1 Projects Spec TableFacts.

Lemma map_id_ext {A} (f : A -> A) (l : list A) :
  (forall x, f x = x) -> map f l = l.
Proof. intros H. rewrite <- (map_id l) at 2. now apply map_ext. Qed.

(** The statements [updateMatchStatus] runs after it has found the match
    amount to [statusWritten]. *)
Lemma updateMatchStatus_found (env : Env.t) (matchId smeId : string)
      (status : NewStatus.t) (db : D1Database) (m : ProjectMatch.t) :
  first (filter (fun x => (ProjectMatch.id x =? matchId)%string
                          && ownedBy db smeId x) (project_matches db))
  = Some m ->
  let db' := statusWritten (Env.now env 0) matchId
                           (ProjectMatch.project_id m) status db in
  updateMatchStatus env matchId smeId status db
  = (db', match findMatch db' matchId with
          | Some updated => Ok updated
          | None => Thrown "Failed to update match"
          end).
Proof.
  intros H db'. unfold updateMatchStatus, bind at 1, select at 1.
  rewrite H.
  assert (Hdb : forall A (k : Async A),
             bind (run (setMatches
                     (updateWhere
                        (fun x => (ProjectMatch.id x =? matchId)%string)
                        (setMatchStatus (NewStatus.toStatus status)
                                        (Env.now env 0)))))
                  (fun _ =>
                     bind match status with
                          | NewStatus.accepted =>
                              bind (run (setProjects
                                (updateWhere
                                   (fun p => (Project.id p
                                              =? ProjectMatch.project_id m)%string)
                                   (setProjectStatus ProjectStatus.in_progress
                                                     (Env.now env 0)))))
                                (fun _ => run (setMatches
                                (updateWhere
                                   (fun x => (ProjectMatch.project_id x
                                              =? ProjectMatch.project_id m)%string
                                             && negb (ProjectMatch.id x
                                                      =? matchId)%string
                                             && MatchStatus.eqb
                                                  (ProjectMatch.status x)
                                                  MatchStatus.pending)
                                   (setMatchStatus MatchStatus.rejected
                                                   (Env.now env 0)))))
                          | _ => ret tt
                          end
                          (fun _ =>
                             bind match status with
                                  | NewStatus.completed =>
                                      run (setProjects
                                        (updateWhere
                                           (fun p => (Project.id p
                                                      =? ProjectMatch.project_id m)%string)
                                           (setProjectStatus
                                              ProjectStatus.completed
                                              (Env.now env 0))))
                                  | _ => ret tt
                                  end
                                  (fun _ => k))) db
             = k db').
  { intros A k. subst db'. unfold statusWritten, bind, run, ret.
    destruct db as [ps ms cs].
    destruct status; cbn [fst snd]; apply f_equal;
      unfold setMatches, setProjects;
      cbn [projects project_matches consultant_profiles]; f_equal.
    - unfold updateWhere. rewrite map_map. apply map_ext. intros x.
      unfold rowAfter.
      destruct (ProjectMatch.id x =? matchId)%string eqn:Hx;
        cbn [setMatchStatus ProjectMatch.id ProjectMatch.project_id
             ProjectMatch.status]; rewrite Hx; cbn [negb].
      + now rewrite andb_false_r.
      + now rewrite andb_true_r.
    - unfold projectAfter. symmetry. now apply map_id_ext. }
  rewrite Hdb. unfold bind, select, findMatch, ret, throw.
  destruct (first (filter _ (project_matches db'))); reflexivity.
Qed.

Lemma updateMatchStatus_not_found (env : Env.t) (matchId smeId : string)
      (status : NewStatus.t) (db : D1Database) :
  first (filter (fun x => (ProjectMatch.id x =? matchId)%string
                          && ownedBy db smeId x) (project_matches db))
  = None ->
  updateMatchStatus env matchId smeId status db
  = (db, Thrown "Match not found or you do not have permission to update it").
Proof. intros H. unfold updateMatchStatus, bind, select. now rewrite H. Qed.

Lemma filter_map_comm {A} (q : A -> bool) (g : A -> A) (l : list A) :
  (forall x, q (g x) = q x) -> filter q (map g l) = map g (filter q l).
Proof.
  intros H. induction l as [|x l IH]; simpl; [reflexivity|].
  rewrite H. destruct (q x); simpl; now rewrite IH.
Qed.

Lemma rowAfter_id (now matchId projectId : string) (status : NewStatus.t)
      (m : ProjectMatch.t) :
  ProjectMatch.id (rowAfter now matchId projectId status m)
  = ProjectMatch.id m.
Proof.
  unfold rowAfter. destruct (ProjectMatch.id m =? matchId)%string;
    [reflexivity|].
  destruct status; trivial. now destruct (_ && _).
Qed.

Lemma rowAfter_project_id (now matchId projectId : string)
      (status : NewStatus.t) (m : ProjectMatch.t) :
  ProjectMatch.project_id (rowAfter now matchId projectId status m)
  = ProjectMatch.project_id m.
Proof.
  unfold rowAfter. destruct (ProjectMatch.id m =? matchId)%string;
    [reflexivity|].
  destruct status; trivial. now destruct (_ && _).
Qed.

Lemma rowAfter_target (now matchId projectId : string) (status : NewStatus.t)
      (m : ProjectMatch.t) :
  ProjectMatch.id m = matchId ->
  rowAfter now matchId projectId status m
  = setMatchStatus (NewStatus.toStatus status) now m.
Proof.
  intros H. unfold rowAfter. now rewrite (proj2 (String.eqb_eq _ _) H).
Qed.

Lemma projectAfter_id (now projectId : string) (status : NewStatus.t)
      (p : Project.t) :
  Project.id (projectAfter now projectId status p) = Project.id p.
Proof.
  unfold projectAfter.
  destruct status; trivial; now destruct (Project.id p =? projectId)%string.
Qed.

(** The match the call names, read back after the call. *)
Lemma findMatch_statusWritten (now matchId projectId : string)
      (status : NewStatus.t) (db : D1Database) :
  findMatch (statusWritten now matchId projectId status db) matchId
  = option_map (setMatchStatus (NewStatus.toStatus status) now)
               (findMatch db matchId).
Proof.
  unfold findMatch, statusWritten. cbn [project_matches].
  rewrite filter_map_comm by (intros x; now rewrite rowAfter_id).
  destruct (filter _ (project_matches db)) as [|x l] eqn:Hf;
    [reflexivity|]. simpl. f_equal. apply rowAfter_target.
  assert (Hx : In x (filter (fun m => (ProjectMatch.id m =? matchId)%string)
                            (project_matches db)))
    by (rewrite Hf; now left).
  apply filter_In in Hx as [_ Hx]. now apply String.eqb_eq.
Qed.

(** C2, as the code has it: [updateMatchStatus] checks that the match
    exists under a project of the acting user and nothing else.  It
    succeeds iff such a match exists, whatever the status of the match
    before the call and whatever the status asked for; the match then has
    the status asked for.  When no such match exists it throws and leaves
    the database as it was. *)
Theorem updateMatchStatus_ignores_prior_status (env : Env.t)
        (matchId smeId : string) (status : NewStatus.t) (db : D1Database) :
  let after := updateMatchStatus env matchId smeId status db in
  ((exists updated, snd after = Ok updated)
   <-> exists m, In m (project_matches db)
                 /\ ProjectMatch.id m = matchId
                 /\ ownedBy db smeId m = true)
  /\ (forall m prior,
         In m (project_matches db) ->
         ProjectMatch.id m = matchId ->
         ownedBy db smeId m = true ->
         ProjectMatch.status m = prior ->
         exists updated, snd after = Ok updated)
  /\ (forall updated,
         snd after = Ok updated ->
         ProjectMatch.id updated = matchId
         /\ ProjectMatch.status updated = NewStatus.toStatus status
         /\ findMatch (fst after) matchId = Some updated)
  /\ (forall message, snd after = Thrown message -> fst after = db).
Proof.
  intros after.
  destruct (first (filter (fun x => (ProjectMatch.id x =? matchId)%string
                                    && ownedBy db smeId x)
                          (project_matches db))) as [m|] eqn:Hfirst.
  - pose proof (first_filter _ _ _ Hfirst) as [Hin Hm].
    apply andb_true_iff in Hm as [Hid Hown].
    unfold after. rewrite (updateMatchStatus_found env _ _ status _ _ Hfirst).
    cbn [fst snd]. rewrite findMatch_statusWritten.
    destruct (findMatch db matchId) as [m0|] eqn:Hm0.
    + cbn [option_map].
      apply first_filter in Hm0 as [_ Hid0]. apply String.eqb_eq in Hid0.
      split; [|split; [|split]].
      * split; [intros _; exists m | intros _; eauto].
        apply String.eqb_eq in Hid. auto.
      * intros; eauto.
      * intros updated [= <-]. auto.
      * discriminate.
    + exfalso. pose proof (first_filter_none _ _ Hm0 m Hin) as H.
      cbv beta in H. congruence.
  - unfold after. rewrite (updateMatchStatus_not_found env _ _ status _ Hfirst).
    cbn [fst snd].
    assert (Hnone : ~ exists m, In m (project_matches db)
                                /\ ProjectMatch.id m = matchId
                                /\ ownedBy db smeId m = true).
    { intros [m [Hin [Hid Hown]]].
      pose proof (first_filter_none _ _ Hfirst m Hin) as H.
      cbv beta in H. rewrite Hid, String.eqb_refl, Hown in H. discriminate. }
    split; [|split; [|split]].
    + split; [intros [updated H]; discriminate | intros H; now elim Hnone].
    + intros m prior Hin Hid Hown _. elim Hnone. eauto.
    + discriminate.
    + reflexivity.
Qed.

End StatusFacts.

(** ** What each core operation leaves behind *)

Module EffectFacts.
Import D1 Matching Projects Spec TableFacts CreateFacts ProposalFacts StatusFacts.

Lemma submitProposal_effect (env : Env.t)
      (matchId consultantId proposal : string) (price : float)
      (db : D1Database) :
  let db' := fst (submitProposal env matchId consultantId proposal price db) in
  db' = db
  \/ db' = setMatches
             (updateWhere (fun x => (ProjectMatch.id x =? matchId)%string)
                          (setProposal proposal price (Env.now env 0))) db.
Proof.
  unfold submitProposal, bind, select, run.
  destruct (first _); [|now left].
  destruct (negb _); [now left|]. right.
  now destruct (first _).
Qed.

Lemma updateMatchStatus_effect (env : Env.t) (matchId smeId : string)
      (status : NewStatus.t) (db : D1Database) :
  let db' := fst (updateMatchStatus env matchId smeId status db) in
  db' = db
  \/ exists m,
      In m (project_matches db)
      /\ ProjectMatch.id m = matchId
      /\ ownedBy db smeId m = true
      /\ db' = statusWritten (Env.now env 0) matchId
                             (ProjectMatch.project_id m) status db.
Proof.
  destruct (first (filter (fun x => (ProjectMatch.id x =? matchId)%string
                                    && ownedBy db smeId x)
                          (project_matches db))) as [m|] eqn:Hfirst.
  - right. exists m.
    pose proof (first_filter _ _ _ Hfirst) as [Hin Hm].
    apply andb_true_iff in Hm as [Hid Hown]. apply String.eqb_eq in Hid.
    cbv zeta. now rewrite (updateMatchStatus_found env _ _ status _ _ Hfirst).
  - left. cbv zeta.
    now rewrite (updateMatchStatus_not_found env _ _ status _ Hfirst).
Qed.

Lemma updateProject_effect (env : Env.t) (projectId smeId : string)
      (projectData : ProjectPatch.t) (db : D1Database) :
  let db' := fst (updateProject env projectId smeId projectData db) in
  db' = db
  \/ (exists p, In p (projects db)
                /\ Project.id p = projectId /\ Project.sme_id p = smeId)
     /\ db' = setProjects
                (updateWhere (fun p => (Project.id p =? projectId)%string)
                             (applyPatch projectData (Env.now env 0))) db.
Proof.
  unfold updateProject, bind, select, run.
  destruct (first _) as [p|] eqn:Hfirst; [|now left]. right.
  apply first_filter in Hfirst as [Hin Hp].
  apply andb_true_iff in Hp as [Hid Hsme].
  apply String.eqb_eq in Hid, Hsme.
  split; [eauto|]. now destruct (first _).
Qed.

Lemma deleteProject_effect (projectId smeId : string) (db : D1Database) :
  let db' := fst (deleteProject projectId smeId db) in
  db' = db
  \/ db' = mkDb (deleteWhere (fun p => (Project.id p =? projectId)%string)
                             (projects db))
                (deleteWhere (fun m => (ProjectMatch.project_id m
                                        =? projectId)%string)
                             (project_matches db))
                (consultant_profiles db).
Proof.
  unfold deleteProject, bind, select, run.
  destruct (first _); [now right | now left].
Qed.

(** The insertion loop keeps the match ids unique and inserts pending
    rows of the project only. *)
Lemma insertMatches_fresh (env : Env.t) (project : Project.t) (now : string)
      (top : list Candidate.t) :
  forall (i : nat) (db : D1Database),
    NoDup (map ProjectMatch.id (project_matches db)) ->
    NoDup (map ProjectMatch.id
               (project_matches (fst (insertMatches env project now i top db)))).
Proof.
  induction top as [|m rest IH]; intros i db Hnd; simpl; [exact Hnd|].
  unfold bind, insertMatch.
  destruct (existsb _ (project_matches db)) eqn:Hex; [exact Hnd|].
  apply IH. cbn [setMatches project_matches].
  rewrite map_app. simpl. apply NoDup_app; [exact Hnd | | ].
  - repeat constructor. intros [].
  - intros a Ha [<-|[]].
    apply in_map_iff in Ha as [x [Hx Hin]].
    apply not_true_iff_false in Hex. apply Hex.
    apply existsb_exists. exists x. split; [exact Hin|].
    now apply String.eqb_eq.
Qed.

Lemma createProject_effect (env : Env.t) (smeId : string)
      (projectData : ProjectData.t) (db : D1Database) :
  let db' := fst (createProject env smeId projectData db) in
  db' = db
  \/ exists row rows,
      ~ In (Project.id row) (map Project.id (projects db))
      /\ Project.status row = ProjectStatus.open
      /\ projects db' = projects db ++ [row]
      /\ project_matches db' = project_matches db ++ rows
      /\ consultant_profiles db' = consultant_profiles db
      /\ (uniqueIds db -> uniqueIds db')
      /\ Forall (fun r => ProjectMatch.project_id r = Project.id row
                          /\ ProjectMatch.status r = MatchStatus.pending)
                rows.
Proof.
  unfold createProject, bind, insertProject.
  set (row := Project.mk (Env.nanoid env 0) smeId _ _ _ _ _ _ _ _).
  change (Env.nanoid env 0) with (Project.id row).
  destruct (existsb _ (projects db)) eqn:Hfresh; [now left|]. right.
  set (db1 := setProjects _ db). unfold select.
  change (projects db1) with (projects db ++ [row]).
  rewrite (first_inserted _ _ Hfresh).
  destruct (generateProjectMatches_rows env row db1)
    as [rows [H1 [H2 [H3 [_ [_ [Hrows _]]]]]]].
  assert (Hnd : uniqueIds db ->
                uniqueIds (fst (generateProjectMatches env row db1))).
  { unfold uniqueIds, generateProjectMatches, bind, select.
    intros H. apply insertMatches_fresh. exact H. }
  exists row, rows.
  assert (Hnew : ~ In (Project.id row) (map Project.id (projects db))).
  { intros Hin. apply in_map_iff in Hin as [p [Hp Hin]].
    apply not_true_iff_false in Hfresh. apply Hfresh.
    apply existsb_exists. exists p. split; [exact Hin|].
    now apply String.eqb_eq. }
  assert (Hpend : Forall (fun r => ProjectMatch.project_id r = Project.id row
                                   /\ ProjectMatch.status r
                                      = MatchStatus.pending) rows).
  { eapply Forall_impl; [|exact Hrows]. intros r [Hp [Hs _]]. auto. }
  destruct (generateProjectMatches env row db1) as [db2 [[]|msg]];
    cbn [fst snd ret] in *; repeat split; trivial.
Qed.

End EffectFacts.

(** ** Consistency of the reachable states *)

Module InvariantFacts.
Import D1 Matching Projects Spec TableFacts StatusFacts EffectFacts.

Lemma consistent_initial (pool : list ConsultantProfile.t) :
  consistent (initial pool) /\ oneAccepted (initial pool).
Proof.
  split; [split; [|split]|].
  - constructor.
  - intros m [].
  - intros m1 m2 [].
  - intros m1 m2 [].
Qed.

(** Rewriting rows without touching id, parent or status, and projects
    without touching ids, keeps everything. *)
Lemma relabel_consistent (db db' : D1Database) (g : ProjectMatch.t -> ProjectMatch.t) :
  map Project.id (projects db') = map Project.id (projects db) ->
  project_matches db' = map g (project_matches db) ->
  (forall x, ProjectMatch.id (g x) = ProjectMatch.id x
             /\ ProjectMatch.project_id (g x) = ProjectMatch.project_id x
             /\ ProjectMatch.status (g x) = ProjectMatch.status x) ->
  (consistent db -> consistent db')
  /\ (oneAccepted db -> oneAccepted db').
Proof.
  intros Hp Hm Hg. split.
  - intros [Hids [Hpar Hpend]]. split; [|split].
    + unfold uniqueIds in *. rewrite Hm, map_map.
      erewrite map_ext; [exact Hids|]. intros x. apply Hg.
    + intros y Hy. rewrite Hm in Hy. apply in_map_iff in Hy as [x [<- Hx]].
      rewrite Hp. destruct (Hg x) as [_ [-> _]]. now apply Hpar.
    + intros y1 y2 H1 H2. rewrite Hm in H1, H2.
      apply in_map_iff in H1 as [x1 [<- H1]].
      apply in_map_iff in H2 as [x2 [<- H2]].
      destruct (Hg x1) as [_ [-> ->]]. destruct (Hg x2) as [_ [-> ->]].
      now apply Hpend.
  - intros Hone y1 y2 H1 H2. rewrite Hm in H1, H2.
    apply in_map_iff in H1 as [x1 [<- H1]].
    apply in_map_iff in H2 as [x2 [<- H2]].
    destruct (Hg x1) as [_ [-> ->]]. destruct (Hg x2) as [_ [-> ->]].
    intros. f_equal. now apply Hone.
Qed.

Lemma submitProposal_consistent (env : Env.t)
      (matchId consultantId proposal : string) (price : float)
      (db : D1Database) :
  let db' := fst (submitProposal env matchId consultantId proposal price db) in
  (consistent db -> consistent db') /\ (oneAccepted db -> oneAccepted db').
Proof.
  destruct (submitProposal_effect env matchId consultantId proposal price db)
    as [->| ->]; [now split|].
  apply relabel_consistent
    with (g := fun x => if (ProjectMatch.id x =? matchId)%string
                        then setProposal proposal price (Env.now env 0) x
                        else x);
    [reflexivity | reflexivity |].
  intros x. now destruct (ProjectMatch.id x =? matchId)%string.
Qed.

Lemma updateProject_consistent (env : Env.t) (projectId smeId : string)
      (projectData : ProjectPatch.t) (db : D1Database) :
  let db' := fst (updateProject env projectId smeId projectData db) in
  (consistent db -> consistent db') /\ (oneAccepted db -> oneAccepted db').
Proof.
  destruct (updateProject_effect env projectId smeId projectData db)
    as [->|[_ ->]]; [now split|].
  apply relabel_consistent with (g := fun x => x).
  - cbn [setProjects projects]. now apply updateWhere_map.
  - cbn [setProjects project_matches]. now rewrite map_id.
  - auto.
Qed.

Lemma deleteProject_consistent (projectId smeId : string) (db : D1Database) :
  let db' := fst (deleteProject projectId smeId db) in
  (consistent db -> consistent db') /\ (oneAccepted db -> oneAccepted db').
Proof.
  destruct (deleteProject_effect projectId smeId db) as [->| ->];
    [now split|].
  unfold deleteWhere. split.
  - intros [Hids [Hpar Hpend]]. split; [|split].
    + unfold uniqueIds in *. cbn [project_matches].
      clear - Hids. induction (project_matches db) as [|x l IH];
        simpl in *; [constructor|].
      inversion Hids as [|? ? Hx Hl]; subst.
      destruct (negb _); simpl; auto.
      constructor; auto.
      intros Hin. apply Hx. apply in_map_iff in Hin as [y [Hy Hin]].
      apply filter_In in Hin as [Hin _]. rewrite <- Hy. now apply in_map.
    + intros m Hm. cbn [project_matches projects] in *.
      apply filter_In in Hm as [Hm Hne].
      specialize (Hpar m Hm). apply in_map_iff in Hpar as [p [Hp Hin]].
      apply in_map_iff. exists p. split; [exact Hp|].
      apply filter_In. split; [exact Hin|]. now rewrite Hp.
    + intros m1 m2 H1 H2. cbn [project_matches] in *.
      apply filter_In in H1 as [H1 _]. apply filter_In in H2 as [H2 _].
      now apply Hpend.
  - intros Hone m1 m2 H1 H2. cbn [project_matches] in *.
    apply filter_In in H1 as [H1 _]. apply filter_In in H2 as [H2 _].
    now apply Hone.
Qed.

Lemma createProject_consistent (env : Env.t) (smeId : string)
      (projectData : ProjectData.t) (db : D1Database) :
  let db' := fst (createProject env smeId projectData db) in
  (consistent db -> consistent db')
  /\ (consistent db -> oneAccepted db -> oneAccepted db').
Proof.
  destruct (createProject_effect env smeId projectData db)
    as [->|[row [rows [Hnew [_ [Hp [Hm [_ [Hnd Hrows]]]]]]]]]; [now split|].
  rewrite Forall_forall in Hrows.
  assert (Hold : consistent db ->
                 forall m r, In m (project_matches db) -> In r rows ->
                             ProjectMatch.project_id m
                             <> ProjectMatch.project_id r).
  { intros [_ [Hpar _]] m r Hin Hr Heq. apply Hnew.
    destruct (Hrows r Hr) as [<- _]. rewrite <- Heq. now apply Hpar. }
  split.
  - intros Hc. pose proof (Hold Hc) as Hne.
    destruct Hc as [Hids [Hpar Hpend]]. split; [|split].
    + now apply Hnd.
    + intros m Hin. rewrite Hm in Hin. rewrite Hp, map_app, in_app_iff.
      apply in_app_iff in Hin as [Hin|Hin].
      * left. now apply Hpar.
      * right. destruct (Hrows m Hin) as [-> _]. now left.
    + intros m1 m2 H1 H2 Heq Hst. rewrite Hm in H1, H2.
      apply in_app_iff in H1 as [H1|H1];
        apply in_app_iff in H2 as [H2|H2].
      * now apply (Hpend m1 m2).
      * destruct (Hrows m2 H2) as [_ ->]. discriminate.
      * exfalso. symmetry in Heq. now apply (Hne m2 m1).
      * destruct (Hrows m2 H2) as [_ ->]. discriminate.
  - intros Hc Hone m1 m2 H1 H2 Heq Hs1 Hs2. rewrite Hm in H1, H2.
    apply in_app_iff in H1 as [H1|H1].
    + apply in_app_iff in H2 as [H2|H2]; [now apply Hone|].
      destruct (Hrows m2 H2) as [_ Hs]. congruence.
    + destruct (Hrows m1 H1) as [_ Hs]. congruence.
Qed.

(** How [updateMatchStatus] moves the status of a row. *)
Lemma rowAfter_pending (now matchId projectId : string) (status : NewStatus.t)
      (x : ProjectMatch.t) :
  ProjectMatch.status (rowAfter now matchId projectId status x)
  = MatchStatus.pending ->
  ProjectMatch.status x = MatchStatus.pending
  /\ ProjectMatch.id x <> matchId
  /\ (status = NewStatus.accepted -> ProjectMatch.project_id x <> projectId).
Proof.
  unfold rowAfter.
  destruct (String.eqb_spec (ProjectMatch.id x) matchId) as [Hid|Hid].
  - now destruct status.
  - destruct status; try (intros H; repeat split; trivial; discriminate).
    destruct (String.eqb_spec (ProjectMatch.project_id x) projectId)
      as [Hp|Hp]; cbn [andb].
    + destruct (MatchStatus.eqb (ProjectMatch.status x) MatchStatus.pending)
               eqn:Hst; [discriminate|].
      intros H. rewrite H in Hst. discriminate.
    + intros H. auto.
Qed.

Lemma rowAfter_accepted (now matchId projectId : string)
      (status : NewStatus.t) (x : ProjectMatch.t) :
  ProjectMatch.status (rowAfter now matchId projectId status x)
  = MatchStatus.accepted ->
  (ProjectMatch.id x = matchId /\ status = NewStatus.accepted)
  \/ (ProjectMatch.id x <> matchId
      /\ ProjectMatch.status x = MatchStatus.accepted).
Proof.
  unfold rowAfter.
  destruct (String.eqb_spec (ProjectMatch.id x) matchId) as [Hid|Hid].
  - destruct status; try discriminate. auto.
  - destruct status; auto.
    destruct (_ && _); [discriminate | auto].
Qed.

Lemma statusWritten_consistent (now matchId : string) (status : NewStatus.t)
      (db : D1Database) (m : ProjectMatch.t) :
  In m (project_matches db) -> ProjectMatch.id m = matchId ->
  consistent db ->
  consistent (statusWritten now matchId (ProjectMatch.project_id m) status db).
Proof.
  intros Hin Hid [Hids [Hpar Hpend]]. split; [|split].
  - unfold uniqueIds, statusWritten. cbn [project_matches].
    rewrite map_map. erewrite map_ext; [exact Hids|].
    intros x. apply rowAfter_id.
  - intros y Hy. unfold statusWritten in *. cbn [project_matches projects] in *.
    apply in_map_iff in Hy as [x [<- Hx]].
    rewrite rowAfter_project_id, map_map.
    erewrite map_ext; [now apply Hpar|]. intros p. apply projectAfter_id.
  - intros y1 y2 H1 H2 Heq Hst Hacc.
    unfold statusWritten in H1, H2. cbn [project_matches] in H1, H2.
    apply in_map_iff in H1 as [x1 [<- H1]].
    apply in_map_iff in H2 as [x2 [<- H2]].
    rewrite !rowAfter_project_id in Heq.
    apply rowAfter_pending in Hst as [Hst [Hne Hproj]].
    apply rowAfter_accepted in Hacc as [[Hid2 ->]|[_ Hacc]].
    + assert (x2 = m)
        by (apply (key_unique ProjectMatch.id (project_matches db));
            trivial; congruence).
      subst x2. now apply Hproj.
    + now apply (Hpend x1 x2).
Qed.

Lemma statusWritten_oneAccepted (now matchId : string) (status : NewStatus.t)
      (db : D1Database) (m : ProjectMatch.t) :
  In m (project_matches db) -> ProjectMatch.id m = matchId ->
  consistent db -> oneAccepted db ->
  (status = NewStatus.accepted ->
   ProjectMatch.status m = MatchStatus.pending) ->
  oneAccepted (statusWritten now matchId (ProjectMatch.project_id m) status db).
Proof.
  intros Hin Hid [Hids [Hpar Hpend]] Hone Hguard y1 y2 H1 H2 Heq Ha1 Ha2.
  unfold statusWritten in H1, H2. cbn [project_matches] in H1, H2.
  apply in_map_iff in H1 as [x1 [<- H1]].
  apply in_map_iff in H2 as [x2 [<- H2]].
  rewrite !rowAfter_project_id in Heq.
  assert (Htarget : forall x, In x (project_matches db) ->
                              ProjectMatch.id x = matchId -> x = m).
  { intros x Hx Hxid.
    apply (key_unique ProjectMatch.id (project_matches db)); trivial;
      congruence. }
  apply rowAfter_accepted in Ha1 as [[Hid1 Hs]|[Hne1 Hacc1]];
    apply rowAfter_accepted in Ha2 as [[Hid2 Hs']|[Hne2 Hacc2]].
  - now rewrite (Htarget x1 H1 Hid1), (Htarget x2 H2 Hid2).
  - exfalso. rewrite (Htarget x1 H1 Hid1) in Heq.
    now apply (Hpend m x2 Hin H2 Heq (Hguard Hs)).
  - exfalso. rewrite (Htarget x2 H2 Hid2) in Heq. symmetry in Heq.
    now apply (Hpend m x1 Hin H1 Heq (Hguard Hs')).
  - f_equal. now apply Hone.
Qed.

(** Case analysis over the five core operations. *)
Ltac op_cases op :=
  destruct op as [env smeId projectData
                 |env matchId consultantId proposal price
                 |env matchId smeId status
                 |env projectId smeId projectData
                 |projectId smeId]; cbn [exec].

Lemma exec_consistent (op : Op) (db : D1Database) :
  consistent db -> consistent (exec op db).
Proof.
  op_cases op.
  - apply createProject_consistent.
  - apply submitProposal_consistent.
  - destruct (updateMatchStatus_effect env matchId smeId status db)
      as [->|[m [Hin [Hid [_ ->]]]]]; [trivial|].
    now apply statusWritten_consistent.
  - apply updateProject_consistent.
  - apply deleteProject_consistent.
Qed.

(** Every reachable state is consistent. *)
Lemma reachable_consistent (db : D1Database) :
  reachable db -> consistent db.
Proof.
  induction 1 as [pool|op db _ IH].
  - apply consistent_initial.
  - now apply exec_consistent.
Qed.

Lemma accepting_reachable (db : D1Database) :
  reachableAcceptingPending db -> reachable db.
Proof. induction 1; now constructor. Qed.

Lemma accepting_oneAccepted (db : D1Database) :
  reachableAcceptingPending db -> oneAccepted db.
Proof.
  induction 1 as [pool|op db Hr IH Hguard].
  - apply consistent_initial.
  - pose proof (reachable_consistent _ (accepting_reachable _ Hr)) as Hc.
    op_cases op.
    + now apply createProject_consistent.
    + now apply submitProposal_consistent.
    + destruct (updateMatchStatus_effect env matchId smeId status db)
        as [->|[m [Hin [Hid [_ ->]]]]]; [trivial|].
      apply statusWritten_oneAccepted; trivial.
      intros ->. now apply Hguard.
    + now apply updateProject_consistent.
    + now apply deleteProject_consistent.
Qed.

Lemma NoDup_filter_rows {A} (q : A -> bool) (l : list A) :
  NoDup l -> NoDup (filter q l).
Proof.
  induction 1 as [|x l Hx _ IH]; simpl; [constructor|].
  destruct (q x); [|exact IH]. constructor; [|exact IH].
  intros Hin. apply Hx. now apply filter_In in Hin.
Qed.

Lemma oneAccepted_count (db : D1Database) (projectId : string) :
  uniqueIds db -> oneAccepted db -> acceptedCount db projectId <= 1.
Proof.
  intros Hids Hone. unfold acceptedCount, withStatus, matchesOf.
  assert (Hnd : NoDup (filter (fun m => MatchStatus.eqb (ProjectMatch.status m)
                                                         MatchStatus.accepted)
                              (filter (fun m => (ProjectMatch.project_id m
                                                 =? projectId)%string)
                                      (project_matches db)))).
  { apply NoDup_filter_rows, NoDup_filter_rows.
    now apply NoDup_map_inv in Hids. }
  assert (Hsame : forall x y,
             In x (filter (fun m => MatchStatus.eqb (ProjectMatch.status m)
                                                     MatchStatus.accepted)
                          (filter (fun m => (ProjectMatch.project_id m
                                             =? projectId)%string)
                                  (project_matches db))) ->
             In y (filter (fun m => MatchStatus.eqb (ProjectMatch.status m)
                                                     MatchStatus.accepted)
                          (filter (fun m => (ProjectMatch.project_id m
                                             =? projectId)%string)
                                  (project_matches db))) ->
             x = y).
  { intros x y Hx Hy.
    apply filter_In in Hx as [Hx Hsx]. apply filter_In in Hx as [Hx Hpx].
    apply filter_In in Hy as [Hy Hsy]. apply filter_In in Hy as [Hy Hpy].
    apply String.eqb_eq in Hpx, Hpy.
    apply Hone; trivial; try congruence.
    - destruct (ProjectMatch.status x); simpl in Hsx; congruence.
    - destruct (ProjectMatch.status y); simpl in Hsy; congruence. }
  destruct (filter _ (filter _ (project_matches db))) as [|a [|b t]];
    simpl; try lia.
  exfalso. inversion Hnd as [|? ? Ha _]; subst. apply Ha.
  rewrite (Hsame a b); [now left | now left | right; now left].
Qed.

(** C3, as the code has it: as long as every request to accept a match
    names a [pending] match (the rule of section 4.5, which
    [updateMatchStatus] itself does not check), each project has at most
    one match with status [accepted] in every state the core operations
    reach. *)
Theorem at_most_one_accepted_when_accepting_pending (db : D1Database) :
  reachableAcceptingPending db ->
  forall projectId, acceptedCount db projectId <= 1.
Proof.
  intros Hr projectId. apply oneAccepted_count.
  - apply reachable_consistent. now apply accepting_reachable.
  - now apply accepting_oneAccepted.
Qed.

End InvariantFacts.

(** ** Accepting a match *)

Module AcceptFacts.
Import D1 Matching Projects Spec TableFacts StatusFacts EffectFacts
       InvariantFacts.

Lemma length_filter_map {A} (q1 q2 : A -> bool) (g : A -> A) (l : list A) :
  List.length (filter q2 (filter q1 (map g l)))
  = List.length (filter (fun x => q1 (g x) && q2 (g x)) l).
Proof.
  induction l as [|x l IH]; simpl; [reflexivity|].
  destruct (q1 (g x)); simpl; [|exact IH].
  destruct (q2 (g x)); simpl; now rewrite IH.
Qed.

Lemma length_filter_either {A} (a b : A -> bool) (l : list A) :
  (forall x, a x = true -> b x = false) ->
  List.length (filter (fun x => a x || b x) l)
  = List.length (filter a l) + List.length (filter b l).
Proof.
  intros H. induction l as [|x l IH]; simpl; [reflexivity|].
  destruct (a x) eqn:Ha; simpl.
  - rewrite (H x Ha). simpl. now rewrite IH.
  - destruct (b x); simpl; rewrite IH; lia.
Qed.

Lemma status_eqb_eq (s t : MatchStatus.t) :
  MatchStatus.eqb s t = true <-> s = t.
Proof. destruct s, t; simpl; split; congruence. Qed.

(** After the match [m] is accepted, the accepted matches of its
    project are [m] and the siblings that were accepted already. *)
Lemma acceptedCount_after_accept (now : string) (db : D1Database)
      (m : ProjectMatch.t) :
  uniqueIds db -> In m (project_matches db) ->
  acceptedCount (statusWritten now (ProjectMatch.id m)
                               (ProjectMatch.project_id m)
                               NewStatus.accepted db)
                (ProjectMatch.project_id m)
  = S (List.length (acceptedSiblings db (ProjectMatch.project_id m)
                                     (ProjectMatch.id m))).
Proof.
  intros Hids Hin.
  unfold acceptedCount, withStatus, matchesOf, statusWritten, acceptedSiblings.
  cbn [project_matches]. rewrite length_filter_map.
  rewrite (filter_ext_in _
             (fun x => (ProjectMatch.id x =? ProjectMatch.id m)%string
                       || ((ProjectMatch.project_id x
                            =? ProjectMatch.project_id m)%string
                           && negb (ProjectMatch.id x =? ProjectMatch.id m)%string
                           && MatchStatus.eqb (ProjectMatch.status x)
                                              MatchStatus.accepted))).
  - rewrite length_filter_either.
    + now rewrite (filter_key ProjectMatch.id _ m Hids Hin).
    + intros x ->. now rewrite andb_false_r.
  - intros x Hx. rewrite rowAfter_project_id. unfold rowAfter.
    destruct (String.eqb_spec (ProjectMatch.id x) (ProjectMatch.id m))
      as [Hid|Hid].
    + assert (x = m)
        by (apply (key_unique ProjectMatch.id (project_matches db)); trivial).
      subst x. cbn. now rewrite String.eqb_refl.
    + cbn [orb negb]. rewrite andb_true_r.
      destruct (ProjectMatch.project_id x =? ProjectMatch.project_id m)%string;
        [|reflexivity]. cbn [andb].
      destruct (MatchStatus.eqb (ProjectMatch.status x) MatchStatus.pending)
               eqn:Hst; [|reflexivity].
      apply status_eqb_eq in Hst. rewrite Hst. reflexivity.
Qed.

Lemma projectStatus_after_accept (now matchId : string) (db : D1Database)
      (smeId : string) (m : ProjectMatch.t) :
  ownedBy db smeId m = true ->
  projectStatus (statusWritten now matchId (ProjectMatch.project_id m)
                               NewStatus.accepted db)
                (ProjectMatch.project_id m)
  = Some ProjectStatus.in_progress.
Proof.
  intros Hown. unfold projectStatus, statusWritten. cbn [projects].
  rewrite filter_map_comm by (intros p; now rewrite projectAfter_id).
  unfold ownedBy in Hown. apply existsb_exists in Hown as [p [Hp Hown]].
  apply andb_true_iff in Hown as [Hid _].
  rewrite String.eqb_sym in Hid.
  assert (Hpin : In p (filter (fun q => (Project.id q
                                         =? ProjectMatch.project_id m)%string)
                              (projects db)))
    by (apply filter_In; auto).
  destruct (filter _ (projects db)) as [|p0 l] eqn:Hf; [destruct Hpin|].
  assert (Hp0 : In p0 (filter (fun q => (Project.id q
                                         =? ProjectMatch.project_id m)%string)
                              (projects db)))
    by (rewrite Hf; now left).
  apply filter_In in Hp0 as [_ Hp0].
  cbn. unfold projectAfter. now rewrite Hp0.
Qed.

(** C1, as the code has it: in every reachable state, after a successful
    [updateMatchStatus(m, owner, 'accepted')], [m] has status [accepted],
    every sibling of its project that was [pending] before has status
    [rejected], the project has status [in_progress], and the accepted
    matches of the project are [m] and the siblings that were accepted
    before the call; so exactly one match of the project is accepted
    whenever [m] was [pending] before the call. *)
Theorem accept_cascade (env : Env.t) (matchId smeId : string)
        (db : D1Database) (updated : ProjectMatch.t) :
  reachable db ->
  snd (updateMatchStatus env matchId smeId NewStatus.accepted db)
  = Ok updated ->
  let db' := fst (updateMatchStatus env matchId smeId NewStatus.accepted db) in
  let projectId := ProjectMatch.project_id updated in
  ProjectMatch.id updated = matchId
  /\ ProjectMatch.status updated = MatchStatus.accepted
  /\ (forall sibling,
         In sibling (project_matches db) ->
         ProjectMatch.project_id sibling = projectId ->
         ProjectMatch.id sibling <> matchId ->
         ProjectMatch.status sibling = MatchStatus.pending ->
         exists sibling',
           findMatch db' (ProjectMatch.id sibling) = Some sibling'
           /\ ProjectMatch.status sibling' = MatchStatus.rejected)
  /\ projectStatus db' projectId = Some ProjectStatus.in_progress
  /\ acceptedCount db' projectId
     = S (List.length (acceptedSiblings db projectId matchId))
  /\ (forall m, findMatch db matchId = Some m ->
                ProjectMatch.status m = MatchStatus.pending ->
                acceptedCount db' projectId = 1).
Proof.
  intros Hreach Hok db' projectId.
  pose proof (reachable_consistent db Hreach) as Hc.
  destruct (first (filter (fun x => (ProjectMatch.id x =? matchId)%string
                                    && ownedBy db smeId x)
                          (project_matches db))) as [m|] eqn:Hfirst.
  2:{ rewrite (updateMatchStatus_not_found env _ _ _ _ Hfirst) in Hok.
      discriminate. }
  pose proof (first_filter _ _ _ Hfirst) as [Hin Hm].
  apply andb_true_iff in Hm as [Hid Hown]. apply String.eqb_eq in Hid.
  assert (Hfind : findMatch db matchId = Some m).
  { unfold findMatch. subst matchId.
    now rewrite (filter_key ProjectMatch.id _ m (proj1 Hc) Hin). }
  subst db' projectId.
  rewrite (updateMatchStatus_found env _ _ NewStatus.accepted _ _ Hfirst)
    in Hok |- *.
  cbn [fst snd] in *. rewrite findMatch_statusWritten, Hfind in Hok.
  cbn [option_map NewStatus.toStatus] in Hok. injection Hok as <-.
  cbn [setMatchStatus ProjectMatch.project_id ProjectMatch.status
       ProjectMatch.id].
  pose proof (statusWritten_consistent (Env.now env 0) matchId
                NewStatus.accepted db m Hin Hid Hc) as [Hids' _].
  split; [exact Hid|]. split; [reflexivity|]. split; [|split; [|split]].
  - intros sibling Hsin Hproj Hne Hpend.
    exists (rowAfter (Env.now env 0) matchId (ProjectMatch.project_id m)
                     NewStatus.accepted sibling).
    split.
    + unfold findMatch.
      rewrite <- (rowAfter_id (Env.now env 0) matchId
                              (ProjectMatch.project_id m)
                              NewStatus.accepted sibling).
      rewrite (filter_key ProjectMatch.id _ _ Hids'); [reflexivity|].
      unfold statusWritten. cbn [project_matches]. now apply in_map.
    + unfold rowAfter.
      destruct (String.eqb_spec (ProjectMatch.id sibling) matchId);
        [contradiction|].
      rewrite Hproj, String.eqb_refl, Hpend. reflexivity.
  - now apply projectStatus_after_accept with (smeId := smeId).
  - subst matchId. apply acceptedCount_after_accept; [apply Hc | exact Hin].
  - intros m0 Hm0 Hpend. rewrite Hfind in Hm0. injection Hm0 as <-.
    subst matchId. rewrite acceptedCount_after_accept; [|apply Hc | exact Hin].
    f_equal.
    destruct (acceptedSiblings db (ProjectMatch.project_id m)
                               (ProjectMatch.id m)) as [|x l] eqn:Hf;
      [reflexivity|].
    exfalso.
    assert (Hx : In x (acceptedSiblings db (ProjectMatch.project_id m)
                                        (ProjectMatch.id m)))
      by (rewrite Hf; now left).
    unfold acceptedSiblings in Hx. apply filter_In in Hx as [Hx Hq].
    apply andb_true_iff in Hq as [Hq Hacc].
    apply andb_true_iff in Hq as [Hp _].
    apply String.eqb_eq in Hp. apply status_eqb_eq in Hacc.
    destruct Hc as [_ [_ Hnp]].
    now apply (Hnp m x Hin Hx (eq_sym Hp) Hpend).
Qed.

End AcceptFacts.

(** ** Who writes the status of a project *)

Module ProjectStatusFacts.
Import D1 Matching Projects Spec TableFacts StatusFacts EffectFacts.

Lemma statusIn_app (ps qs : list Project.t) (projectId : string)
      (s : ProjectStatus.t) :
  statusIn ps projectId = Some s -> statusIn (ps ++ qs) projectId = Some s.
Proof.
  unfold statusIn. rewrite filter_app.
  now destruct (filter _ ps).
Qed.

Lemma statusIn_map (h : Project.t -> Project.t) (ps : list Project.t)
      (projectId : string) :
  (forall p, Project.id (h p) = Project.id p) ->
  statusIn (map h ps) projectId
  = option_map (fun p => Project.status (h p))
               (first (filter (fun p => (Project.id p =? projectId)%string) ps)).
Proof.
  intros Hh. unfold statusIn.
  rewrite filter_map_comm by (intros p; now rewrite Hh).
  now destruct (filter _ ps).
Qed.

Lemma statusIn_delete (ps : list Project.t) (deleted projectId : string)
      (s' : ProjectStatus.t) :
  statusIn (deleteWhere (fun p => (Project.id p =? deleted)%string) ps)
           projectId = Some s' ->
  statusIn ps projectId = Some s'.
Proof.
  unfold statusIn, deleteWhere.
  induction ps as [|p ps IH]; simpl; [discriminate|].
  destruct (String.eqb_spec (Project.id p) deleted) as [Hd|Hd]; simpl.
  - destruct (String.eqb_spec (Project.id p) projectId) as [Hp|Hp];
      simpl; [|exact IH].
    intros H. exfalso. subst deleted. clear IH.
    destruct (filter _ (filter _ ps)) as [|q l] eqn:Hf; [discriminate|].
    assert (Hq : In q (q :: l)) by now left.
    rewrite <- Hf in Hq. apply filter_In in Hq as [Hq Hid].
    apply filter_In in Hq as [_ Hne]. apply String.eqb_eq in Hid.
    rewrite Hid, Hp, String.eqb_refl in Hne. discriminate.
  - destruct (Project.id p =? projectId)%string; simpl; [trivial | exact IH].
Qed.

Lemma first_filter_id (ps : list Project.t) (projectId : string)
      (p : Project.t) :
  first (filter (fun q => (Project.id q =? projectId)%string) ps) = Some p ->
  Project.id p = projectId.
Proof.
  intros H. apply first_filter in H as [_ H]. now apply String.eqb_eq.
Qed.

(** C4, as the code has it: a core operation changes the status of an
    existing project only when it is [updateMatchStatus] to [accepted] or
    [completed] on a match of the project (the status becomes
    [in_progress] or [completed]), or [updateProject] called by the owning
    SME with a status among the fields (the status becomes the one
    given); and [updateProject] with a status field does write it. *)
Theorem project_status_writers (op : Op) (db : D1Database) :
  (forall projectId s s',
      projectStatus db projectId = Some s ->
      projectStatus (exec op db) projectId = Some s' ->
      s <> s' ->
      (exists env matchId smeId m,
          op = UpdateMatchStatus env matchId smeId NewStatus.accepted
          /\ In m (project_matches db)
          /\ ProjectMatch.id m = matchId
          /\ ProjectMatch.project_id m = projectId
          /\ ownedBy db smeId m = true
          /\ s' = ProjectStatus.in_progress)
      \/ (exists env matchId smeId m,
             op = UpdateMatchStatus env matchId smeId NewStatus.completed
             /\ In m (project_matches db)
             /\ ProjectMatch.id m = matchId
             /\ ProjectMatch.project_id m = projectId
             /\ ownedBy db smeId m = true
             /\ s' = ProjectStatus.completed)
      \/ (exists env smeId projectData p,
             op = UpdateProject env projectId smeId projectData
             /\ In p (projects db)
             /\ Project.id p = projectId
             /\ Project.sme_id p = smeId
             /\ ProjectPatch.status projectData = Some s'))
  /\ (forall env projectId smeId projectData p s',
         op = UpdateProject env projectId smeId projectData ->
         In p (projects db) ->
         Project.id p = projectId ->
         Project.sme_id p = smeId ->
         ProjectPatch.status projectData = Some s' ->
         projectStatus (exec op db) projectId = Some s').
Proof.
  split.
  - intros projectId s s' Hs Hs' Hne.
    change (statusIn (projects db) projectId = Some s) in Hs.
    change (statusIn (projects (exec op db)) projectId = Some s') in Hs'.
    destruct op as [env smeId projectData
                   |env matchId consultantId proposal price
                   |env matchId smeId status
                   |env pid smeId projectData
                   |pid smeId]; cbn [exec] in Hs'.
    + exfalso.
      destruct (createProject_effect env smeId projectData db)
        as [Heq|[row [rows [_ [_ [Hp _]]]]]].
      * rewrite Heq in Hs'. congruence.
      * rewrite Hp, (statusIn_app _ _ _ _ Hs) in Hs'. congruence.
    + exfalso.
      destruct (submitProposal_effect env matchId consultantId proposal
                                      price db) as [Heq|Heq];
        rewrite Heq in Hs'; cbn [setMatches projects] in Hs'; congruence.
    + destruct (updateMatchStatus_effect env matchId smeId status db)
        as [Heq|[m [Hin [Hid [Hown Heq]]]]];
        rewrite Heq in Hs'; [congruence|].
      unfold statusWritten in Hs'. cbn [projects] in Hs'.
      rewrite statusIn_map in Hs' by (intros p; apply projectAfter_id).
      unfold statusIn in Hs.
      destruct (first (filter _ (projects db))) as [p0|] eqn:Hp0;
        [|discriminate].
      pose proof (first_filter_id _ _ _ Hp0) as Hpid.
      cbn [option_map] in Hs, Hs'. unfold projectAfter in Hs'.
      destruct status.
      * destruct (String.eqb_spec (Project.id p0) (ProjectMatch.project_id m));
          [|congruence].
        left. exists env, matchId, smeId, m.
        cbn in Hs'. repeat split; trivial; congruence.
      * congruence.
      * destruct (String.eqb_spec (Project.id p0) (ProjectMatch.project_id m));
          [|congruence].
        right. left. exists env, matchId, smeId, m.
        cbn in Hs'. repeat split; trivial; congruence.
    + destruct (updateProject_effect env pid smeId projectData db)
        as [Heq|[[p [Hin [Hid Hsme]]] Heq]];
        rewrite Heq in Hs'; [congruence|].
      cbn [setProjects projects] in Hs'. unfold updateWhere in Hs'.
      rewrite statusIn_map in Hs'
        by (intros q; now destruct (Project.id q =? pid)%string).
      unfold statusIn in Hs.
      destruct (first (filter _ (projects db))) as [p0|] eqn:Hp0;
        [|discriminate].
      pose proof (first_filter_id _ _ _ Hp0) as Hpid.
      cbn [option_map] in Hs, Hs'.
      destruct (String.eqb_spec (Project.id p0) pid) as [Hp|Hp];
        [|congruence].
      right. right. exists env, smeId, projectData, p.
      cbn in Hs'.
      destruct (ProjectPatch.status projectData) as [x|]; cbn in Hs';
        [|congruence].
      repeat split; trivial; congruence.
    + exfalso.
      destruct (deleteProject_effect pid smeId db) as [Heq|Heq];
        rewrite Heq in Hs'; [congruence|].
      cbn [projects] in Hs'. apply statusIn_delete in Hs'. congruence.
  - intros env projectId smeId projectData p s' -> Hin Hid Hsme Hst.
    cbn [exec]. unfold updateProject, bind, select, run.
    destruct (first (filter (fun q => (Project.id q =? projectId)%string
                                      && (Project.sme_id q =? smeId)%string)
                            (projects db))) as [q|] eqn:Hq.
    2:{ exfalso. pose proof (first_filter_none _ _ Hq p Hin) as H.
        cbv beta in H. rewrite Hid, Hsme, !String.eqb_refl in H.
        discriminate. }
    assert (Hfst : forall (r : D1Database * result Project.t) db1,
               r = (db1, snd r) -> fst r = db1) by (intros ? ? ->; reflexivity).
    match goal with
    | |- projectStatus (fst ?r) _ = _ =>
        replace (fst r)
          with (setProjects
                  (updateWhere (fun p => (Project.id p =? projectId)%string)
                               (applyPatch projectData (Env.now env 0))) db)
          by (now destruct (first (filter _ (projects (setProjects _ db)))))
    end.
    change (statusIn (updateWhere
                        (fun p => (Project.id p =? projectId)%string)
                        (applyPatch projectData (Env.now env 0)) (projects db))
                     projectId = Some s').
    unfold updateWhere.
    rewrite statusIn_map
      by (intros r; now destruct (Project.id r =? projectId)%string).
    assert (Hpin : In p (filter (fun q => (Project.id q =? projectId)%string)
                                (projects db)))
      by (apply filter_In; split; [exact Hin | now apply String.eqb_eq]).
    remember (filter (fun q => (Project.id q =? projectId)%string)
                     (projects db)) as found eqn:Hf.
    destruct found as [|p0 l]; [destruct Hpin|].
    assert (Hp0 : In p0 (filter (fun q => (Project.id q =? projectId)%string)
                                (projects db)))
      by (rewrite <- Hf; now left).
    apply filter_In in Hp0 as [_ Hp0].
    cbn. rewrite Hp0. cbn. now rewrite Hst.
Qed.

End ProjectStatusFacts.

(** ** The scenario: instances and the places where the code departs from
  the specification *)

Module ScenarioFacts.
Import D1 Matching Projects Spec Scenario.
Import ExperienceFacts RankingFacts ProposalFacts StatusFacts InvariantFacts
       AcceptFacts ProjectStatusFacts.
Local Open Scope string_scope.

(** The scenario of the specification: keywords carbon, footprint and
    manufacturing, one consultant with the tag "Carbon Footprint Analysis"
    and 12 years: two keywords of three match, the experience score is
    0.9, the entry is kept with score 0.76. *)
Example carbon_footprint_score :
  calculateExpertiseMatch ["Carbon Footprint Analysis"]
                          ["carbon"; "footprint"; "manufacturing"]
  = (JsNumber.ofNat 2 / JsNumber.ofNat 3)%float
  /\ scoreConsultants ["carbon"; "footprint"; "manufacturing"]
       [ConsultantProfile.mk "c" ["Carbon Footprint Analysis"] 12]
     = [Candidate.mk "c" 0.76%float].
Proof. split; vm_compute; reflexivity. Qed.

(** No experience and no overlap: 0.4 x 0.3 is below the threshold. *)
Example newcomer_excluded :
  scoreConsultants ["carbon"; "footprint"; "manufacturing"]
                   [ConsultantProfile.mk "c" ["Water"] 0] = [].
Proof. vm_compute. reflexivity. Qed.

(** The tag "it" lies within the keyword "digital". *)
Example short_tag_matches :
  calculateExpertiseMatch ["IT"] ["digital"] = 1%float.
Proof. vm_compute. reflexivity. Qed.

(** The rows of the scenario after the creation, in storage order. *)
Example created_rows :
  map (fun m => (ProjectMatch.id m, ProjectMatch.consultant_id m,
                 ProjectMatch.match_score m, ProjectMatch.status m))
      (project_matches created)
  = [("A", "c1", 0.56%float, MatchStatus.pending);
     ("B", "c2", 0.32%float, MatchStatus.pending)].
Proof. vm_compute. reflexivity. Qed.

Lemma created_reachable : reachable created.
Proof. unfold created. apply reach_step, reach_initial. Qed.

Lemma acceptedA_reachable : reachable acceptedA.
Proof. unfold acceptedA. apply reach_step, created_reachable. Qed.

Lemma created_ids : NoDup (map ProjectMatch.id (project_matches created)).
Proof.
  vm_compute. repeat constructor; simpl; intuition discriminate.
Qed.

(** The cascade on the scenario: accepting ["A"], which is pending,
    leaves one accepted match and the project in progress. *)
Lemma accept_cascade_witness :
  acceptedCount acceptedA "P" = 1
  /\ projectStatus acceptedA "P" = Some ProjectStatus.in_progress.
Proof.
  pose proof (accept_cascade envLater "A" "sme" created rowAccepted
                             created_reachable
                             ltac:(vm_compute; reflexivity)) as H.
  cbv zeta in H. destruct H as [_ [_ [_ [Hp [_ Hone]]]]].
  split; [|exact Hp].
  apply (Hone (ProjectMatch.mk "A" "P" "c1" 0.56%float MatchStatus.pending
                               None None "2024-01-01T00:00:00.000Z"
                               "2024-01-01T00:00:00.000Z"));
    vm_compute; reflexivity.
Defined.

(** C1 fails as stated: ["B"], rejected by the cascade, can be accepted
    afterwards; the call succeeds and the project then has two accepted
    matches. *)
Lemma accept_rejected_sibling_two_accepted :
  reachable acceptedA
  /\ (exists before,
         findMatch acceptedA "B" = Some before
         /\ ProjectMatch.project_id before = "P"
         /\ ProjectMatch.status before = MatchStatus.rejected)
  /\ (exists updated,
         snd (updateMatchStatus envLater "B" "sme" NewStatus.accepted
                                acceptedA) = Ok updated
         /\ ProjectMatch.project_id updated = "P")
  /\ acceptedCount
       (fst (updateMatchStatus envLater "B" "sme" NewStatus.accepted
                               acceptedA)) "P" = 2.
Proof.
  split; [exact acceptedA_reachable|].
  split; [eexists; split; [vm_compute; reflexivity | split; reflexivity]|].
  split; [eexists; split; [vm_compute; reflexivity | reflexivity]|].
  vm_compute. reflexivity.
Qed.

(** C2 fails as stated: completing a match that is still pending
    succeeds. *)
Lemma complete_pending_succeeds :
  reachable created
  /\ (exists before,
         findMatch created "B" = Some before
         /\ ProjectMatch.status before = MatchStatus.pending)
  /\ (exists updated,
         snd (updateMatchStatus envLater "B" "sme" NewStatus.completed
                                created) = Ok updated
         /\ ProjectMatch.status updated = MatchStatus.completed)
  /\ projectStatus
       (fst (updateMatchStatus envLater "B" "sme" NewStatus.completed
                               created)) "P"
     = Some ProjectStatus.completed.
Proof.
  split; [exact created_reachable|].
  split; [eexists; split; [vm_compute; reflexivity | reflexivity]|].
  split; [eexists; split; [vm_compute; reflexivity | reflexivity]|].
  vm_compute. reflexivity.
Qed.

Lemma acceptedA_accepting : reachableAcceptingPending acceptedA.
Proof.
  unfold acceptedA. apply accepting_step.
  - unfold created. apply accepting_step; [apply accepting_initial | exact I].
  - intros m Hin Hid. vm_compute in Hin.
    destruct Hin as [<-|[<-|[]]]; [reflexivity | discriminate].
Qed.

Lemma at_most_one_accepted_witness : acceptedCount acceptedA "P" <= 1.
Proof.
  exact (at_most_one_accepted_when_accepting_pending acceptedA
           acceptedA_accepting "P").
Defined.

(** C3 fails as stated: the state after accepting ["A"] and then ["B"]
    is reachable, and its project has two accepted matches. *)
Lemma two_accepted_reachable :
  reachable acceptedBoth /\ acceptedCount acceptedBoth "P" = 2.
Proof.
  split.
  - unfold acceptedBoth. apply reach_step, acceptedA_reachable.
  - vm_compute. reflexivity.
Qed.

(** C4 fails as stated: the owning SME changes the status of the project
    from [open] to [cancelled] through [updateProject]. *)
Lemma updateProject_writes_status :
  reachable created
  /\ projectStatus created "P" = Some ProjectStatus.open
  /\ (exists project,
         snd (updateProject envLater "P" "sme" cancel created) = Ok project
         /\ Project.sme_id project = "sme")
  /\ projectStatus (exec (UpdateProject envLater "P" "sme" cancel) created)
                   "P"
     = Some ProjectStatus.cancelled.
Proof.
  split; [exact created_reachable|].
  split; [vm_compute; reflexivity|].
  split; [eexists; split; [vm_compute; reflexivity | reflexivity]|].
  vm_compute. reflexivity.
Qed.


Lemma no_keyword_inclusion_witness :
  extractKeywords (projectText terse) = []
  /\ scoreConsultants (extractKeywords (projectText terse)) pool
     = map (fun c => Candidate.mk (ConsultantProfile.id c)
                       (round2 (matchScore
                                  (extractKeywords (projectText terse)) c)))
           (filter (fun c => (7 <=? ConsultantProfile.experience_years c)%Z)
                   pool).
Proof.
  split; [vm_compute; reflexivity|].
  pose proof (no_keyword_inclusion terse pool
                ltac:(vm_compute; reflexivity)) as H.
  cbv zeta in H. destruct H as [_ [H _]]. exact H.
Defined.

End ScenarioFacts.

(* ================================================================== *)
(** * Part III: further properties of the code *)
(* ================================================================== *)

(** ** Rows and keys *)

Module RowFacts.
Import D1 TableFacts.

Lemma existsb_key {A} (key : A -> string) (rows : list A) (k : string) :
  existsb (fun x => (key x =? k)%string) rows = true <-> In k (map key rows).
Proof.
  rewrite existsb_exists, in_map_iff. split.
  - intros [x [Hin Heq]]. exists x. split; [|exact Hin].
    now apply String.eqb_eq.
  - intros [x [Heq Hin]]. exists x. split; [exact Hin|].
    now apply String.eqb_eq.
Qed.

Lemma existsb_key_false {A} (key : A -> string) (rows : list A) (k : string) :
  existsb (fun x => (key x =? k)%string) rows = false <-> ~ In k (map key rows).
Proof.
  rewrite <- existsb_key. now rewrite not_true_iff_false.
Qed.

Lemma first_filter_found {A} (q : A -> bool) (rows : list A) :
  (exists x, first (filter q rows) = Some x)
  <-> exists x, In x rows /\ q x = true.
Proof.
  split.
  - intros [x Hx]. exists x. now apply first_filter.
  - intros [x [Hin Hq]].
    destruct (first (filter q rows)) as [y|] eqn:Hf; [now exists y|].
    rewrite (first_filter_none _ _ Hf x Hin) in Hq. discriminate.
Qed.

Lemma deleteWhere_In {A} (cond : A -> bool) (rows : list A) (x : A) :
  In x (deleteWhere cond rows) <-> In x rows /\ cond x = false.
Proof.
  unfold deleteWhere. rewrite filter_In, negb_true_iff. reflexivity.
Qed.

Lemma setMatches_nil (db : D1Database) :
  setMatches (fun rows => rows ++ []) db = db.
Proof.
  destruct db. unfold setMatches. simpl. now rewrite app_nil_r.
Qed.

End RowFacts.

(** ** Creating, updating, deleting and reading back a project *)

Module ProjectFacts.
Import D1 Matching Projects Queries Spec Notions.
Import TableFacts CreateFacts RowFacts.

(** *** The insertion loop *)

Lemma insertMatch_fresh (row : ProjectMatch.t) (db : D1Database) :
  ~ In (ProjectMatch.id row) (map ProjectMatch.id (project_matches db)) ->
  insertMatch row db = (setMatches (fun rows => rows ++ [row]) db, Ok tt).
Proof.
  intros H. apply existsb_key_false in H. unfold insertMatch.
  now rewrite H.
Qed.

Lemma insertMatch_taken (row : ProjectMatch.t) (db : D1Database) :
  In (ProjectMatch.id row) (map ProjectMatch.id (project_matches db)) ->
  insertMatch row db
  = (db, Thrown "UNIQUE constraint failed: project_matches.id").
Proof.
  intros H. apply existsb_key in H. unfold insertMatch.
  now rewrite H.
Qed.

Lemma freshIds_step (id : string) (ids : list string) (row : ProjectMatch.t)
      (db : D1Database) :
  ProjectMatch.id row = id ->
  freshIds (id :: ids) db ->
  freshIds ids (setMatches (fun rows => rows ++ [row]) db).
Proof.
  intros Hid [Hnd Hout]. apply NoDup_cons_iff in Hnd as [Hnew Hnd].
  split; [exact Hnd|].
  intros x Hx. cbn [setMatches project_matches].
  rewrite map_app, in_app_iff. simpl. intros [Hin|[Heq|[]]].
  - now apply (Hout x (or_intror Hx)).
  - apply Hnew. congruence.
Qed.

Lemma freshIds_back (id : string) (ids : list string) (row : ProjectMatch.t)
      (db : D1Database) :
  ProjectMatch.id row = id ->
  ~ In id (map ProjectMatch.id (project_matches db)) ->
  freshIds ids (setMatches (fun rows => rows ++ [row]) db) ->
  freshIds (id :: ids) db.
Proof.
  intros Hid Hnew [Hnd Hout].
  cbn [setMatches project_matches] in Hout.
  split.
  - constructor; [|exact Hnd].
    intros Hin. apply (Hout id Hin).
    rewrite map_app, in_app_iff. right. simpl. now left.
  - intros x [<-|Hx]; [exact Hnew|].
    intros Hin. apply (Hout x Hx).
    rewrite map_app, in_app_iff. now left.
Qed.

(** With fresh ids the loop inserts every row. *)
Lemma insertMatches_ok (env : Env.t) (project : Project.t) (now : string)
      (top : list Candidate.t) :
  forall (i : nat) (db : D1Database),
    freshIds (matchIds env i (List.length top)) db ->
    insertMatches env project now i top db
    = (setMatches (fun rows => rows ++ matchRows env project now i top) db,
       Ok tt).
Proof.
  induction top as [|m rest IH]; intros i db Hfresh; simpl.
  - unfold ret. now rewrite setMatches_nil.
  - unfold bind. cbn [List.length matchIds seq map] in Hfresh.
    rewrite insertMatch_fresh.
    2:{ destruct Hfresh as [_ Hout]. apply Hout. now left. }
    rewrite IH.
    2:{ eapply freshIds_step; [|exact Hfresh]. reflexivity. }
    unfold setMatches. cbn [projects project_matches consultant_profiles].
    now rewrite <- app_assoc.
Qed.

(** The loop settles without an error only if the ids were fresh. *)
Lemma insertMatches_ok_fresh (env : Env.t) (project : Project.t)
      (now : string) (top : list Candidate.t) :
  forall (i : nat) (db : D1Database),
    snd (insertMatches env project now i top db) = Ok tt ->
    freshIds (matchIds env i (List.length top)) db.
Proof.
  induction top as [|m rest IH]; intros i db Hok; simpl.
  - split; [constructor | intros x []].
  - simpl in Hok. unfold bind in Hok.
    destruct (in_dec string_dec (Env.nanoid env i)
                     (map ProjectMatch.id (project_matches db))) as [Hin|Hout].
    + rewrite insertMatch_taken in Hok by exact Hin. discriminate.
    + rewrite insertMatch_fresh in Hok by exact Hout.
      apply IH in Hok.
      eapply freshIds_back; [| exact Hout | exact Hok]. reflexivity.
Qed.

(** What the loop leaves behind in either case: the rows up to the first
    id that is taken, which were inserted under fresh ids. *)
Lemma insertMatches_outcome (env : Env.t) (project : Project.t)
      (now : string) (top : list Candidate.t) :
  forall (i : nat) (db : D1Database),
  exists k,
    fst (insertMatches env project now i top db)
    = setMatches
        (fun rows => rows ++ firstn k (matchRows env project now i top)) db
    /\ ((snd (insertMatches env project now i top db) = Ok tt
         /\ k = List.length top)
        \/ (snd (insertMatches env project now i top db)
            = Thrown "UNIQUE constraint failed: project_matches.id"
            /\ k < List.length top))
    /\ freshIds (map ProjectMatch.id
                     (firstn k (matchRows env project now i top))) db.
Proof.
  induction top as [|m rest IH]; intros i db; simpl.
  - exists 0. simpl. rewrite setMatches_nil.
    repeat split; auto. constructor.
  - unfold bind.
    destruct (in_dec string_dec (Env.nanoid env i)
                     (map ProjectMatch.id (project_matches db))) as [Hin|Hout].
    + rewrite insertMatch_taken by exact Hin.
      exists 0. simpl. rewrite setMatches_nil.
      split; [reflexivity|]. split.
      * right. split; [reflexivity | lia].
      * split; [constructor | intros x []].
    + rewrite insertMatch_fresh by exact Hout.
      destruct (IH (S i)
                   (setMatches
                      (fun rows =>
                         rows ++ [matchRow (Env.nanoid env i) project m now])
                      db))
        as [k [Hfst [Hsnd Hfresh]]].
      exists (S k). rewrite Hfst. split; [|split].
      * unfold setMatches.
        cbn [projects project_matches consultant_profiles firstn].
        now rewrite <- app_assoc.
      * destruct Hsnd as [[H1 H2]|[H1 H2]]; [left|right];
          (split; [exact H1 | lia]).
      * cbn [firstn map].
        eapply freshIds_back; [| exact Hout | exact Hfresh]. reflexivity.
Qed.

Lemma matchRows_pending (env : Env.t) (project : Project.t) (now : string)
      (top : list Candidate.t) :
  forall i,
    Forall (fun row => ProjectMatch.project_id row = Project.id project
                       /\ ProjectMatch.status row = MatchStatus.pending)
           (matchRows env project now i top).
Proof.
  induction top as [|m rest IH]; intros i; simpl; constructor; auto.
Qed.

(** *** [createProject] *)

Lemma createProject_taken (env : Env.t) (smeId : string)
      (projectData : ProjectData.t) (db : D1Database) :
  In (Env.nanoid env 0) (map Project.id (projects db)) ->
  createProject env smeId projectData db
  = (db, Thrown "UNIQUE constraint failed: projects.id").
Proof.
  intros H. apply existsb_key in H.
  unfold createProject, bind, insertProject. cbn [Project.id].
  now rewrite H.
Qed.

Lemma createProject_inserted (env : Env.t) (smeId : string)
      (projectData : ProjectData.t) (db : D1Database) :
  ~ In (Env.nanoid env 0) (map Project.id (projects db)) ->
  let row := newProject env smeId projectData in
  let inserted :=
    insertMatches env row (Env.now env 1) 1
                  (ranking env smeId projectData db)
                  (setProjects (fun rows => rows ++ [row]) db) in
  createProject env smeId projectData db
  = (fst inserted,
     match snd inserted with
     | Ok _ => Ok row
     | Thrown message => Thrown message
     end).
Proof.
  intros H row inserted. apply existsb_key_false in H.
  unfold createProject, bind, insertProject.
  fold (newProject env smeId projectData). fold row.
  change (Env.nanoid env 0) with (Project.id row) in *.
  rewrite H. unfold select.
  cbn [setProjects projects].
  rewrite (first_inserted _ _ H).
  unfold generateProjectMatches, bind, select.
  subst inserted. unfold ranking. fold row.
  change (consultant_profiles
            (setProjects (fun rows => rows ++ [row]) db))
    with (consultant_profiles db).
  destruct (insertMatches env row (Env.now env 1) 1 _ _)
    as [db2 [[]|message]]; reflexivity.
Qed.

(** With fresh ids [createProject] inserts the project and every row of
    its ranking; it settles with a project only with fresh ids. *)
Lemma createProject_fresh (env : Env.t) (smeId : string)
      (projectData : ProjectData.t) (db : D1Database) :
  ~ In (Env.nanoid env 0) (map Project.id (projects db)) ->
  freshIds (matchIds env 1 (List.length (ranking env smeId projectData db)))
           db ->
  createProject env smeId projectData db
  = (mkDb (projects db ++ [newProject env smeId projectData])
          (project_matches db
           ++ matchRows env (newProject env smeId projectData)
                        (Env.now env 1) 1 (ranking env smeId projectData db))
          (consultant_profiles db),
     Ok (newProject env smeId projectData)).
Proof.
  intros Hout Hfresh.
  rewrite (createProject_inserted _ _ _ _ Hout).
  rewrite insertMatches_ok by exact Hfresh. reflexivity.
Qed.

Lemma createProject_success (env : Env.t) (smeId : string)
      (projectData : ProjectData.t) (db : D1Database) (created : Project.t) :
  snd (createProject env smeId projectData db) = Ok created ->
  ~ In (Env.nanoid env 0) (map Project.id (projects db))
  /\ freshIds (matchIds env 1 (List.length (ranking env smeId projectData db)))
              db
  /\ created = newProject env smeId projectData.
Proof.
  intros Hc.
  destruct (in_dec string_dec (Env.nanoid env 0)
                   (map Project.id (projects db))) as [Hin|Hout].
  - rewrite (createProject_taken _ _ _ _ Hin) in Hc. discriminate.
  - rewrite (createProject_inserted _ _ _ _ Hout) in Hc. cbn [snd] in Hc.
    destruct (snd (insertMatches _ _ _ _ _ _)) as [[]|message] eqn:Hs;
      [|discriminate].
    apply insertMatches_ok_fresh in Hs.
    split; [exact Hout|]. split; [exact Hs|].
    injection Hc as <-. reflexivity.
Qed.



(** X3.  Whatever [createProject] does, it only appends: the rows stored
  before the call are still there, unchanged and in the same place, also
  when the call throws. *)
Theorem createProject_only_appends (env : Env.t) (smeId : string)
        (projectData : ProjectData.t) (db : D1Database) :
  let after := createProject env smeId projectData db in
  (exists added, projects (fst after) = projects db ++ added
                 /\ List.length added <= 1)
  /\ (exists rows,
         project_matches (fst after) = project_matches db ++ rows
         /\ List.length rows <= 10
         /\ Forall (fun row =>
                      ProjectMatch.project_id row = Env.nanoid env 0
                      /\ ProjectMatch.status row = MatchStatus.pending) rows)
  /\ consultant_profiles (fst after) = consultant_profiles db.
Proof.
  intros after. unfold after.
  destruct (in_dec string_dec (Env.nanoid env 0)
                   (map Project.id (projects db))) as [Hin|Hout].
  - rewrite (createProject_taken _ _ _ _ Hin). cbn [fst].
    split; [exists []|split; [exists []|reflexivity]];
      rewrite app_nil_r; simpl; repeat split; auto; lia.
  - rewrite (createProject_inserted _ _ _ _ Hout). cbn [fst].
    destruct (insertMatches_outcome env (newProject env smeId projectData)
                (Env.now env 1) (ranking env smeId projectData db) 1
                (setProjects
                   (fun rows => rows ++ [newProject env smeId projectData])
                   db))
      as [k [-> _]].
    cbn [setMatches setProjects projects project_matches consultant_profiles].
    split; [|split].
    + exists [newProject env smeId projectData]. simpl. auto.
    + eexists. split; [reflexivity|]. split.
      * rewrite length_firstn, matchRows_length.
        pose proof (RankingFacts.topMatches_length
                      (extractKeywords
                         (projectText (newProject env smeId projectData)))
                      (consultant_profiles db)).
        unfold ranking. lia.
      * apply Forall_firstn.
        apply (matchRows_pending env (newProject env smeId projectData)).
    + reflexivity.
Qed.

(** *** [deleteProject] *)

Lemma deleteProject_found (projectId smeId : string) (db : D1Database)
      (p : Project.t) :
  first (filter (fun p => (Project.id p =? projectId)%string
                          && (Project.sme_id p =? smeId)%string)
                (projects db)) = Some p ->
  deleteProject projectId smeId db
  = (mkDb (deleteWhere (fun p => (Project.id p =? projectId)%string)
                       (projects db))
          (deleteWhere (fun m => (ProjectMatch.project_id m =? projectId)%string)
                       (project_matches db))
          (consultant_profiles db), Ok true).
Proof.
  intros H. unfold deleteProject, bind, select. rewrite H. reflexivity.
Qed.

Lemma deleteProject_not_found (projectId smeId : string) (db : D1Database) :
  first (filter (fun p => (Project.id p =? projectId)%string
                          && (Project.sme_id p =? smeId)%string)
                (projects db)) = None ->
  deleteProject projectId smeId db
  = (db, Thrown "Project not found or you do not have permission to delete it").
Proof.
  intros H. unfold deleteProject, bind, select. rewrite H. reflexivity.
Qed.

Lemma owned_found (projectId smeId : string) (rows : list Project.t) :
  (exists p, first (filter (fun p => (Project.id p =? projectId)%string
                                     && (Project.sme_id p =? smeId)%string)
                           rows) = Some p)
  <-> exists p, In p rows
                /\ Project.id p = projectId /\ Project.sme_id p = smeId.
Proof.
  rewrite first_filter_found. split; intros [p [Hin H]]; exists p.
  - apply andb_true_iff in H as [H1 H2].
    apply String.eqb_eq in H1, H2. auto.
  - destruct H as [H1 H2]. split; [exact Hin|].
    apply andb_true_iff. split; now apply String.eqb_eq.
Qed.


(** *** [updateProject] *)

Lemma updateProject_not_found (env : Env.t) (projectId smeId : string)
      (projectData : ProjectPatch.t) (db : D1Database) :
  first (filter (fun p => (Project.id p =? projectId)%string
                          && (Project.sme_id p =? smeId)%string)
                (projects db)) = None ->
  updateProject env projectId smeId projectData db
  = (db, Thrown "Project not found or you do not have permission to update it").
Proof.
  intros H. unfold updateProject, bind, select. rewrite H. reflexivity.
Qed.

Lemma updateProject_written (env : Env.t) (projectId smeId : string)
      (projectData : ProjectPatch.t) (db : D1Database) (p : Project.t) :
  first (filter (fun p => (Project.id p =? projectId)%string
                          && (Project.sme_id p =? smeId)%string)
                (projects db)) = Some p ->
  let db' :=
    setProjects
      (updateWhere (fun p => (Project.id p =? projectId)%string)
                   (applyPatch projectData (Env.now env 0))) db in
  updateProject env projectId smeId projectData db
  = (db',
     match first (filter (fun p => (Project.id p =? projectId)%string)
                         (projects db')) with
     | Some updated => Ok updated
     | None => Thrown "Failed to update project"
     end).
Proof.
  intros H db'. unfold updateProject, bind, select, run. rewrite H.
  fold db'.
  destruct (first (filter (fun p => (Project.id p =? projectId)%string)
                          (projects db'))); reflexivity.
Qed.



(** *** [getProject] *)

Lemma getProject_found (projectId : string) (db : D1Database) (p : Project.t) :
  first (filter (fun p => (Project.id p =? projectId)%string) (projects db))
  = Some p ->
  getProject projectId db = (db, Ok p).
Proof.
  intros H. unfold getProject, bind, select. rewrite H. reflexivity.
Qed.

Lemma getProject_not_found (projectId : string) (db : D1Database) :
  first (filter (fun p => (Project.id p =? projectId)%string) (projects db))
  = None ->
  getProject projectId db = (db, Thrown "Project not found").
Proof.
  intros H. unfold getProject, bind, select. rewrite H. reflexivity.
Qed.

(** X6.  [getProject] reads back what the writing operations left: the
  project [createProject] returned, the project [updateProject] returned,
  and, after [deleteProject], nothing: it throws.  It asks for no owner,
  and it never changes the database. *)
Theorem getProject_reads_back (db : D1Database) :
  (forall env smeId projectData created,
      snd (createProject env smeId projectData db) = Ok created ->
      snd (getProject (Project.id created)
                      (fst (createProject env smeId projectData db)))
      = Ok created)
  /\ (forall env projectId smeId projectData updated,
         snd (updateProject env projectId smeId projectData db) = Ok updated ->
         snd (getProject projectId
                         (fst (updateProject env projectId smeId projectData db)))
         = Ok updated)
  /\ (forall projectId smeId,
         snd (deleteProject projectId smeId db) = Ok true ->
         snd (getProject projectId (fst (deleteProject projectId smeId db)))
         = Thrown "Project not found")
  /\ (forall projectId, fst (getProject projectId db) = db).
Proof.
  split; [|split; [|split]].
  - intros env smeId projectData created Hc.
    destruct (in_dec string_dec (Env.nanoid env 0)
                     (map Project.id (projects db))) as [Hin|Hout].
    { rewrite (createProject_taken _ _ _ _ Hin) in Hc. discriminate. }
    rewrite (createProject_inserted _ _ _ _ Hout) in Hc |- *.
    cbn [fst snd] in *.
    destruct (insertMatches_outcome env (newProject env smeId projectData)
                (Env.now env 1) (ranking env smeId projectData db) 1
                (setProjects
                   (fun rows => rows ++ [newProject env smeId projectData])
                   db))
      as [k [Hfst _]].
    destruct (snd (insertMatches _ _ _ _ _ _)) as [[]|message];
      [|discriminate].
    injection Hc as <-.
    rewrite (getProject_found _ _ (newProject env smeId projectData));
      [reflexivity|].
    rewrite Hfst. cbn [setMatches setProjects projects].
    apply first_inserted. now apply existsb_key_false.
  - intros env projectId smeId projectData updated Hu.
    destruct (first (filter (fun p => (Project.id p =? projectId)%string
                                      && (Project.sme_id p =? smeId)%string)
                            (projects db))) as [p|] eqn:Hf.
    2:{ rewrite (updateProject_not_found _ _ _ _ _ Hf) in Hu. discriminate. }
    rewrite (updateProject_written _ _ _ _ _ _ Hf) in Hu |- *.
    cbn [fst snd] in *.
    destruct (first (filter (fun p => (Project.id p =? projectId)%string)
                            (projects (setProjects _ db))))
      as [u|] eqn:Hu'; [|discriminate].
    injection Hu as <-.
    now rewrite (getProject_found _ _ _ Hu').
  - intros projectId smeId Hd.
    destruct (first (filter (fun p => (Project.id p =? projectId)%string
                                      && (Project.sme_id p =? smeId)%string)
                            (projects db))) as [p|] eqn:Hf.
    2:{ rewrite (deleteProject_not_found _ _ _ Hf) in Hd. discriminate. }
    rewrite (deleteProject_found _ _ _ _ Hf). cbn [fst].
    rewrite getProject_not_found; [reflexivity|].
    cbn [projects]. unfold deleteWhere.
    rewrite filter_none; [reflexivity|].
    apply not_true_iff_false. intros H.
    apply existsb_exists in H as [q [Hq Hid]].
    apply filter_In in Hq as [_ Hq]. rewrite Hid in Hq. discriminate.
  - intros projectId. unfold getProject, bind, select.
    destruct (first _); reflexivity.
Qed.

End ProjectFacts.

(** ** What one operation can do to the stored matches *)

Module StepFacts.
Import D1 Matching Projects Queries Spec Notions.
Import FloatFacts RankingFacts TableFacts CreateFacts StatusFacts EffectFacts
       InvariantFacts RowFacts ProjectFacts.

Lemma filter_comm {A} (q r : A -> bool) (l : list A) :
  filter q (filter r l) = filter r (filter q l).
Proof.
  induction l as [|x l IH]; simpl; [reflexivity|].
  destruct (q x) eqn:Hq, (r x) eqn:Hr; simpl;
    rewrite ?Hq, ?Hr, IH; reflexivity.
Qed.

Lemma NoDup_map_filter {A B} (f : A -> B) (q : A -> bool) (l : list A) :
  NoDup (map f l) -> NoDup (map f (filter q l)).
Proof.
  induction l as [|x l IH]; simpl; intros Hnd; [constructor|].
  inversion Hnd as [|? ? Hx Hl]; subst.
  destruct (q x); simpl; [|now apply IH].
  constructor; [|now apply IH].
  intros Hin. apply Hx. apply in_map_iff in Hin as [y [Hy Hin]].
  apply filter_In in Hin as [Hin _]. rewrite <- Hy. now apply in_map.
Qed.

Lemma NoDup_map_firstn {A B} (f : A -> B) (k : nat) (l : list A) :
  NoDup (map f l) -> NoDup (map f (firstn k l)).
Proof.
  intros Hnd. rewrite <- (firstn_skipn k l), map_app in Hnd.
  now apply NoDup_app_remove_r in Hnd.
Qed.

Lemma sameIdentity_setMatchStatus (status : MatchStatus.t) (now : string)
      (x : ProjectMatch.t) :
  sameIdentity x (setMatchStatus status now x).
Proof. repeat split. Qed.

Lemma sameIdentity_refl (x : ProjectMatch.t) : sameIdentity x x.
Proof. repeat split. Qed.

Lemma sameIdentity_rowAfter (now matchId projectId : string)
      (status : NewStatus.t) (x : ProjectMatch.t) :
  sameIdentity x (rowAfter now matchId projectId status x).
Proof.
  unfold rowAfter.
  destruct (ProjectMatch.id x =? matchId)%string;
    [apply sameIdentity_setMatchStatus|].
  destruct status; try apply sameIdentity_refl.
  destruct (_ && _);
    [apply sameIdentity_setMatchStatus | apply sameIdentity_refl].
Qed.

(** The four things a core operation can do: nothing; rewrite rows in
    place, keeping the identity of every match and making none pending;
    delete a project with its matches; append a project with rows for an
    initial part of its ranking, under fresh ids. *)
Lemma exec_cases (op : Op) (db : D1Database) :
  exec op db = db
  \/ (exists g h,
         projects (exec op db) = map h (projects db)
         /\ project_matches (exec op db) = map g (project_matches db)
         /\ consultant_profiles (exec op db) = consultant_profiles db
         /\ (forall x,
                sameIdentity x (g x)
                /\ (ProjectMatch.status (g x) = MatchStatus.pending ->
                    ProjectMatch.status x = MatchStatus.pending))
         /\ (forall p, Project.id (h p) = Project.id p))
  \/ (exists projectId smeId,
         op = DeleteProject projectId smeId
         /\ exec op db
            = mkDb (deleteWhere (fun p => (Project.id p =? projectId)%string)
                                (projects db))
                   (deleteWhere (fun m => (ProjectMatch.project_id m
                                           =? projectId)%string)
                                (project_matches db))
                   (consultant_profiles db))
  \/ (exists env smeId projectData k,
         op = CreateProject env smeId projectData
         /\ ~ In (Env.nanoid env 0) (map Project.id (projects db))
         /\ exec op db
            = mkDb (projects db ++ [newProject env smeId projectData])
                   (project_matches db
                    ++ firstn k (matchRows env
                                   (newProject env smeId projectData)
                                   (Env.now env 1) 1
                                   (ranking env smeId projectData db)))
                   (consultant_profiles db)
         /\ freshIds
              (map ProjectMatch.id
                   (firstn k (matchRows env
                                (newProject env smeId projectData)
                                (Env.now env 1) 1
                                (ranking env smeId projectData db))))
              db).
Proof.
  op_cases op.
  - destruct (in_dec string_dec (Env.nanoid env 0)
                     (map Project.id (projects db))) as [Hin|Hout].
    + left. now rewrite (createProject_taken _ _ _ _ Hin).
    + right. right. right.
      rewrite (createProject_inserted _ _ _ _ Hout). cbn [fst].
      destruct (insertMatches_outcome env (newProject env smeId projectData)
                  (Env.now env 1) (ranking env smeId projectData db) 1
                  (setProjects
                     (fun rows => rows ++ [newProject env smeId projectData])
                     db))
        as [k [Hfst [_ Hfresh]]].
      exists env, smeId, projectData, k.
      split; [reflexivity|]. split; [exact Hout|].
      split; [rewrite Hfst; reflexivity | exact Hfresh].
  - destruct (submitProposal_effect env matchId consultantId proposal price db)
      as [->| ->]; [now left|].
    right. left.
    exists (fun x => if (ProjectMatch.id x =? matchId)%string
                     then setProposal proposal price (Env.now env 0) x
                     else x), (fun p => p).
    cbn [setMatches projects project_matches consultant_profiles].
    split; [symmetry; apply map_id|].
    split; [reflexivity|]. split; [reflexivity|].
    split; [|reflexivity].
    intros x. destruct (ProjectMatch.id x =? matchId)%string;
      split; trivial; repeat split.
  - destruct (updateMatchStatus_effect env matchId smeId status db)
      as [->|[m [Hin [Hid [_ ->]]]]]; [now left|].
    right. left.
    exists (rowAfter (Env.now env 0) matchId (ProjectMatch.project_id m) status),
           (projectAfter (Env.now env 0) (ProjectMatch.project_id m) status).
    cbn [statusWritten projects project_matches consultant_profiles].
    repeat (split; [reflexivity|]).
    split.
    + intros x. split; [apply sameIdentity_rowAfter|].
      intros H. now apply rowAfter_pending in H.
    + intros p. apply projectAfter_id.
  - destruct (updateProject_effect env projectId smeId projectData db)
      as [->|[_ ->]]; [now left|].
    right. left.
    exists (fun x => x),
           (fun p => if (Project.id p =? projectId)%string
                     then applyPatch projectData (Env.now env 0) p else p).
    cbn [setProjects projects project_matches consultant_profiles].
    split; [reflexivity|].
    split; [symmetry; apply map_id|]. split; [reflexivity|].
    split.
    + intros x. split; [apply sameIdentity_refl | trivial].
    + intros p. now destruct (Project.id p =? projectId)%string.
  - destruct (deleteProject_effect projectId smeId db) as [->|H];
      [now left|].
    right. right. left. exists projectId, smeId. split; [reflexivity|].
    exact H.
Qed.

(** X7.  No core operation changes the identity of a stored match: after
  any operation a match that was stored is still stored with the same id,
  project, consultant, score and creation time, unless the operation
  deleted its project, in which case no match of that project is left. *)
Theorem match_identity_immutable (op : Op) (db : D1Database)
        (m : ProjectMatch.t) :
  In m (project_matches db) ->
  (exists m', In m' (project_matches (exec op db)) /\ sameIdentity m m')
  \/ (exists smeId,
         op = DeleteProject (ProjectMatch.project_id m) smeId
         /\ forall m', In m' (project_matches (exec op db)) ->
                       ProjectMatch.project_id m'
                       <> ProjectMatch.project_id m).
Proof.
  intros Hin.
  destruct (exec_cases op db)
    as [->|[[g [h [_ [Hm [_ [Hg _]]]]]]
           |[[projectId [smeId [Hop ->]]]
            |[env [smeId [projectData [k [_ [_ [-> _]]]]]]]]]].
  - left. exists m. split; [exact Hin | apply sameIdentity_refl].
  - left. exists (g m). split; [|apply Hg].
    rewrite Hm. now apply in_map.
  - cbn [project_matches].
    destruct (ProjectMatch.project_id m =? projectId)%string eqn:Hp.
    + right. apply String.eqb_eq in Hp. subst projectId.
      exists smeId. split; [exact Hop|].
      intros m' Hm'. apply deleteWhere_In in Hm' as [_ Hne].
      now apply String.eqb_neq in Hne.
    + left. exists m. split; [|apply sameIdentity_refl].
      apply deleteWhere_In. auto.
  - left. exists m. cbn [project_matches].
    split; [|apply sameIdentity_refl]. apply in_or_app. now left.
Qed.

(** X8.  No core operation makes a match pending again: a match that is
  pending after an operation was stored and pending before it, with the
  same identity, or it was inserted by this very operation, a
  [createProject], under an id that was not in use, for the project it
  created. *)
Theorem no_return_to_pending (op : Op) (db : D1Database)
        (m' : ProjectMatch.t) :
  In m' (project_matches (exec op db)) ->
  ProjectMatch.status m' = MatchStatus.pending ->
  (exists m, In m (project_matches db)
             /\ sameIdentity m m'
             /\ ProjectMatch.status m = MatchStatus.pending)
  \/ (~ In (ProjectMatch.id m') (map ProjectMatch.id (project_matches db))
      /\ exists env smeId projectData,
          op = CreateProject env smeId projectData
          /\ ProjectMatch.project_id m' = Env.nanoid env 0).
Proof.
  intros Hin Hpend.
  destruct (exec_cases op db)
    as [E|[[g [h [_ [Hm [_ [Hg _]]]]]]
          |[[projectId [smeId [Hop E]]]
           |[env [smeId [projectData [k [Hop [_ [E Hfresh]]]]]]]]]].
  - rewrite E in Hin. left. exists m'.
    split; [exact Hin|]. split; [apply sameIdentity_refl | exact Hpend].
  - rewrite Hm in Hin. apply in_map_iff in Hin as [x [<- Hx]].
    left. exists x. split; [exact Hx|]. split; [apply Hg|].
    now apply Hg.
  - rewrite E in Hin. cbn [project_matches] in Hin.
    apply deleteWhere_In in Hin as [Hin _].
    left. exists m'.
    split; [exact Hin|]. split; [apply sameIdentity_refl | exact Hpend].
  - rewrite E in Hin. cbn [project_matches] in Hin.
    apply in_app_or in Hin as [Hin|Hin].
    + left. exists m'.
      split; [exact Hin|]. split; [apply sameIdentity_refl | exact Hpend].
    + right. split.
      * destruct Hfresh as [_ Hout]. apply Hout. now apply in_map.
      * exists env, smeId, projectData. split; [exact Hop|].
        apply In_firstn in Hin.
        pose proof (matchRows_pending env (newProject env smeId projectData)
                      (Env.now env 1) (ranking env smeId projectData db) 1)
          as Hrows.
        rewrite Forall_forall in Hrows. now apply Hrows.
Qed.

(** *** Invariants of the reachable states *)

Lemma exec_pool (op : Op) (db : D1Database) :
  consultant_profiles (exec op db) = consultant_profiles db.
Proof.
  destruct (exec_cases op db)
    as [->|[[g [h [_ [_ [Hc _]]]]]
           |[[projectId [smeId [_ ->]]]
            |[env [smeId [projectData [k [_ [_ [-> _]]]]]]]]]];
    trivial.
Qed.

Lemma exec_uniqueProjectIds (op : Op) (db : D1Database) :
  uniqueProjectIds db -> uniqueProjectIds (exec op db).
Proof.
  unfold uniqueProjectIds. intros Hnd.
  destruct (exec_cases op db)
    as [->|[[g [h [Hp [_ [_ [_ Hh]]]]]]
           |[[projectId [smeId [_ ->]]]
            |[env [smeId [projectData [k [_ [Hout [-> _]]]]]]]]]].
  - exact Hnd.
  - rewrite Hp, map_map. erewrite map_ext; [exact Hnd|]. exact Hh.
  - cbn [projects]. unfold deleteWhere. now apply NoDup_map_filter.
  - cbn [projects]. rewrite map_app. simpl.
    apply NoDup_app; [exact Hnd | | ].
    + repeat constructor. intros [].
    + intros a Ha [<-|[]]. now apply Hout.
Qed.

Lemma reachable_uniqueProjectIds (db : D1Database) :
  reachable db -> uniqueProjectIds db.
Proof.
  induction 1 as [pool|op db _ IH].
  - constructor.
  - now apply exec_uniqueProjectIds.
Qed.

(** The rows of a ranking carry scores that are numbers. *)
Lemma matchRows_scores (env : Env.t) (project : Project.t) (now : string)
      (top : list Candidate.t) :
  Forall scored top ->
  forall i,
    Forall (fun row => JsNumber.notNaN (ProjectMatch.match_score row))
           (matchRows env project now i top).
Proof.
  induction 1 as [|m rest Hm _ IH]; intros i; simpl; constructor; auto.
Qed.

Lemma topMatches_scored (projectKeywords : list string)
      (consultants : list ConsultantProfile.t) :
  Forall scored (topMatches projectKeywords consultants).
Proof.
  eapply Forall_impl; [|apply topMatches_scoredFrom].
  intros m. apply scoredFrom_scored.
Qed.

Lemma exec_scoresAreNumbers (op : Op) (db : D1Database) :
  scoresAreNumbers db -> scoresAreNumbers (exec op db).
Proof.
  unfold scoresAreNumbers. intros Hs.
  destruct (exec_cases op db)
    as [->|[[g [h [_ [Hm [_ [Hg _]]]]]]
           |[[projectId [smeId [_ ->]]]
            |[env [smeId [projectData [k [_ [_ [-> _]]]]]]]]]].
  - exact Hs.
  - rewrite Hm. rewrite Forall_forall in *. intros y Hy.
    apply in_map_iff in Hy as [x [<- Hx]].
    destruct (Hg x) as [[_ [_ [_ [-> _]]]] _]. now apply Hs.
  - cbn [project_matches]. rewrite Forall_forall in *. intros y Hy.
    apply deleteWhere_In in Hy as [Hy _]. now apply Hs.
  - cbn [project_matches]. apply Forall_app. split; [exact Hs|].
    apply Forall_firstn. apply matchRows_scores. apply topMatches_scored.
Qed.

Lemma reachable_scoresAreNumbers (db : D1Database) :
  reachable db -> scoresAreNumbers db.
Proof.
  induction 1 as [pool|op db _ IH].
  - constructor.
  - now apply exec_scoresAreNumbers.
Qed.

(** A project that is about to be created has no match yet. *)
Lemma no_match_of_new_project (db : D1Database) (projectId : string) :
  consistent db ->
  ~ In projectId (map Project.id (projects db)) ->
  filter (fun m => (ProjectMatch.project_id m =? projectId)%string)
         (project_matches db) = [].
Proof.
  intros [_ [Hpar _]] Hout. apply filter_none.
  apply not_true_iff_false. intros H.
  apply existsb_exists in H as [m [Hm Hid]]. apply String.eqb_eq in Hid.
  apply Hout. rewrite <- Hid. now apply Hpar.
Qed.

(** The rows of another project's ranking are not among the matches of a
    project. *)
Lemma other_project_rows (env : Env.t) (project : Project.t) (now : string)
      (top : list Candidate.t) (k : nat) (projectId : string) :
  Project.id project <> projectId ->
  filter (fun m => (ProjectMatch.project_id m =? projectId)%string)
         (firstn k (matchRows env project now 1 top)) = [].
Proof.
  intros Hne. apply filter_none.
  apply not_true_iff_false. intros H.
  apply existsb_exists in H as [m [Hm Hid]]. apply String.eqb_eq in Hid.
  apply In_firstn in Hm.
  pose proof (matchRows_pending env project now top 1) as Hrows.
  rewrite Forall_forall in Hrows. destruct (Hrows m Hm) as [Hp _].
  congruence.
Qed.

Lemma own_project_rows (env : Env.t) (project : Project.t) (now : string)
      (top : list Candidate.t) (k : nat) :
  filter (fun m => (ProjectMatch.project_id m =? Project.id project)%string)
         (firstn k (matchRows env project now 1 top))
  = firstn k (matchRows env project now 1 top).
Proof.
  apply forallb_filter_id. apply forallb_forall. intros m Hm.
  apply In_firstn in Hm.
  pose proof (matchRows_pending env project now top 1) as Hrows.
  rewrite Forall_forall in Hrows. destruct (Hrows m Hm) as [Hp _].
  now apply String.eqb_eq.
Qed.

(** How the matches of one project change in a step. *)
Lemma matchesOf_step (op : Op) (db : D1Database) (projectId : string) :
  consistent db ->
  (exists g,
      matchesOf (exec op db) projectId = map g (matchesOf db projectId)
      /\ forall x, sameIdentity x (g x))
  \/ (exists q, matchesOf (exec op db) projectId
                = filter q (matchesOf db projectId))
  \/ (exists env smeId projectData k,
         matchesOf db projectId = []
         /\ matchesOf (exec op db) projectId
            = firstn k (matchRows env (newProject env smeId projectData)
                                  (Env.now env 1) 1
                                  (ranking env smeId projectData db))).
Proof.
  intros Hc. unfold matchesOf.
  destruct (exec_cases op db)
    as [->|[[g [h [_ [Hm [_ [Hg _]]]]]]
           |[[pid [smeId [_ ->]]]
            |[env [smeId [projectData [k [_ [Hout [-> _]]]]]]]]]].
  - left. exists (fun x => x). split; [now rewrite map_id|].
    apply sameIdentity_refl.
  - left. exists g. split; [|apply Hg].
    rewrite Hm. apply filter_map_comm.
    intros x. destruct (Hg x) as [[_ [-> _]] _]. reflexivity.
  - right. left. cbn [project_matches]. unfold deleteWhere.
    eexists. apply filter_comm.
  - cbn [project_matches]. rewrite filter_app.
    destruct (string_dec (Env.nanoid env 0) projectId) as [<-|Hne].
    + right. right. exists env, smeId, projectData, k.
      rewrite (no_match_of_new_project db _ Hc Hout).
      split; [reflexivity|]. simpl.
      apply (own_project_rows env (newProject env smeId projectData)).
    + left. exists (fun x => x).
      rewrite (other_project_rows env (newProject env smeId projectData))
        by exact Hne.
      rewrite app_nil_r, map_id. split; [reflexivity|].
      apply sameIdentity_refl.
Qed.

(** X9.  In every state the core operations reach, a project has at most
  ten matches. *)
Theorem at_most_ten_matches_per_project (db : D1Database) :
  reachable db ->
  forall projectId, List.length (matchesOf db projectId) <= 10.
Proof.
  induction 1 as [pool|op db Hr IH]; intros projectId.
  - simpl. lia.
  - destruct (matchesOf_step op db projectId (reachable_consistent _ Hr))
      as [[g [-> _]]|[[q ->]|[env [smeId [projectData [k [_ ->]]]]]]].
    + rewrite length_map. apply IH.
    + etransitivity; [apply filter_length_le | apply IH].
    + rewrite length_firstn, matchRows_length.
      pose proof (topMatches_length
                    (extractKeywords
                       (projectText (newProject env smeId projectData)))
                    (consultant_profiles db)).
      unfold ranking. lia.
Qed.

Lemma scoreConsultants_ids (projectKeywords : list string)
      (consultants : list ConsultantProfile.t) :
  NoDup (map ConsultantProfile.id consultants) ->
  NoDup (map Candidate.consultant_id
             (scoreConsultants projectKeywords consultants)).
Proof.
  intros Hnd. rewrite scoreConsultants_filter, map_map. simpl.
  now apply NoDup_map_filter.
Qed.

Lemma topMatches_ids (projectKeywords : list string)
      (consultants : list ConsultantProfile.t) :
  NoDup (map ConsultantProfile.id consultants) ->
  NoDup (map Candidate.consultant_id (topMatches projectKeywords consultants)).
Proof.
  intros Hnd. unfold topMatches. apply NoDup_map_firstn.
  eapply Permutation_NoDup.
  - apply Permutation_map. apply Permutation_sym. apply sort_perm.
  - now apply scoreConsultants_ids.
Qed.

(** X10.  When the ids of the consultant profiles are unique, as the
  primary key of the table has it, then in every state the core
  operations reach no consultant has two matches in one project. *)
Theorem one_match_per_consultant (db : D1Database) :
  reachable db ->
  NoDup (map ConsultantProfile.id (consultant_profiles db)) ->
  forall projectId,
    NoDup (map ProjectMatch.consultant_id (matchesOf db projectId)).
Proof.
  induction 1 as [pool|op db Hr IH]; intros Hpool projectId.
  - constructor.
  - rewrite exec_pool in Hpool. specialize (IH Hpool).
    destruct (matchesOf_step op db projectId (reachable_consistent _ Hr))
      as [[g [-> Hg]]|[[q ->]|[env [smeId [projectData [k [_ ->]]]]]]].
    + rewrite map_map. erewrite map_ext; [apply IH|].
      intros x. destruct (Hg x) as [_ [_ [-> _]]]. reflexivity.
    + apply NoDup_map_filter, IH.
    + apply NoDup_map_firstn. rewrite matchRows_consultants.
      now apply topMatches_ids.
Qed.

End StepFacts.

(** ** The order of the numbers, and lists in descending order *)

Module OrderFacts.
Import JsNumber Matching Spec.

Lemma SFcompare_antisym (x y : spec_float) :
  SFcompare y x = option_map CompOpp (SFcompare x y).
Proof.
  destruct x as [sx|sx| |sx mx ex], y as [sy|sy| |sy my ey];
    try destruct sx; try destruct sy; try reflexivity;
    cbn [SFcompare option_map]; f_equal;
    rewrite (Z.compare_antisym ex ey);
    change (Pos.compare_cont Eq my mx) with (Pos.compare my mx);
    change (Pos.compare_cont Eq mx my) with (Pos.compare mx my);
    rewrite (Pos.compare_antisym mx my);
    destruct (ex ?= ey)%Z; cbn [CompOpp]; try reflexivity;
    destruct (mx ?= my)%positive; reflexivity.
Qed.

Lemma SFltb_false_SFleb (x y : spec_float) :
  x <> S754_nan -> y <> S754_nan -> SFltb x y = false -> SFleb y x = true.
Proof.
  intros Nx Ny. unfold SFltb, SFleb. rewrite (SFcompare_antisym x y).
  destruct (SFcompare x y) as [[| |]|] eqn:Hc; cbn [option_map CompOpp];
    try reflexivity; try discriminate.
  intros _. exfalso.
  destruct x as [sx|sx| |sx mx ex], y as [sy|sy| |sy my ey];
    try discriminate; first [now apply Nx | now apply Ny].
Qed.

Lemma SFltb_SFleb (x y : spec_float) : SFltb x y = true -> SFleb x y = true.
Proof.
  unfold SFltb, SFleb. destruct (SFcompare x y) as [[| |]|];
    trivial; discriminate.
Qed.

(** The order of the numbers is transitive: the comparison goes by sign
    and class first, then by exponent, then by mantissa. *)
Lemma SFleb_trans (x y z : spec_float) :
  SFleb x y = true -> SFleb y z = true -> SFleb x z = true.
Proof.
  unfold SFleb.
  destruct x as [sx|sx| |sx mx ex], y as [sy|sy| |sy my ey],
           z as [sz|sz| |sz mz ez];
    try destruct sx; try destruct sy; try destruct sz;
    cbn [SFcompare]; try reflexivity; try discriminate;
    change (Pos.compare_cont Eq mx my) with (Pos.compare mx my);
    change (Pos.compare_cont Eq my mz) with (Pos.compare my mz);
    change (Pos.compare_cont Eq mx mz) with (Pos.compare mx mz);
    destruct (Z.compare_spec ex ey) as [E1|E1|E1];
    destruct (Z.compare_spec ey ez) as [E2|E2|E2];
    destruct (Z.compare_spec ex ez) as [E3|E3|E3];
    try reflexivity; try discriminate; try lia;
    destruct (Pos.compare_spec mx my) as [F1|F1|F1];
    destruct (Pos.compare_spec my mz) as [F2|F2|F2];
    destruct (Pos.compare_spec mx mz) as [F3|F3|F3];
    cbn [CompOpp]; try reflexivity; try discriminate; lia.
Qed.

Lemma ltb_false_leb (x y : float) :
  notNaN x -> notNaN y -> (x <? y)%float = false -> (y <=? x)%float = true.
Proof.
  unfold notNaN. rewrite FloatAxioms.ltb_spec, FloatAxioms.leb_spec.
  apply SFltb_false_SFleb.
Qed.

Lemma ltb_leb (x y : float) : (x <? y)%float = true -> (x <=? y)%float = true.
Proof.
  rewrite FloatAxioms.ltb_spec, FloatAxioms.leb_spec. apply SFltb_SFleb.
Qed.

Lemma leb_trans (x y z : float) :
  (x <=? y)%float = true -> (y <=? z)%float = true -> (x <=? z)%float = true.
Proof.
  rewrite !FloatAxioms.leb_spec. apply SFleb_trans.
Qed.

Lemma descending_trans (a b c : Candidate.t) :
  descending a b -> descending b c -> descending a c.
Proof.
  unfold descending. intros H1 H2. exact (leb_trans _ _ _ H2 H1).
Qed.

Lemma rowsDescending_trans (a b c : ProjectMatch.t) :
  rowsDescending a b -> rowsDescending b c -> rowsDescending a c.
Proof.
  unfold rowsDescending. intros H1 H2. exact (leb_trans _ _ _ H2 H1).
Qed.

(** In a list sorted by a transitive relation every element is related
    to all the later ones. *)
Lemma Sorted_strongly {A} (R : A -> A -> Prop) (l : list A) :
  (forall a b c, R a b -> R b c -> R a c) ->
  Sorted R l -> StronglySorted R l.
Proof.
  intros Htrans. apply Sorted_StronglySorted.
  intros a b c. apply Htrans.
Qed.

Lemma StronglySorted_split {A} (R : A -> A -> Prop) (n : nat) (l : list A) :
  StronglySorted R l ->
  forall a b, In a (firstn n l) -> In b (skipn n l) -> R a b.
Proof.
  intros Hs. revert n.
  induction Hs as [|x l Hl IH Hall]; intros n a b Ha Hb.
  - destruct n; destruct Ha.
  - destruct n as [|n]; [destruct Ha|]. simpl in Ha, Hb.
    destruct Ha as [<-|Ha].
    + rewrite Forall_forall in Hall. apply Hall.
      rewrite <- (firstn_skipn n l). apply in_or_app. now right.
    + now apply (IH n).
Qed.

End OrderFacts.

(** ** The ranking keeps the best candidates *)

Module BestFacts.
Import JsNumber Matching Spec RankingFacts OrderFacts StepFacts.

Lemma sort_scored (l : list Candidate.t) :
  Forall scored l -> StronglySorted descending (sort byScoreDesc l).
Proof.
  intros H. apply Sorted_strongly; [exact descending_trans|].
  now apply sort_sorted.
Qed.

(** X11.  The ranking keeps the best: the candidates that pass the
  threshold are the retained entries together with the dropped ones, the
  retained ones are ten or, if fewer passed, all of them, no dropped
  candidate has a higher score than a retained one, and with unique
  profile ids no consultant is retained twice. *)
Theorem topMatches_keeps_the_best (projectKeywords : list string)
        (consultants : list ConsultantProfile.t) :
  let candidates := scoreConsultants projectKeywords consultants in
  let kept := topMatches projectKeywords consultants in
  exists dropped,
    Permutation candidates (kept ++ dropped)
    /\ List.length kept = Nat.min 10 (List.length candidates)
    /\ (forall a b, In a kept -> In b dropped -> descending a b)
    /\ (List.length candidates <= 10 -> dropped = [])
    /\ (NoDup (map ConsultantProfile.id consultants) ->
        NoDup (map Candidate.consultant_id kept)).
Proof.
  intros candidates kept.
  exists (skipn 10 (sort byScoreDesc candidates)).
  unfold kept, topMatches. fold candidates.
  split; [|split; [|split; [|split]]].
  - rewrite firstn_skipn. apply Permutation_sym, sort_perm.
  - rewrite length_firstn.
    now rewrite (Permutation_length (sort_perm byScoreDesc candidates)).
  - apply StronglySorted_split. apply sort_scored.
    eapply Forall_impl; [|apply scoreConsultants_scoredFrom].
    intros m. apply scoredFrom_scored.
  - intros Hle. apply skipn_all2.
    now rewrite (Permutation_length (sort_perm byScoreDesc candidates)).
  - apply topMatches_ids.
Qed.

End BestFacts.

(** ** The read operations *)

Module QueryFacts.
Import JsNumber D1 Matching Projects Queries Sql Spec Notions.
Import TableFacts RankingFacts RowFacts ProjectFacts OrderFacts StepFacts.

(** *** [ORDER BY], [LIMIT] and [OFFSET] *)

Lemma orderInsert_perm {A} (precedes : A -> A -> bool) (a : A) (l : list A) :
  Permutation (orderInsert precedes a l) (a :: l).
Proof.
  induction l as [|b l IH]; simpl; [reflexivity|].
  destruct (precedes b a); [|reflexivity].
  rewrite IH. apply perm_swap.
Qed.

Lemma orderBy_perm {A} (precedes : A -> A -> bool) (l : list A) :
  Permutation (orderBy precedes l) l.
Proof.
  induction l as [|a l IH]; simpl; [reflexivity|].
  rewrite orderInsert_perm. now constructor.
Qed.

Lemma orderInsert_HdRel {A} (R : A -> A -> Prop) (precedes : A -> A -> bool)
      (a b : A) (l : list A) :
  R b a -> HdRel R b l -> HdRel R b (orderInsert precedes a l).
Proof.
  intros Hba Hhd. destruct l as [|c l]; simpl; [now constructor|].
  destruct (precedes c a); constructor; trivial. now inversion Hhd.
Qed.


Lemma orderBy_rowsDescending (l : list ProjectMatch.t) :
  Forall (fun m => notNaN (ProjectMatch.match_score m)) l ->
  Sorted rowsDescending (orderBy byMatchScoreDesc l).
Proof.
  intros Hnum.
  assert (Hall : Forall (fun m => notNaN (ProjectMatch.match_score m))
                        (orderBy byMatchScoreDesc l)).
  { rewrite Forall_forall in *. intros x Hx. apply Hnum.
    eapply Permutation_in; [apply orderBy_perm | exact Hx]. }
  clear Hnum. induction l as [|a l IH]; simpl in *; [constructor|].
  assert (Ha : notNaN (ProjectMatch.match_score a)).
  { rewrite Forall_forall in Hall. apply Hall.
    eapply Permutation_in; [apply Permutation_sym, orderInsert_perm|].
    now left. }
  assert (Hl : Forall (fun m => notNaN (ProjectMatch.match_score m))
                      (orderBy byMatchScoreDesc l)).
  { rewrite Forall_forall in *. intros x Hx. apply Hall.
    eapply Permutation_in; [apply Permutation_sym, orderInsert_perm|].
    now right. }
  specialize (IH Hl). clear Hall.
  induction IH as [|b s Hs IHs Hhd]; simpl; [repeat constructor|].
  inversion Hl as [|? ? Hb Hs']; subst.
  unfold byMatchScoreDesc at 1.
  destruct (ProjectMatch.match_score a <? ProjectMatch.match_score b)%float
    eqn:Hab.
  - constructor; [now apply IHs|].
    apply orderInsert_HdRel; [|exact Hhd].
    unfold rowsDescending. now apply ltb_leb.
  - constructor; [now constructor|]. constructor.
    unfold rowsDescending. now apply ltb_false_leb.
Qed.







(** *** [getProjectMatches] *)

Lemma getProjectMatches_found (projectId smeId : string) (db : D1Database)
      (p : Project.t) :
  first (filter (fun p => (Project.id p =? projectId)%string
                          && (Project.sme_id p =? smeId)%string)
                (projects db)) = Some p ->
  getProjectMatches projectId smeId db
  = (db, Ok (orderBy byMatchScoreDesc (matchesOf db projectId))).
Proof.
  intros H. unfold getProjectMatches, bind, select. rewrite H. reflexivity.
Qed.

Lemma getProjectMatches_not_found (projectId smeId : string)
      (db : D1Database) :
  first (filter (fun p => (Project.id p =? projectId)%string
                          && (Project.sme_id p =? smeId)%string)
                (projects db)) = None ->
  getProjectMatches projectId smeId db
  = (db, Thrown "Project not found or you do not have permission to access it").
Proof.
  intros H. unfold getProjectMatches, bind, select. rewrite H. reflexivity.
Qed.

(** X12.  [getProjectMatches] answers exactly the owner of the project:
  it settles with a list when a project with the given id belongs to the
  SME, and throws otherwise.  The list holds the matches of the project,
  each once; when the stored scores are numbers, as they are in every
  state the core operations reach, every match in it has a score that is
  at least the score of every match after it.  The database is never
  changed. *)
Theorem getProjectMatches_ranked (projectId smeId : string)
        (db : D1Database) :
  let after := getProjectMatches projectId smeId db in
  fst after = db
  /\ ((exists rows, snd after = Ok rows)
      <-> exists p, In p (projects db)
                    /\ Project.id p = projectId /\ Project.sme_id p = smeId)
  /\ (forall rows,
         snd after = Ok rows ->
         Permutation rows (matchesOf db projectId)
         /\ (scoresAreNumbers db -> StronglySorted rowsDescending rows)
         /\ (reachable db -> StronglySorted rowsDescending rows))
  /\ (forall message,
         snd after = Thrown message ->
         message
         = "Project not found or you do not have permission to access it"%string).
Proof.
  intros after. unfold after.
  destruct (first (filter (fun p => (Project.id p =? projectId)%string
                                    && (Project.sme_id p =? smeId)%string)
                          (projects db))) as [p|] eqn:Hf.
  - rewrite (getProjectMatches_found _ _ _ _ Hf). cbn [fst snd].
    assert (Hsorted : scoresAreNumbers db ->
                      StronglySorted rowsDescending
                        (orderBy byMatchScoreDesc (matchesOf db projectId))).
    { intros Hnum. apply Sorted_strongly; [exact rowsDescending_trans|].
      apply orderBy_rowsDescending. unfold matchesOf.
      unfold scoresAreNumbers in Hnum. rewrite Forall_forall in *.
      intros x Hx. apply Hnum. now apply filter_In in Hx. }
    split; [reflexivity|]. split; [|split].
    + split; [intros _|intros _; eauto].
      apply owned_found. now exists p.
    + intros rows Hr. injection Hr as <-.
      split; [apply orderBy_perm|]. split; [exact Hsorted|].
      intros Hreach. apply Hsorted. now apply reachable_scoresAreNumbers.
    + intros message H. discriminate.
  - rewrite (getProjectMatches_not_found _ _ _ Hf). cbn [fst snd].
    split; [reflexivity|]. split; [|split].
    + split.
      * intros [rows H]. discriminate.
      * intros H. apply owned_found in H as [p Hp]. congruence.
    + intros rows H. discriminate.
    + intros message H. congruence.
Qed.

(** *** [listProjects] *)












End QueryFacts.

(** ** The lifecycle after a status change *)

Module LifecycleFacts.
Import D1 Matching Projects Spec Notions.
Import TableFacts ProposalFacts StatusFacts EffectFacts InvariantFacts
       AcceptFacts ProjectStatusFacts RowFacts.

(** What a successful [updateMatchStatus] found and wrote, when the ids
    of the matches are unique. *)
Lemma updateMatchStatus_ok (env : Env.t) (matchId smeId : string)
      (status : NewStatus.t) (db : D1Database) (updated : ProjectMatch.t) :
  uniqueIds db ->
  snd (updateMatchStatus env matchId smeId status db) = Ok updated ->
  exists m,
    In m (project_matches db)
    /\ ProjectMatch.id m = matchId
    /\ ownedBy db smeId m = true
    /\ updated = setMatchStatus (NewStatus.toStatus status) (Env.now env 0) m
    /\ fst (updateMatchStatus env matchId smeId status db)
       = statusWritten (Env.now env 0) matchId (ProjectMatch.project_id m)
                       status db.
Proof.
  intros Hids Hok.
  destruct (first (filter (fun x => (ProjectMatch.id x =? matchId)%string
                                    && ownedBy db smeId x)
                          (project_matches db))) as [m|] eqn:Hfirst.
  2:{ rewrite (updateMatchStatus_not_found env _ _ _ _ Hfirst) in Hok.
      discriminate. }
  pose proof (first_filter _ _ _ Hfirst) as [Hin Hm].
  apply andb_true_iff in Hm as [Hid Hown]. apply String.eqb_eq in Hid.
  assert (Hfind : findMatch db matchId = Some m).
  { unfold findMatch. subst matchId.
    now rewrite (filter_key ProjectMatch.id _ m Hids Hin). }
  rewrite (updateMatchStatus_found env _ _ status _ _ Hfirst) in Hok |- *.
  cbn [fst snd] in *. rewrite findMatch_statusWritten, Hfind in Hok.
  cbn [option_map] in Hok. injection Hok as <-.
  exists m. repeat split; trivial.
Qed.

(** X15.  Accepting a match closes its project to proposals: after a
  successful call with status [accepted] in a reachable state no match of
  the project is pending, and every [submitProposal] for a match of the
  project throws and leaves the database as it is. *)
Theorem accept_closes_proposals (env : Env.t) (matchId smeId : string)
        (db : D1Database) (updated : ProjectMatch.t) :
  reachable db ->
  snd (updateMatchStatus env matchId smeId NewStatus.accepted db)
  = Ok updated ->
  let db' := fst (updateMatchStatus env matchId smeId NewStatus.accepted db) in
  (forall m, In m (project_matches db') ->
             ProjectMatch.project_id m = ProjectMatch.project_id updated ->
             ProjectMatch.status m <> MatchStatus.pending)
  /\ (forall env' m consultantId proposal price,
         In m (project_matches db') ->
         ProjectMatch.project_id m = ProjectMatch.project_id updated ->
         fst (submitProposal env' (ProjectMatch.id m) consultantId
                             proposal price db') = db'
         /\ exists message,
             snd (submitProposal env' (ProjectMatch.id m) consultantId
                                 proposal price db') = Thrown message).
Proof.
  intros Hreach Hok db'.
  pose proof (reachable_consistent db Hreach) as Hc.
  destruct (updateMatchStatus_ok env matchId smeId NewStatus.accepted db
              updated (proj1 Hc) Hok)
    as [m0 [Hin0 [Hid0 [_ [-> Hdb']]]]].
  cbn [setMatchStatus ProjectMatch.project_id].
  assert (Hclosed : forall m, In m (project_matches db') ->
                              ProjectMatch.project_id m
                              = ProjectMatch.project_id m0 ->
                              ProjectMatch.status m <> MatchStatus.pending).
  { intros m Hm Hp Hpend. subst db'. rewrite Hdb' in Hm.
    cbn [statusWritten project_matches] in Hm.
    apply in_map_iff in Hm as [x [<- Hx]].
    rewrite rowAfter_project_id in Hp.
    apply rowAfter_pending in Hpend as [_ [_ Hne]].
    now apply (Hne eq_refl). }
  assert (Hids' : uniqueIds db').
  { subst db'. rewrite Hdb'.
    now apply (statusWritten_consistent (Env.now env 0) matchId
                 NewStatus.accepted db m0 Hin0 Hid0 Hc). }
  split; [exact Hclosed|].
  intros env' m consultantId proposal price Hm Hp.
  destruct (first (filter (fun x => (ProjectMatch.id x
                                     =? ProjectMatch.id m)%string
                                    && (ProjectMatch.consultant_id x
                                        =? consultantId)%string)
                          (project_matches db'))) as [found|] eqn:Hf.
  - pose proof (first_filter _ _ _ Hf) as [Hin Hq].
    apply andb_true_iff in Hq as [Hid _]. apply String.eqb_eq in Hid.
    assert (found = m)
      by (apply (key_unique ProjectMatch.id (project_matches db'));
          trivial).
    subst found.
    rewrite (submitProposal_not_pending env' _ _ proposal price _ m Hf).
    + split; [reflexivity | eexists; reflexivity].
    + apply not_true_iff_false. intros H. apply status_eqb_eq in H.
      now apply (Hclosed m Hm Hp).
  - rewrite (submitProposal_not_found env' _ _ proposal price _ Hf).
    split; [reflexivity | eexists; reflexivity].
Qed.

(** X16.  Only the status [accepted] cascades to other matches: a
  successful call with [rejected] or [completed] in a reachable state
  leaves every match other than the named one as it was; with [rejected]
  the projects stay as they were as well, with [completed] the project of
  the match becomes [completed] and the other projects stay as they
  were. *)
Theorem only_accept_cascades (env : Env.t) (matchId smeId : string)
        (status : NewStatus.t) (db : D1Database) (updated : ProjectMatch.t) :
  reachable db ->
  status <> NewStatus.accepted ->
  snd (updateMatchStatus env matchId smeId status db) = Ok updated ->
  let db' := fst (updateMatchStatus env matchId smeId status db) in
  (forall m, ProjectMatch.id m <> matchId ->
             (In m (project_matches db') <-> In m (project_matches db)))
  /\ List.length (project_matches db') = List.length (project_matches db)
  /\ (status = NewStatus.rejected -> projects db' = projects db)
  /\ (status = NewStatus.completed ->
      projectStatus db' (ProjectMatch.project_id updated)
      = Some ProjectStatus.completed
      /\ forall p, Project.id p <> ProjectMatch.project_id updated ->
                   (In p (projects db') <-> In p (projects db))).
Proof.
  intros Hreach Hstatus Hok db'.
  pose proof (reachable_consistent db Hreach) as Hc.
  destruct (updateMatchStatus_ok env matchId smeId status db
              updated (proj1 Hc) Hok)
    as [m0 [Hin0 [Hid0 [Hown [-> Hdb']]]]].
  cbn [setMatchStatus ProjectMatch.project_id].
  subst db'. rewrite Hdb'.
  cbn [statusWritten project_matches projects].
  split; [|split; [|split]].
  - intros m Hne. rewrite in_map_iff. split.
    + intros [x [Hx Hxin]]. unfold rowAfter in Hx.
      destruct (String.eqb_spec (ProjectMatch.id x) matchId) as [E|E].
      * subst m. cbn [setMatchStatus ProjectMatch.id] in Hne. contradiction.
      * destruct status; [contradiction| |]; now subst m.
    + intros Hm. exists m. split; [|exact Hm]. unfold rowAfter.
      apply String.eqb_neq in Hne. rewrite Hne.
      destruct status; [contradiction| |]; reflexivity.
  - apply length_map.
  - intros ->. apply map_id_ext. reflexivity.
  - intros ->. split.
    + transitivity
        (statusIn (map (projectAfter (Env.now env 0)
                                     (ProjectMatch.project_id m0)
                                     NewStatus.completed) (projects db))
                  (ProjectMatch.project_id m0)); [reflexivity|].
      rewrite statusIn_map by (intros p; apply projectAfter_id).
      unfold ownedBy in Hown. apply existsb_exists in Hown as [p [Hp Hq]].
      apply andb_true_iff in Hq as [Hq _]. apply String.eqb_eq in Hq.
      destruct (first (filter (fun p => (Project.id p
                                         =? ProjectMatch.project_id m0)%string)
                              (projects db))) as [p0|] eqn:Hf.
      * apply first_filter_id in Hf. cbn [option_map projectAfter].
        apply String.eqb_eq in Hf. now rewrite Hf.
      * apply (first_filter_none _ _ Hf) in Hp.
        rewrite Hq, String.eqb_refl in Hp. discriminate.
    + intros p Hne. rewrite in_map_iff. split.
      * intros [x [Hx Hxin]]. cbn [projectAfter] in Hx.
        destruct (String.eqb_spec (Project.id x) (ProjectMatch.project_id m0))
          as [E|E]; [|now subst p].
        subst p. cbn [setProjectStatus Project.id] in Hne. contradiction.
      * intros Hp. exists p. split; [|exact Hp]. cbn [projectAfter].
        apply String.eqb_neq in Hne. now rewrite Hne.
Qed.

End LifecycleFacts.

(** ** Operations one after the other *)

Module ComposeFacts.
Import D1 Matching Projects Queries Sql Spec Notions.
Import TableFacts CreateFacts ProposalFacts StatusFacts InvariantFacts
       RowFacts ProjectFacts OrderFacts StepFacts QueryFacts.





(** X18.  The matches of a deleted project cannot be used any more: with
  unique match ids, after a successful [deleteProject] no match is found
  under the id of a match of that project, and [submitProposal] and
  [updateMatchStatus] for such an id throw and leave the database as it
  is. *)
Theorem deleted_matches_cannot_be_used (projectId smeId : string)
        (db : D1Database) (m : ProjectMatch.t) :
  uniqueIds db ->
  snd (deleteProject projectId smeId db) = Ok true ->
  In m (project_matches db) ->
  ProjectMatch.project_id m = projectId ->
  let db' := fst (deleteProject projectId smeId db) in
  findMatch db' (ProjectMatch.id m) = None
  /\ (forall env consultantId proposal price,
         submitProposal env (ProjectMatch.id m) consultantId proposal price db'
         = (db',
            Thrown "Match not found or you do not have permission to submit a proposal"))
  /\ (forall env otherSme status,
         updateMatchStatus env (ProjectMatch.id m) otherSme status db'
         = (db',
            Thrown "Match not found or you do not have permission to update it")).
Proof.
  intros Hids Hok Hin Hp db'.
  assert (Hgone : forall x, In x (project_matches db') ->
                            (ProjectMatch.id x =? ProjectMatch.id m)%string
                            = false).
  { intros x Hx. subst db'.
    destruct (first (filter (fun p => (Project.id p =? projectId)%string
                                      && (Project.sme_id p =? smeId)%string)
                            (projects db))) as [p|] eqn:Hf.
    2:{ rewrite (deleteProject_not_found _ _ _ Hf) in Hok. discriminate. }
    rewrite (deleteProject_found _ _ _ _ Hf) in Hx.
    cbn [fst project_matches] in Hx.
    apply deleteWhere_In in Hx as [Hx Hne].
    apply String.eqb_neq. intros Heq.
    assert (x = m) by (now apply (key_unique ProjectMatch.id
                                             (project_matches db))).
    subst x. rewrite Hp, String.eqb_refl in Hne. discriminate. }
  assert (Hnone : forall q : ProjectMatch.t -> bool,
             first (filter (fun x => (ProjectMatch.id x
                                      =? ProjectMatch.id m)%string && q x)
                           (project_matches db')) = None).
  { intros q. rewrite filter_none; [reflexivity|].
    apply not_true_iff_false. intros H.
    apply existsb_exists in H as [x [Hx Hq]].
    rewrite (Hgone x Hx) in Hq. discriminate. }
  split; [|split].
  - unfold findMatch. rewrite filter_none; [reflexivity|].
    apply not_true_iff_false. intros H.
    apply existsb_exists in H as [x [Hx Hq]].
    rewrite (Hgone x Hx) in Hq. discriminate.
  - intros env consultantId proposal price.
    apply submitProposal_not_found. apply Hnone.
  - intros env otherSme status.
    apply updateMatchStatus_not_found. apply Hnone.
Qed.

(** X19.  The SME sees the ranking of a project it has just created: in
  a reachable state, after a successful [createProject],
  [getProjectMatches] for the new project and its SME returns the rows of
  the ranking, each once, every one with a score at least that of the
  rows after it; for any other SME it throws. *)
Theorem created_project_shows_its_ranking (env : Env.t) (smeId : string)
        (projectData : ProjectData.t) (db : D1Database)
        (created : Project.t) :
  reachable db ->
  snd (createProject env smeId projectData db) = Ok created ->
  let db' := fst (createProject env smeId projectData db) in
  let ranked := ranking env smeId projectData db in
  (exists rows,
      snd (getProjectMatches (Project.id created) smeId db') = Ok rows
      /\ Permutation rows (matchRows env created (Env.now env 1) 1 ranked)
      /\ Permutation (map ProjectMatch.consultant_id rows)
                     (map Candidate.consultant_id ranked)
      /\ StronglySorted rowsDescending rows)
  /\ (forall other,
         other <> smeId ->
         snd (getProjectMatches (Project.id created) other db')
         = Thrown "Project not found or you do not have permission to access it").
Proof.
  intros Hreach Hok db' ranked.
  assert (Hreach' : reachable db').
  { exact (reach_step (CreateProject env smeId projectData) db Hreach). }
  destruct (createProject_success _ _ _ _ _ Hok) as [Hout [Hfresh ->]].
  assert (Hdb' : db'
                 = mkDb (projects db ++ [newProject env smeId projectData])
                        (project_matches db
                         ++ matchRows env (newProject env smeId projectData)
                                      (Env.now env 1) 1 ranked)
                        (consultant_profiles db)).
  { subst db'. now rewrite (createProject_fresh _ _ _ _ Hout Hfresh). }
  assert (Hnew : In (newProject env smeId projectData) (projects db')).
  { rewrite Hdb'. cbn [projects]. apply in_or_app. right. now left. }
  assert (Hof : matchesOf db' (Env.nanoid env 0)
                = matchRows env (newProject env smeId projectData)
                            (Env.now env 1) 1 ranked).
  { rewrite Hdb'. unfold matchesOf. cbn [project_matches].
    rewrite filter_app.
    rewrite (no_match_of_new_project db _ (reachable_consistent _ Hreach) Hout).
    pose proof (own_project_rows env (newProject env smeId projectData)
                  (Env.now env 1) ranked (List.length ranked)) as Hown.
    rewrite firstn_all2 in Hown by (rewrite matchRows_length; lia).
    exact Hown. }
  cbn [newProject Project.id]. fold (newProject env smeId projectData).
  split.
  - destruct (proj2 (owned_found (Env.nanoid env 0) smeId (projects db')))
      as [p Hp].
    { exists (newProject env smeId projectData). repeat split. exact Hnew. }
    rewrite (getProjectMatches_found _ _ _ _ Hp). cbn [snd].
    eexists. split; [reflexivity|]. rewrite Hof.
    split; [apply orderBy_perm|]. split.
    + rewrite <- (matchRows_consultants env
                    (newProject env smeId projectData) (Env.now env 1)
                    ranked 1).
      apply Permutation_map, orderBy_perm.
    + rewrite <- Hof.
      apply Sorted_strongly; [exact rowsDescending_trans|].
      apply orderBy_rowsDescending.
      pose proof (reachable_scoresAreNumbers db' Hreach') as Hnum.
      unfold scoresAreNumbers, matchesOf in *. rewrite Forall_forall in *.
      intros x Hx. apply Hnum. now apply filter_In in Hx.
  - intros other Hne.
    rewrite getProjectMatches_not_found; [reflexivity|].
    destruct (first (filter (fun p => (Project.id p =? Env.nanoid env 0)%string
                                      && (Project.sme_id p =? other)%string)
                            (projects db'))) as [p|] eqn:Hf; [|reflexivity].
    exfalso. apply first_filter in Hf as [Hin Hq].
    apply andb_true_iff in Hq as [Hid Hsme].
    apply String.eqb_eq in Hid, Hsme.
    assert (p = newProject env smeId projectData).
    { apply (key_unique Project.id (projects db'));
        [apply (reachable_uniqueProjectIds db' Hreach') | exact Hin
         | exact Hnew | exact Hid]. }
    subst p. apply Hne. symmetry. exact Hsme.
Qed.

End ComposeFacts.

(** ** Keywords: case, punctuation and the fields of a project *)

Module TextFacts.
Import JsString Matching Spec JsStringFacts KeywordFacts.
Local Open Scope string_scope.

Lemma lowerChar_idem (c : ascii) : lowerChar (lowerChar c) = lowerChar c.
Proof.
  destruct c as [[] [] [] [] [] [] [] []]; vm_compute; reflexivity.
Qed.

(** The case mapping moves no character into or out of the classes the
    stripping keeps. *)
Lemma lowerChar_kept (c : ascii) :
  isWord (lowerChar c) || isSpace (lowerChar c) = isWord c || isSpace c.
Proof.
  destruct c as [[] [] [] [] [] [] [] []]; vm_compute; reflexivity.
Qed.

Lemma toLowerCase_idem (s : string) :
  toLowerCase (toLowerCase s) = toLowerCase s.
Proof.
  induction s as [|c s IH]; simpl; [reflexivity|].
  now rewrite lowerChar_idem, IH.
Qed.

Lemma strip_lower_strip (s : string) :
  stripNonWord (toLowerCase (stripNonWord s)) = stripNonWord (toLowerCase s).
Proof.
  induction s as [|c s IH]; simpl; [reflexivity|].
  destruct (isWord c || isSpace c) eqn:Hc; simpl;
    rewrite lowerChar_kept, Hc, IH; reflexivity.
Qed.

Lemma toLowerCase_app (a b : string) :
  toLowerCase (a ++ b) = toLowerCase a ++ toLowerCase b.
Proof. induction a as [|c a IH]; simpl; congruence. Qed.

Lemma stripNonWord_app (a b : string) :
  stripNonWord (a ++ b) = stripNonWord a ++ stripNonWord b.
Proof.
  induction a as [|c a IH]; simpl; [reflexivity|].
  destruct (isWord c || isSpace c); simpl; congruence.
Qed.

(** The tokens of two texts joined by a white-space character are the
    tokens of the one and the tokens of the other. *)
Lemma Token_join (w x y : string) (c : ascii) :
  isSpace c = true ->
  Token w (x ++ String c y) <-> Token w x \/ Token w y.
Proof.
  intros Hc. split.
  - intros [Hw [Hns [before [after [Heq [Hb Ha]]]]]].
    apply append_eq_append in Heq as [l [[Hx Hr]|[Hbf Hr]]].
    + (* [w] begins within [x] *)
      left. split; [exact Hw|]. split; [exact Hns|].
      apply append_eq_append in Hr as [l2 [[Hw' Hr]|[Hl Hr]]].
      * destruct l2 as [|d l2].
        -- rewrite append_nil_r in Hw'. subst l.
           exists before, "". rewrite append_nil_r.
           split; [exact Hx|]. split; [exact Hb | exact I].
        -- exfalso. simpl in Hr. injection Hr as -> _.
           rewrite Hw', allChars_app in Hns. simpl in Hns.
           rewrite Hc in Hns. simpl in Hns.
           now rewrite andb_false_r in Hns.
      * exists before, l2. rewrite <- Hl.
        split; [exact Hx|]. split; [exact Hb|].
        destruct l2 as [|d l2]; [exact I|].
        rewrite Hr in Ha. exact Ha.
    + (* [w] begins beyond [x] *)
      destruct l as [|d l].
      * exfalso. simpl in Hr. destruct w as [|e w]; [now elim Hw|].
        simpl in Hr. injection Hr as <- _. simpl in Hns.
        rewrite Hc in Hns. discriminate.
      * right. simpl in Hr. injection Hr as <- Hr.
        split; [exact Hw|]. split; [exact Hns|].
        exists l, after. split; [exact Hr|]. split; [|exact Ha].
        rewrite Hbf, lastChar_append in Hb.
        destruct l as [|e l]; [exact I|]. exact Hb.
  - intros [[Hw [Hns [before [after [Heq [Hb Ha]]]]]]
           |[Hw [Hns [before [after [Heq [Hb Ha]]]]]]].
    + split; [exact Hw|]. split; [exact Hns|].
      exists before, (after ++ String c y).
      split; [now rewrite Heq, !append_assoc|]. split; [exact Hb|].
      destruct after as [|e after]; [exact Hc | exact Ha].
    + split; [exact Hw|]. split; [exact Hns|].
      exists (x ++ String c before), after.
      split; [now rewrite Heq, append_assoc|]. split; [|exact Ha].
      rewrite lastChar_append.
      destruct before as [|e before]; [exact Hc | exact Hb].
Qed.

Lemma extractKeywords_Token (text w : string) :
  In w (extractKeywords text)
  <-> Token w (stripNonWord (toLowerCase text)) /\ 4 <= String.length w.
Proof.
  rewrite extractKeywords_In. split; intros [H Hlen]; (split; [|exact Hlen]).
  - apply splitSpaces_Token; [|exact H]. intros ->. simpl in Hlen. lia.
  - apply splitSpaces_Token; [|exact H]. intros ->. simpl in Hlen. lia.
Qed.

Lemma extractKeywords_join (a b w : string) :
  In w (extractKeywords (a ++ " " ++ b))
  <-> In w (extractKeywords a) \/ In w (extractKeywords b).
Proof.
  rewrite !extractKeywords_Token.
  rewrite toLowerCase_app, stripNonWord_app.
  change (toLowerCase (" " ++ b)) with (String " " (toLowerCase b)).
  change (stripNonWord (String " " (toLowerCase b)))
    with (String " " (stripNonWord (toLowerCase b))).
  rewrite (Token_join w _ _ " " eq_refl). tauto.
Qed.

(** X20.  Keywords do not depend on case or punctuation: a text, the
  text in lower case, and the text without the characters that are
  neither word characters nor white space have the same keywords, in the
  same order. *)
Theorem extractKeywords_ignores_case_and_punctuation (text : string) :
  extractKeywords (toLowerCase text) = extractKeywords text
  /\ extractKeywords (stripNonWord text) = extractKeywords text
  /\ extractKeywords (stripNonWord (toLowerCase text)) = extractKeywords text.
Proof.
  unfold extractKeywords.
  rewrite toLowerCase_idem, !strip_lower_strip, toLowerCase_idem.
  repeat split.
Qed.

(** X21.  The keywords of a project are the keywords of its title, of its
  description and of its requirements taken together: joining the fields
  with a space makes no keyword that spans two fields and loses none. *)
Theorem project_keywords_by_field (project : Project.t) (w : string) :
  In w (extractKeywords (projectText project))
  <-> In w (extractKeywords (Project.title project))
      \/ In w (extractKeywords (Project.description project))
      \/ In w (extractKeywords (Project.requirements project)).
Proof.
  unfold projectText. now rewrite !extractKeywords_join.
Qed.

End TextFacts.

(** ** A consultant without expertise tags *)

Module NoExpertiseFacts.
Import JsString JsNumber Matching Spec.
Import SpecFloatFacts FloatFacts ExpertiseFacts RankingFacts.

(** The number that holds a positive count is positive. *)
Lemma ofNat_pos (n : nat) :
  0 < n -> (Z.of_nat n < 4294967296)%Z ->
  posSF (Prim2SF (ofNat n)) = true.
Proof.
  intros Hpos Hlt. unfold ofNat. rewrite FloatAxioms.of_uint63_spec.
  apply binary_normalize_pos.
  - intros H. discriminate H.
  - rewrite Uint63.of_Z_spec.
    change wB with 9223372036854775808%Z.
    rewrite Z.mod_small; lia.
Qed.

(** Zero divided by a positive number is zero. *)
Lemma zero_div_pos (x : float) :
  posSF (Prim2SF x) = true -> (0 / x)%float = 0%float.
Proof.
  intros Hx. apply FloatAxioms.Prim2SF_inj.
  rewrite FloatAxioms.div_spec.
  change (Prim2SF 0) with (S754_zero false).
  destruct (Prim2SF x) as [[]|[]| |[] m e]; try discriminate; reflexivity.
Qed.

Lemma countMatches_no_tag (keywords : list string) (n : nat) :
  countMatches [] keywords n = n.
Proof.
  revert n. induction keywords as [|k rest IH]; intros n; simpl; auto.
Qed.

Lemma calculateExpertiseMatch_no_tag (projectKeywords : list string) :
  (Z.of_nat (List.length projectKeywords) < 2 ^ 32)%Z ->
  calculateExpertiseMatch [] projectKeywords = 0%float.
Proof.
  intros Hlen. unfold calculateExpertiseMatch. cbn [map].
  rewrite countMatches_no_tag.
  destruct (Nat.ltb_spec 0 (List.length projectKeywords)) as [Hpos|_];
    [|reflexivity].
  apply zero_div_pos. apply ofNat_pos; [exact Hpos|].
  change (2 ^ 32)%Z with 4294967296%Z in Hlen. exact Hlen.
Qed.

(** X22.  A consultant without expertise tags matches no keyword: for
  every list of project keywords (of a length an array can have) the
  expertise score is 0, the weighted score is 0.4 times the experience
  score, and the consultant reaches the threshold exactly with 7 years of
  experience or more. *)
Theorem no_expertise_scores_by_experience (projectKeywords : list string)
        (c : ConsultantProfile.t) :
  (Z.of_nat (List.length projectKeywords) < 2 ^ 32)%Z ->
  ConsultantProfile.expertise c = [] ->
  calculateExpertiseMatch (ConsultantProfile.expertise c) projectKeywords
  = 0%float
  /\ matchScore projectKeywords c
     = (calculateExperienceScore (ConsultantProfile.experience_years c)
        * 0.4)%float
  /\ ((0.3 <=? matchScore projectKeywords c)%float = true
      <-> (7 <= ConsultantProfile.experience_years c)%Z).
Proof.
  intros Hlen Hexp.
  assert (Hzero : calculateExpertiseMatch (ConsultantProfile.expertise c)
                                          projectKeywords = 0%float)
    by (rewrite Hexp; now apply calculateExpertiseMatch_no_tag).
  assert (Hsame : matchScore projectKeywords c = matchScore [] c).
  { unfold matchScore. rewrite Hzero. reflexivity. }
  destruct (matchScore_no_keyword c) as [H1 [_ H3]].
  split; [exact Hzero|]. rewrite Hsame.
  split; [exact H1|]. rewrite H3. apply Z.leb_le.
Qed.

End NoExpertiseFacts.

(** ** A consultant whose tags match every keyword *)

Module FullMatchFacts.
Import JsString JsNumber Matching Spec.
Import SpecFloatFacts FloatFacts ExperienceFacts JsStringFacts ExpertiseFacts
       RankingFacts.
Local Open Scope Z_scope.

Lemma digits2_iter (p k : positive) :
  digits2_pos (Pos.iter xO p k) = (digits2_pos p + k)%positive.
Proof.
  induction k using Pos.peano_ind.
  - cbn [Pos.iter digits2_pos]. now rewrite Pos.add_1_r.
  - rewrite Pos.iter_succ. cbn [digits2_pos]. rewrite IHk.
    now rewrite Pos.add_succ_r.
Qed.

(** A mantissa of full width at an exponent in range is left as it is. *)
Lemma binary_round_aux_canonical (s : bool) (m : positive) (e : Z) :
  Z.pos (digits2_pos m) = prec ->
  SpecFloat.emin prec emax <= e -> e <= emax - prec ->
  binary_round_aux prec emax s (Z.pos m) e loc_Exact = S754_finite s m e.
Proof.
  intros Hd Hlo Hhi.
  assert (Hn : fexp prec emax (Zdigits2 (Z.pos m) + e) - e = 0).
  { cbn [Zdigits2]. rewrite Hd.
    unfold fexp, SpecFloat.emin, prec, emax in *. lia. }
  unfold binary_round_aux, shr_fexp. rewrite Hn.
  cbn [shr shr_record_of_loc shr_m loc_of_shr_record round_nearest_even].
  rewrite Hn. cbn [shr shr_record_of_loc shr_m].
  apply Z.leb_le in Hhi. now rewrite Hhi.
Qed.

(** The number that holds a positive count below 2^32 is finite. *)
Lemma ofNat_finite (n : nat) :
  (0 < n)%nat -> Z.of_nat n < 4294967296 ->
  exists m e, Prim2SF (ofNat n) = S754_finite false m e.
Proof.
  intros Hpos Hlt. unfold ofNat. rewrite FloatAxioms.of_uint63_spec.
  rewrite Uint63.of_Z_spec. change wB with 9223372036854775808.
  rewrite Z.mod_small by lia.
  destruct (Z.of_nat n) as [|p|p] eqn:Hn; try lia.
  cbn [binary_normalize]. unfold binary_round.
  assert (Hd : Z.pos (digits2_pos p) <= 32).
  { pose proof (digits2_bounds p) as [Hlo _].
    destruct (Z.le_gt_cases (Z.pos (digits2_pos p)) 32) as [H|H];
      [exact H|].
    exfalso.
    assert (H32 : 2 ^ 32 <= 2 ^ (Z.pos (digits2_pos p) - 1))
      by (apply Z.pow_le_mono_r; lia).
    change (2 ^ 32) with 4294967296 in H32. lia. }
  assert (He : fexp prec emax (Z.pos (digits2_pos p) + 0)
               = Z.pos (digits2_pos p) - 53).
  { unfold fexp, SpecFloat.emin, prec, emax. lia. }
  rewrite He. unfold shl_align.
  destruct (Z.pos (digits2_pos p) - 53 - 0) as [|k|k] eqn:Hk; try lia.
  exists (Pos.iter xO p k), (Z.pos (digits2_pos p) - 53).
  apply binary_round_aux_canonical.
  - rewrite digits2_iter. unfold prec. lia.
  - unfold SpecFloat.emin, prec, emax. lia.
  - unfold prec, emax. lia.
Qed.

Lemma new_location_zero (m : Z) : new_location m 0 = loc_Exact.
Proof. unfold new_location. now destruct (Z.even m). Qed.

(** A finite positive number divided by itself is one. *)
Lemma SFdiv_self (m : positive) (e : Z) :
  SFdiv prec emax (S754_finite false m e) (S754_finite false m e)
  = S754_finite false 4503599627370496 (-52).
Proof.
  unfold SFdiv, SFdiv_core_binary.
  replace (Zdigits2 (Z.pos m) + e - (Zdigits2 (Z.pos m) + e)) with 0 by lia.
  replace (e - e) with 0 by lia.
  change (Z.min (fexp prec emax 0) 0) with (-53).
  change (0 - -53) with 53.
  cbv beta iota.
  assert (Hdiv : Z.div_eucl (Z.shiftl (Z.pos m) 53) (Z.pos m)
                 = (9007199254740992, 0)).
  { rewrite Z.shiftl_mul_pow2 by lia.
    change (2 ^ 53) with 9007199254740992.
    rewrite Z.mul_comm.
    pose proof (Z.div_mul 9007199254740992 (Z.pos m) ltac:(lia)) as Hq.
    pose proof (Z.mod_mul 9007199254740992 (Z.pos m) ltac:(lia)) as Hr.
    unfold Z.div, Z.modulo in Hq, Hr.
    destruct (Z.div_eucl (9007199254740992 * Z.pos m) (Z.pos m)) as [q r].
    now subst q r. }
  rewrite Hdiv. rewrite new_location_zero.
  vm_compute. reflexivity.
Qed.

Lemma div_self_count (n : nat) :
  (0 < n)%nat -> Z.of_nat n < 4294967296 ->
  (ofNat n / ofNat n)%float = 1%float.
Proof.
  intros Hpos Hlt. apply FloatAxioms.Prim2SF_inj.
  rewrite FloatAxioms.div_spec.
  destruct (ofNat_finite n Hpos Hlt) as [m [e ->]].
  rewrite SFdiv_self. reflexivity.
Qed.

Lemma filter_all {A} (q : A -> bool) (l : list A) :
  (forall x, In x l -> q x = true) -> filter q l = l.
Proof.
  intros H. apply forallb_filter_id. now apply forallb_forall.
Qed.

Lemma empty_tag_matches (expertise : list string) (keyword : string) :
  In EmptyString expertise -> Matched expertise keyword.
Proof.
  intros Hin. exists EmptyString. split; [exact Hin|]. right.
  exists EmptyString, keyword. reflexivity.
Qed.

Lemma full_match_value (expertise projectKeywords : list string) :
  projectKeywords <> [] ->
  Z.of_nat (List.length projectKeywords) < 2 ^ 32 ->
  (forall keyword, In keyword projectKeywords -> Matched expertise keyword) ->
  calculateExpertiseMatch expertise projectKeywords = 1%float.
Proof.
  intros Hne Hlen Hall.
  assert (Hm : forall keyword, In keyword projectKeywords ->
                               matched expertise keyword = true).
  { intros keyword Hin. apply matched_Matched. now apply Hall. }
  unfold calculateExpertiseMatch.
  rewrite countMatches_filter, (filter_all _ _ Hm). cbn [Nat.add].
  assert (Hpos : (0 < List.length projectKeywords)%nat).
  { destruct projectKeywords; [now elim Hne | simpl; lia]. }
  apply Nat.ltb_lt in Hpos as Hpos'. rewrite Hpos'.
  apply div_self_count; [exact Hpos|].
  change (2 ^ 32) with 4294967296 in Hlen. exact Hlen.
Qed.

(** X23.  When every project keyword is matched by the expertise tags
  the expertise score is exactly 1, for every list of keywords that is
  not empty (and of a length an array can have).  An empty tag is enough:
  it lies within every keyword. *)
Theorem full_match_scores_one (expertise projectKeywords : list string) :
  projectKeywords <> [] ->
  Z.of_nat (List.length projectKeywords) < 2 ^ 32 ->
  (forall keyword, In keyword projectKeywords -> Matched expertise keyword)
  \/ In EmptyString expertise ->
  calculateExpertiseMatch expertise projectKeywords = 1%float.
Proof.
  intros Hne Hlen Hall. apply full_match_value; trivial.
  intros keyword Hin.
  destruct Hall as [Hall|Hempty];
    [now apply Hall | now apply empty_tag_matches].
Qed.

(** X24.  A consultant whose tags match every keyword is a candidate
  whatever the experience: the weighted score is 0.6 plus 0.4 times the
  experience score, which reaches the threshold, and the stored score is
  1 from 15 years on and 0.72 without experience. *)
Theorem full_match_is_always_candidate (projectKeywords : list string)
        (c : ConsultantProfile.t) :
  projectKeywords <> [] ->
  Z.of_nat (List.length projectKeywords) < 2 ^ 32 ->
  (forall keyword, In keyword projectKeywords ->
                   Matched (ConsultantProfile.expertise c) keyword) ->
  matchScore projectKeywords c
  = (1 * 0.6
     + calculateExperienceScore (ConsultantProfile.experience_years c) * 0.4)%float
  /\ (0.3 <=? matchScore projectKeywords c)%float = true
  /\ (forall consultants,
         In c consultants ->
         In (Candidate.mk (ConsultantProfile.id c)
                          (round2 (matchScore projectKeywords c)))
            (scoreConsultants projectKeywords consultants))
  /\ (15 <= ConsultantProfile.experience_years c ->
      round2 (matchScore projectKeywords c) = 1%float)
  /\ (ConsultantProfile.experience_years c < 1 ->
      round2 (matchScore projectKeywords c) = 0.72%float).
Proof.
  intros Hne Hlen Hall.
  assert (Hs : matchScore projectKeywords c
               = (1 * 0.6
                  + calculateExperienceScore
                      (ConsultantProfile.experience_years c) * 0.4)%float).
  { unfold matchScore.
    now rewrite (full_match_value _ _ Hne Hlen Hall). }
  assert (Hpass : (0.3 <=? matchScore projectKeywords c)%float = true).
  { rewrite Hs.
    score_cases (ConsultantProfile.experience_years c); reflexivity. }
  split; [exact Hs|]. split; [exact Hpass|]. split; [|split].
  - intros consultants Hin. rewrite scoreConsultants_filter.
    apply in_map_iff. exists c. split; [reflexivity|].
    apply filter_In. split; [exact Hin | exact Hpass].
  - intros Hy. rewrite Hs.
    score_cases (ConsultantProfile.experience_years c);
      solve [reflexivity | lia].
  - intros Hy. rewrite Hs.
    score_cases (ConsultantProfile.experience_years c);
      solve [reflexivity | lia].
Qed.

End FullMatchFacts.

(** ** Instances on the scenarios *)

Module CaseFacts.
Import D1 Matching Projects Queries Spec Notions Scenario Cases.
Import ScenarioFacts ProjectFacts StepFacts QueryFacts LifecycleFacts
       ComposeFacts NoExpertiseFacts FullMatchFacts.
Local Open Scope string_scope.


Lemma pool_ids : NoDup (map ConsultantProfile.id (consultant_profiles created)).
Proof.
  vm_compute. repeat constructor; simpl; intuition discriminate.
Qed.



(** Accepting ["A"] rejects ["B"], whose identity stays. *)
Lemma match_identity_immutable_witness :
  (exists m', In m' (project_matches acceptedA) /\ sameIdentity rowB m')
  \/ (exists smeId,
         UpdateMatchStatus envLater "A" "sme" NewStatus.accepted
         = DeleteProject (ProjectMatch.project_id rowB) smeId
         /\ forall m', In m' (project_matches acceptedA) ->
                       ProjectMatch.project_id m'
                       <> ProjectMatch.project_id rowB).
Proof.
  apply (match_identity_immutable
           (UpdateMatchStatus envLater "A" "sme" NewStatus.accepted)
           created rowB).
  vm_compute. right. left. reflexivity.
Defined.

(** ["B"] is still pending after a proposal for ["A"]: it was pending
    before. *)
Lemma no_return_to_pending_witness :
  (exists m, In m (project_matches created)
             /\ sameIdentity m rowB
             /\ ProjectMatch.status m = MatchStatus.pending)
  \/ (~ In (ProjectMatch.id rowB)
           (map ProjectMatch.id (project_matches created))
      /\ exists env smeId projectData,
          SubmitProposal envLater "A" "c1" "Site visit" 1500%float
          = CreateProject env smeId projectData
          /\ ProjectMatch.project_id rowB = Env.nanoid env 0).
Proof.
  apply (no_return_to_pending
           (SubmitProposal envLater "A" "c1" "Site visit" 1500%float)
           created rowB).
  - vm_compute. right. left. reflexivity.
  - reflexivity.
Defined.

Lemma at_most_ten_matches_witness :
  List.length (matchesOf created "P") <= 10.
Proof.
  exact (at_most_ten_matches_per_project created created_reachable "P").
Defined.

Lemma one_match_per_consultant_witness :
  NoDup (map ProjectMatch.consultant_id (matchesOf created "P")).
Proof.
  exact (one_match_per_consultant created created_reachable pool_ids "P").
Defined.

(** After ["A"] is accepted a proposal for ["B"] is refused. *)
Lemma accept_closes_proposals_witness :
  fst (submitProposal envLater (ProjectMatch.id rowRejected) "c2"
                      "Second thoughts" 900%float acceptedA) = acceptedA
  /\ exists message,
      snd (submitProposal envLater (ProjectMatch.id rowRejected) "c2"
                          "Second thoughts" 900%float acceptedA)
      = Thrown message.
Proof.
  pose proof (accept_closes_proposals envLater "A" "sme" created rowAccepted
                created_reachable ltac:(vm_compute; reflexivity)) as H.
  cbv zeta in H. destruct H as [_ H].
  apply (H envLater rowRejected "c2" "Second thoughts" 900%float).
  - vm_compute. right. left. reflexivity.
  - reflexivity.
Defined.

(** Rejecting ["B"] leaves the projects as they were. *)
Lemma only_accept_cascades_witness :
  projects (fst (updateMatchStatus envLater "B" "sme" NewStatus.rejected
                                   created))
  = projects created.
Proof.
  pose proof (only_accept_cascades envLater "B" "sme" NewStatus.rejected
                created rowRejected created_reachable
                ltac:(discriminate) ltac:(vm_compute; reflexivity)) as H.
  cbv zeta in H. destruct H as [_ [_ [H _]]]. exact (H eq_refl).
Defined.


(** The second consultant of the scenario has no tag and 8 years. *)
Lemma no_expertise_witness :
  calculateExpertiseMatch (ConsultantProfile.expertise generalist)
                          ["energy"; "audit"; "report"]
  = 0%float
  /\ matchScore ["energy"; "audit"; "report"] generalist
     = (calculateExperienceScore 8 * 0.4)%float.
Proof.
  pose proof (no_expertise_scores_by_experience
                ["energy"; "audit"; "report"] generalist
                ltac:(vm_compute; reflexivity) ltac:(reflexivity))
    as [H1 [H2 _]].
  split; [exact H1 | exact H2].
Defined.


(** Once the project of the scenario is deleted, ["B"] is gone. *)
Lemma deleted_matches_witness :
  findMatch (fst (deleteProject "P" "sme" created)) (ProjectMatch.id rowB)
  = None.
Proof.
  pose proof (deleted_matches_cannot_be_used "P" "sme" created rowB
                created_ids ltac:(vm_compute; reflexivity)) as H.
  cbv zeta in H. destruct H as [H _].
  - vm_compute. right. left. reflexivity.
  - reflexivity.
  - exact H.
Defined.

(** The SME of the scenario sees its two matches; another SME does not. *)
Lemma created_project_shows_its_ranking_witness :
  snd (getProjectMatches (Project.id (newProject envCreate "sme" audit))
                         "other" created)
  = Thrown "Project not found or you do not have permission to access it".
Proof.
  pose proof (created_project_shows_its_ranking envCreate "sme" audit
                (initial pool) (newProject envCreate "sme" audit)
                (reach_initial pool) ltac:(vm_compute; reflexivity)) as H.
  cbv zeta in H. destruct H as [_ H].
  apply (H "other"). discriminate.
Defined.

Lemma energy_matched (keyword : string) :
  In keyword ["energy"] ->
  Matched (ConsultantProfile.expertise specialist) keyword.
Proof.
  intros [<-|[]]. exists "Energy". split; [now left|].
  left. exists "", "". reflexivity.
Qed.

(** The tag "Energy" matches the one keyword "energy". *)
Lemma full_match_scores_one_witness :
  calculateExpertiseMatch (ConsultantProfile.expertise specialist) ["energy"]
  = 1%float.
Proof.
  apply (full_match_scores_one (ConsultantProfile.expertise specialist)
                               ["energy"]).
  - discriminate.
  - vm_compute. reflexivity.
  - left. exact energy_matched.
Defined.

Lemma full_match_is_always_candidate_witness :
  (0.3 <=? matchScore ["energy"] specialist)%float = true.
Proof.
  pose proof (full_match_is_always_candidate ["energy"] specialist
                ltac:(discriminate) ltac:(vm_compute; reflexivity)
                energy_matched) as [_ [H _]].
  exact H.
Defined.

End CaseFacts.
